(** * Population-trends EDA: the loader, the forecaster and the derived views

    A shallow embedding of [app_eda.py] (the population tab of the dashboard)
    and the properties its specification states about it.

    Modelling conventions.
    - A pandas [DataFrame] is a finite map from column labels to columns; a
      column is the list of its cells, and the position of a cell in that list
      is the row label that [read_csv] assigns (0, 1, 2, ...).
    - A cell is a [value]: what pandas holds after [read_csv], that is an
      integer, a finite float, an infinity, the missing value NaN, or text.
    - Numbers are the machine's.  An [int64] is a [Z] between -2^63 and
      2^63 - 1 and integer arithmetic wraps around ([wrap64]); a finite
      [float64] is the rational it denotes and every float operation rounds
      its exact result to the nearest float, ties to even ([round_f64]).
      No sum here can reach 2^1024, so infinities only occur as cells that
      were read from the upload; the sign of a float zero is not kept.
      Where pandas lets the platform decide, the model follows NumPy 2 on
      x86-64, and says so at the definition.
    - Which of two rows with equal keys [sort_values] puts first on a single
      key is left to numpy's sort; that sort is a parameter of the views
      that use it, and they are proved for every sort that orders the rows.
    - A Python exception is an [exn] carried by [result].
    - pandas' CSV reader and the text-to-number parser inside
      [pd.to_numeric] are parameters, [read_csv] and [str_to_num]: the
      development holds for every reader and every parser.  A small reader
      and a parser of integer literals serve for the examples. *)

From stdpp Require Import gmap strings list fin_maps sorting.
From Stdlib Require Import ZArith QArith Qround Qabs Qminmax Lia Ascii.

Open Scope string_scope.
Open Scope Z_scope.
Open Scope list_scope.

(** ** Python values, exceptions *)

Inductive num :=
  | NInt (z : Z)
  | NFloat (q : Q)
  | NInf (negative : bool).

Inductive value :=
  | VNum (n : num)
  | VNaN
  | VStr (s : string).

Abbreviation VInt z := (VNum (NInt z)).

Inductive exn :=
  | EmptyDataError
  | ParserError
  | KeyError (labels : list string)
  | IntCastingNaNError
  | ValueError
  | IndexError
  | OverflowError.

Inductive result (A : Type) :=
  | Ok (a : A)
  | Raise (e : exn).
Arguments Ok {A} a.
Arguments Raise {A} e.

#[global] Instance result_ret : MRet result := fun _ a => Ok a.
#[global] Instance result_bind : MBind result := fun _ _ f m =>
  match m with
  | Ok a => f a
  | Raise e => Raise e
  end.
#[global] Instance result_fmap : FMap result := fun _ _ f m =>
  match m with
  | Ok a => Ok (f a)
  | Raise e => Raise e
  end.

Definition is_Ok {A} (m : result A) : Prop := exists a, m = Ok a.
Definition raises {A} (m : result A) : Prop := exists e, m = Raise e.

(** ** Machine numbers *)

(** The range of an [int64], and the value that integer arithmetic leaves
    when the exact result is outside of it (two's complement). *)
Definition fits_int64 (z : Z) : Prop := - 2 ^ 63 <= z < 2 ^ 63.

Definition wrap64 (z : Z) : Z := (z + 2 ^ 63) mod 2 ^ 64 - 2 ^ 63.

(** [2 ^ e] for an exponent that is not negative, 1 otherwise. *)
Definition pow2 (e : Z) : Z := 2 ^ Z.max 0 e.

(** The integer nearest to [n / d], the even one of two that are equally
    near. *)
Definition round_half_even (n d : Z) : Z :=
  let q := n / d in
  let r := n mod d in
  if 2 * r <? d then q
  else if d <? 2 * r then q + 1
  else if Z.even q then q else q + 1.

(** The exponent of the last place of the float nearest to [n / d]: the one
    that brings the magnitude into [2^52, 2^53), and -1074 for the
    subnormal numbers. *)
Definition f64_exponent (n d : Z) : Z :=
  let e0 := Z.log2 (Z.abs n) - Z.log2 d - 53 in
  let e := if 2 ^ 53 * d * pow2 e0 <=? Z.abs n * pow2 (- e0) then e0 + 1 else e0 in
  Z.max e (- 1074).

(** Rounding of a real result to [float64]: 53 significant bits, to nearest,
    ties to even.  The float is given by the rational in lowest terms. *)
Definition round_f64 (x : Q) : Q :=
  let n := Qnum x in
  let d := Z.pos (Qden x) in
  if n =? 0 then 0%Q
  else
    let e := f64_exponent n d in
    let m := round_half_even (n * pow2 (- e)) (d * pow2 e) in
    Qred (Qmake (m * pow2 e) (Z.to_pos (pow2 (- e)))).

(** The conversion of an [int64] to [float64] and the float operations. *)
Definition f64_of_int (z : Z) : Q := round_f64 (inject_Z z).
Definition f64_add (a b : Q) : Q := round_f64 (a + b).
Definition f64_sub (a b : Q) : Q := round_f64 (a - b).
Definition f64_div (a b : Q) : Q := round_f64 (a / b).

(** ** Data frames *)

Abbreviation column := (list value).
Abbreviation frame := (gmap string column).

(** [df[c]]: a missing label is a [KeyError]. *)
Definition getitem (df : frame) (c : string) : result column :=
  match df !! c with
  | Some col => Ok col
  | None => Raise (KeyError [c])
  end.

(** [df[cols]] and [df.loc[mask, cols]]: every label has to exist, the
    [KeyError] names the missing ones. *)
Definition missing_labels (df : frame) (cols : list string) : list string :=
  filter (fun c => df !! c = None) cols.

Definition getitems (df : frame) (cols : list string)
  : result (list (string * column)) :=
  match missing_labels df cols with
  | [] => Ok ((fun c => (c, default [] (df !! c))) <$> cols)
  | missing => Raise (KeyError missing)
  end.

(** [df[cols] = new]: columns are replaced in place (or added). *)
Definition setitems (df : frame) (new : list (string * column)) : frame :=
  foldr (fun '(c, col) acc => <[c := col]> acc) df new.

(** ** The module constants *)

Definition REGION_KR2EN : gmap string string :=
  list_to_map
    [ ("서울", "Seoul"); ("부산", "Busan"); ("대구", "Daegu"); ("인천", "Incheon");
      ("광주", "Gwangju"); ("대전", "Daejeon"); ("울산", "Ulsan"); ("세종", "Sejong");
      ("경기", "Gyeonggi"); ("강원", "Gangwon"); ("충북", "Chungbuk"); ("충남", "Chungnam");
      ("전북", "Jeonbuk"); ("전남", "Jeonnam"); ("경북", "Gyeongbuk"); ("경남", "Gyeongnam");
      ("제주", "Jeju"); ("전국", "National") ].

Definition col_region : string := "지역".
Definition col_year : string := "연도".
Definition col_population : string := "인구".
Definition col_births : string := "출생아수(명)".
Definition col_deaths : string := "사망자수(명)".
Definition col_region_en : string := "region_en".

Definition sejong : string := "세종".
Definition national : string := "전국".
Definition dash : string := "-".

Definition num_cols : list string := [col_population; col_births; col_deaths].

(** The columns that [load_population_df] reads. *)
Definition loader_cols : list string :=
  [col_region; col_population; col_births; col_deaths].

(** The columns that the specification calls required. *)
Definition required_cols : list string :=
  [col_region; col_year; col_population; col_births; col_deaths].

(** ** load_population_df *)

Section Loader.

(** [pd.read_csv] on the bytes of the upload: the frame it builds, or the
    error it raises on a file it cannot read. *)
Variable read_csv : string -> result frame.

(** The parser of [pd.to_numeric] on text: [None] when the text is not a
    number (or spells NaN). *)
Variable str_to_num : string -> option num.

(** The dict that [.map] looks regions up in (the module global). *)
Variable kr2en : gmap string string.

(** [series == "세종"], cell by cell. *)
Definition eq_str (s : string) (v : value) : bool :=
  match v with
  | VStr t => bool_decide (t = s)
  | _ => false
  end.

(** [.replace("-", 0)] on one cell. *)
Definition replace_dash (v : value) : value :=
  if eq_str dash v then VInt 0 else v.

(** [df.loc[mask, cols] = df.loc[mask, cols].replace("-", 0)] on one
    column: the rows selected by the mask are rewritten, the others stay. *)
Definition replace_where (mask : list bool) (col : column) : column :=
  imap (fun i v => if default false (mask !! i) then replace_dash v else v) col.

(** [pd.to_numeric(errors="coerce")] on one cell. *)
Definition to_numeric (v : value) : value :=
  match v with
  | VNum n => VNum n
  | VNaN => VNaN
  | VStr s =>
      match str_to_num s with
      | Some n => VNum n
      | None => VNaN
      end
  end.

(** [pd.to_numeric] on a column.  A column is held as floats once one of
    its cells is NaN, a float or an infinity, or an integer outside the
    range from -2^63 to 2^64 - 1, or when it has both a negative integer
    and one from 2^63 up; its integers are then the nearest floats.
    Otherwise its integers stay as they are. *)
Definition holds_float (v : value) : bool :=
  match v with
  | VNum (NInt z) => negb (bool_decide (- 2 ^ 63 <= z < 2 ^ 64))
  | VNum _ => true
  | VNaN => true
  | VStr _ => false
  end.

Definition is_unsigned_only (v : value) : bool :=
  match v with
  | VNum (NInt z) => bool_decide (2 ^ 63 <= z)
  | _ => false
  end.

Definition is_negative_int (v : value) : bool :=
  match v with
  | VNum (NInt z) => bool_decide (z < 0)
  | _ => false
  end.

Definition float_column (cells : column) : bool :=
  existsb holds_float cells
  || (existsb is_unsigned_only cells && existsb is_negative_int cells).

Definition as_float (v : value) : value :=
  match v with
  | VNum (NInt z) => VNum (NFloat (f64_of_int z))
  | _ => v
  end.

Definition to_numeric_col (col : column) : column :=
  let cells := to_numeric <$> col in
  if float_column cells then as_float <$> cells else cells.

(** [.fillna(0)] on one cell. *)
Definition fillna0 (v : value) : value :=
  match v with
  | VNaN => VInt 0
  | _ => v
  end.

(** Truncation of a float towards zero. *)
Definition Qtrunc (q : Q) : Z := Z.quot (Qnum q) (Z.pos (Qden q)).

(** The cast of a number to [int64].  An integer that fits is kept; one from
    2^63 up to 2^64 - 1 is held as [uint64] and wraps around.  A float is
    truncated towards zero.  What does not fit even so goes through the C
    cast of an out-of-range float, which x86-64 answers with -2^63. *)
Definition int64_of_int (z : Z) : Z :=
  if bool_decide (fits_int64 z) then z
  else if bool_decide (2 ^ 63 <= z < 2 ^ 64) then wrap64 z
  else - 2 ^ 63.

Definition int64_of_float (q : Q) : Z :=
  if bool_decide (fits_int64 (Qtrunc q)) then Qtrunc q else - 2 ^ 63.

(** [.astype(int)] on a column: a non-finite cell raises, a number is cast
    to [int64]. Text raises [ValueError] (it cannot occur after
    [to_numeric]). *)
Definition astype_int_cell (v : value) : result value :=
  match v with
  | VNum (NInt z) => Ok (VInt (int64_of_int z))
  | VNum (NFloat q) => Ok (VInt (int64_of_float q))
  | VNum (NInf _) => Raise IntCastingNaNError
  | VNaN => Raise IntCastingNaNError
  | VStr _ => Raise ValueError
  end.

Fixpoint astype_int (col : column) : result column :=
  match col with
  | [] => Ok []
  | v :: rest =>
      z ← astype_int_cell v;
      zs ← astype_int rest;
      Ok (z :: zs)
  end.

(** [.apply(f)] over the selected columns, with a step that can raise. *)
Fixpoint apply_cols (f : column -> result column) (cols : list (string * column))
  : result (list (string * column)) :=
  match cols with
  | [] => Ok []
  | (c, col) :: rest =>
      col' ← f col;
      rest' ← apply_cols f rest;
      Ok ((c, col') :: rest')
  end.

(** [series.map(dict)]: a key that is not in the dict gives NaN. *)
Definition map_dict (v : value) : value :=
  match v with
  | VStr s =>
      match kr2en !! s with
      | Some en => VStr en
      | None => VNaN
      end
  | _ => VNaN
  end.

(** The body of [load_population_df] after the file is read. *)
Definition load_frame (df : frame) : result frame :=
  (* mask = df["지역"] == "세종" *)
  region ← getitem df col_region;
  let mask := eq_str sejong <$> (region : column) in
  (* df.loc[mask, cols] = df.loc[mask, cols].replace("-", 0) *)
  sel ← getitems df [col_population; col_births; col_deaths];
  let df1 :=
    setitems df (prod_map id (replace_where mask) <$> (sel : list (string * column))) in
  (* df[num_cols] = df[num_cols].apply(to_numeric).fillna(0).astype(int) *)
  nums ← getitems df1 num_cols;
  conv ← apply_cols (fun col => astype_int (fillna0 <$> to_numeric_col col)) nums;
  let df2 := setitems df1 conv in
  (* df["region_en"] = df["지역"].map(REGION_KR2EN) *)
  region2 ← getitem df2 col_region;
  Ok (<[col_region_en := map_dict <$> (region2 : column)]> df2).

Definition load_population_df_with (file_obj : string) : result frame :=
  (* df = pd.read_csv(file_obj) *)
  df ← read_csv file_obj;
  load_frame df.

(** *** What the loader does to one cell and to one column

    The three steps of the numeric conversion on a single cell; [as_floats]
    says whether the column of the cell is held as floats and [in_mask]
    whether the row is a Sejong row. *)
Definition coerce_cell (as_floats in_mask : bool) (v : value) : result value :=
  astype_int_cell
    (fillna0 ((if as_floats then as_float else id)
                (to_numeric (if in_mask then replace_dash v else v)))).

(** Whether the column is held as floats after the rewrite of the Sejong
    rows. *)
Definition float_col (region : column) (col : column) : bool :=
  float_column (to_numeric <$> replace_where (eq_str sejong <$> region) col).

Definition coerce_col (region : column) (col : column) : result column :=
  astype_int (fillna0 <$> to_numeric_col (replace_where (eq_str sejong <$> region) col)).

(** The frame that comes out once the three columns are converted. *)
Definition loaded_frame (df : frame) (region p b d p' b' d' : column) : frame :=
  <[col_region_en := map_dict <$> region]>
    (<[col_population := p']> (<[col_births := b']> (<[col_deaths := d']>
      (<[col_population := replace_where (eq_str sejong <$> region) p]>
        (<[col_births := replace_where (eq_str sejong <$> region) b]>
          (<[col_deaths := replace_where (eq_str sejong <$> region) d]> df)))))).



(** A cell that is an infinity (pandas reads [inf] and [-inf] as floats). *)
Definition infinite (v : value) : Prop :=
  exists negative, to_numeric v = VNum (NInf negative).


End Loader.

Definition load_population_df (read_csv : string -> result frame)
    (str_to_num : string -> option num) (file_obj : string) : result frame :=
  load_population_df_with read_csv str_to_num REGION_KR2EN file_obj.

(** Decimal integer literals with an optional sign. *)
Definition digit_of (a : Ascii.ascii) : option Z :=
  let n := Z.of_nat (Ascii.nat_of_ascii a) in
  if bool_decide (48 <= n <= 57) then Some (n - 48) else None.

Fixpoint digits_value (acc : Z) (s : string) : option Z :=
  match s with
  | EmptyString => Some acc
  | String a rest =>
      match digit_of a with
      | Some d => digits_value (10 * acc + d) rest
      | None => None
      end
  end.

Definition int_literal (s : string) : option num :=
  match s with
  | EmptyString => None
  | String a rest =>
      if bool_decide (a = "-"%char) then
        match rest with
        | EmptyString => None
        | _ => (fun z => NInt (- z)) <$> digits_value 0 rest
        end
      else if bool_decide (a = "+"%char) then
        match rest with
        | EmptyString => None
        | _ => NInt <$> digits_value 0 rest
        end
      else NInt <$> digits_value 0 s
  end.

(** A concrete text parser for the examples: it reads integer literals and
    the two infinities, and rejects everything else. *)
Definition number_literal (s : string) : option num :=
  if bool_decide (s = "inf") then Some (NInf false)
  else if bool_decide (s = "-inf") then Some (NInf true)
  else int_literal s.

(** A reader for the examples: plain comma-separated lines without quoting,
    the first line being the header; a row with too many fields is an error
    and a short row is filled with empty cells. *)

(** Splitting text at a separator. *)
Fixpoint split_on (sep : Ascii.ascii) (s : string) : list string :=
  match s with
  | EmptyString => [EmptyString]
  | String a rest =>
      if bool_decide (a = sep) then EmptyString :: split_on sep rest
      else match split_on sep rest with
           | [] => [String a EmptyString]
           | field :: fields => String a field :: fields
           end
  end.

Definition newline : Ascii.ascii := Ascii.ascii_of_nat 10.

(** A file made of the given lines, each one ended by a line break. *)
Definition unlines (ls : list string) : string :=
  foldr (fun l rest => l +:+ String newline rest) EmptyString ls.

(** The lines of a file; the line break that ends the file opens no line. *)
Definition file_lines (s : string) : list string :=
  match reverse (split_on newline s) with
  | EmptyString :: rest => reverse rest
  | _ => split_on newline s
  end.

(** The cells of one column as [read_csv] types them: integers when every
    cell is an integer literal, otherwise text with NaN for an empty cell. *)
Definition infer_column (cells : list string) : column :=
  match mapM int_literal cells with
  | Some ns => VNum <$> ns
  | None => (fun c => if bool_decide (c = EmptyString) then VNaN else VStr c) <$> cells
  end.

Definition simple_read_csv (file : string) : result frame :=
  match file_lines file with
  | [] => Raise EmptyDataError
  | header :: body =>
      let names := split_on ","%char header in
      let rows := split_on ","%char <$> body in
      if bool_decide (Forall (fun row => (length row <= length names)%nat) rows)
      then Ok (list_to_map
                 (imap (fun j name =>
                          (name, infer_column ((fun row => default EmptyString (row !! j)) <$> rows)))
                       names))
      else Raise ParserError
  end.

(** ** The interpreter state around a call

    Two objects outlive a call of the loader: the module dict
    [REGION_KR2EN], which it reads, and the file object it is handed, an
    [io.BytesIO] that holds the bytes of the upload and a read position.
    [read_csv] reads from the position to the end and leaves the position
    at the end. *)








(** ** The loaded table, row by row *)

Record PopulationRecord := {
  region : string;
  year : Z;
  population : Z;
  births : Z;
  deaths : Z;
  region_en : option string
}.

Abbreviation PopulationTable := (list PopulationRecord).

Definition cell (df : frame) (c : string) (i : nat) : option value :=
  df !! c ≫= (fun col : column => col !! i).

Definition row_at (df : frame) (i : nat) : option PopulationRecord :=
  match cell df col_region i, cell df col_year i, cell df col_population i,
        cell df col_births i, cell df col_deaths i, cell df col_region_en i with
  | Some (VStr r), Some (VInt y), Some (VInt p), Some (VInt b), Some (VInt d), Some en =>
      Some {| region := r; year := y; population := p; births := b; deaths := d;
              region_en := match en with VStr s => Some s | _ => None end |}
  | _, _, _, _, _, _ => None
  end.

Definition nrows (df : frame) : nat := length (default [] (df !! col_region)).

(** The rows of a frame whose region column is text and whose year and count
    columns are integers. *)
Definition rows_of (df : frame) : option PopulationTable :=
  mapM (row_at df) (seq 0 (nrows df)).

(** ** Sorting

    A stable insertion sort: of two rows with equal keys the one that came
    first stays first. *)

Section Sort.
Context {A : Type} (le : A -> A -> bool).

Fixpoint insert_sorted (x : A) (l : list A) : list A :=
  match l with
  | [] => [x]
  | y :: l' => if le x y then x :: l else y :: insert_sorted x l'
  end.

Definition sort_by (l : list A) : list A := foldr insert_sorted [] l.
End Sort.

(** ** predict_pop_2035 *)

(** [.tail(n)] *)
Definition tail_n {A} (n : nat) (l : list A) : list A := drop (length l - n) l.

(** [.head(n)] *)
Definition head_n {A} (n : nat) (l : list A) : list A := take n l.

Definition sum_Z (xs : list Z) : Z := foldr Z.add 0 xs.

(** The sum that [mean] takes of an [int64] column: the values as floats,
    added one after the other. *)
Definition f64_sum (xs : list Z) : Q :=
  fold_left (fun acc x => f64_add acc (f64_of_int x)) xs 0%Q.

(** [series.mean()] of an [int64] column: the float sum over the count, NaN
    on an empty series. *)
Definition mean (xs : list Z) : option Q :=
  match xs with
  | [] => None
  | _ => Some (f64_div (f64_sum xs) (f64_of_int (Z.of_nat (length xs))))
  end.

(** [int(x)] on a float: truncation, [ValueError] on NaN. *)
Definition py_int (x : option Q) : result Z :=
  match x with
  | Some q => Ok (Qtrunc q)
  | None => Raise ValueError
  end.

(** [series.iat[-1]] *)
Definition iat_last {A} (l : list A) : result A :=
  match last l with
  | Some a => Ok a
  | None => Raise IndexError
  end.

(** A Python [int] as operand of an [int64] scalar: NumPy 2 takes it as an
    [int64] and raises when it does not fit. *)
Definition int64_of_pyint (z : Z) : result Z :=
  if bool_decide (fits_int64 z) then Ok z else Raise OverflowError.

Definition predict_pop_2035 (nat_df : PopulationTable) : result Z :=
  let recent := tail_n 3 nat_df in
  (* delta = int((recent[births] - recent[deaths]).mean()) *)
  delta ← py_int (mean ((fun r => wrap64 (births r - deaths r)) <$> recent));
  (* years_left = 2035 - recent[year].iat[-1] *)
  last_year ← iat_last (year <$> recent);
  let years_left := wrap64 (2035 - last_year) in
  (* return int(nat_df[population].iat[-1] + delta * years_left) *)
  last_pop ← iat_last (population <$> nat_df);
  delta64 ← int64_of_pyint delta;
  Ok (wrap64 (last_pop + wrap64 (delta64 * years_left))).

(** The forecast in the specification's words: the last three records, the
    mean of births minus deaths over them cut to an integer, the years left
    to 2035, and the sum. *)
Definition last_three (nat_df : PopulationTable) : PopulationTable :=
  reverse (take 3 (reverse nat_df)).

Definition mean_delta (window : PopulationTable) : Z :=
  Z.quot (sum_Z ((fun r => births r - deaths r) <$> window))
         (Z.of_nat (length window)).

Definition forecast_spec (window : PopulationTable) (last_record : PopulationRecord) : Z :=
  population last_record + mean_delta window * (2035 - year last_record).

(** The records for which the machine computes that formula exactly: the
    differences of the window add up within the integers that a float
    holds, and neither the years left, nor the product, nor the sum leaves
    the [int64] range. *)
Definition forecast_exact (window : PopulationTable) (last_record : PopulationRecord)
  : Prop :=
  sum_Z ((fun r => Z.abs (births r - deaths r)) <$> window) < 2 ^ 53 /\
  fits_int64 (2035 - year last_record) /\
  fits_int64 (mean_delta window * (2035 - year last_record)) /\
  fits_int64 (forecast_spec window last_record).

(** The same formula with the mean taken over a given window of records;
    without a last record there is nothing to extrapolate from. *)
Definition forecast_over (window nat_df : PopulationTable) : result Z :=
  match last nat_df with
  | Some last_record => Ok (forecast_spec window last_record)
  | None => Raise ValueError
  end.

(** The national trend of tab 2: the national rows by year, and the forecast
    drawn from them.  National rows of the same year are kept in their
    order here; pandas leaves their order to numpy's sort. *)
Definition national_rows (df : PopulationTable) : PopulationTable :=
  sort_by (fun a b => bool_decide (year a <= year b))
          (filter (fun r => region r = national) df).

Definition forecast_view (df : PopulationTable) : result Z :=
  predict_pop_2035 (national_rows df).

(** ** Tab 3: the change over the last five years, by region *)

(** A pandas [Series] indexed by region: the (label, value) pairs in order. *)
Abbreviation series V := (list (string * V)).

(** [df["연도"].max()]: NaN ([None]) on an empty column. *)
Definition year_max (df : PopulationTable) : option Z :=
  match year <$> df with
  | [] => None
  | y :: ys => Some (foldr Z.max y ys)
  end.

(** [df[df["연도"] == y].set_index("지역")["인구"]]; no year equals NaN. *)
Definition population_by_region (y : option Z) (df : PopulationTable) : series Z :=
  (fun r => (region r, population r)) <$> filter (fun r => Some (year r) = y) df.

Definition values_at {V} (l : string) (s : series V) : list V :=
  (filter (fun e => e.1 = l) s).*2.

(** One difference, in the two arithmetics that pandas uses: on two [int64]
    series, and on series that alignment has turned into floats. *)
Definition sub_int64 (x y : Z) : Q := inject_Z (wrap64 (x - y)).
Definition sub_float64 (x y : Z) : Q := f64_sub (f64_of_int x) (f64_of_int y).

(** The rows that one label contributes to an outer join: NaN where a side
    has no entry, every pairing where both have some. *)
Definition join_label (sub : Z -> Z -> Q) (a b : series Z) (l : string)
  : series (option Q) :=
  match values_at l a, values_at l b with
  | [], ys => (fun _ => (l, None)) <$> ys
  | xs, [] => (fun _ => (l, None)) <$> xs
  | xs, ys => x ← xs; y ← ys; [(l, Some (sub x y))]
  end.

(** Whether the two indexes hold the same labels: alignment then fills in no
    NaN and both sides stay [int64]. *)
Definition same_labels (a b : series Z) : bool :=
  bool_decide (a.*1 ⊆ b.*1 /\ b.*1 ⊆ a.*1).

(** [a - b] on two [int64] series: position by position when the two
    indexes are the same, otherwise aligned on the sorted union of the
    labels; a label that one side lacks makes both sides floats. *)
Definition series_sub (a b : series Z) : series (option Q) :=
  if decide (a.*1 = b.*1)
  then zip_with (fun x y => (x.1, Some (sub_int64 x.2 y.2))) a b
  else
    let sub := if same_labels a b then sub_int64 else sub_float64 in
    l ← sort_by String.leb (remove_dups (a.*1 ++ b.*1)); join_label sub a b l.

(** [series.drop(label)]: a label that is not in the index is a [KeyError]. *)
Definition series_drop {V} (l : string) (s : series V) : result (series V) :=
  if bool_decide (l ∈ s.*1)
  then Ok (filter (fun e => e.1 <> l) s)
  else Raise (KeyError [l]).

(** The order of [sort_values(ascending=False)]: larger first, NaN last. *)
Definition ge_nan_last (x y : option Q) : bool :=
  match x, y with
  | Some a, Some b => Qle_bool b a
  | Some _, None => true
  | None, Some _ => false
  | None, None => true
  end.

(** Larger value first, NaN last. *)
Definition value_desc {K} (e1 e2 : K * option Q) : Prop :=
  ge_nan_last e1.2 e2.2 = true.

(** A sort by falling key that keeps rows with equal keys in their order. *)
Definition stable_sort_values (A : Type) (key : A -> option Q) (l : list A) : list A :=
  sort_by (fun a b => ge_nan_last (key a) (key b)) l.

(** What a sort by falling key has to deliver: the same rows, larger key
    first, NaN last. *)
Definition sorts_desc (sort_values : forall A : Type, (A -> option Q) -> list A -> list A)
  : Prop :=
  forall (A : Type) (key : A -> option Q) (l : list A),
    sort_values A key l ≡ₚ l /\
    StronglySorted (fun a b => ge_nan_last (key a) (key b) = true) (sort_values A key l).

(** ** Tab 4: a row of the frame with the added [diff] column *)

(** A row of [diff_df]: its label in the loaded table, the row, and the
    added [diff] column, a float (NaN is [None]). *)
Record diff_row := {
  dr_label : nat;
  dr_row : PopulationRecord;
  dr_diff : option Q
}.

Section Views.

(** [sort_values(ascending=False)] on one key, pandas' default quicksort:
    which of two rows with equal keys comes first is numpy's choice and
    differs between versions and processors, so the sort is a parameter of
    the views; [sorts_desc] says what every such sort delivers. *)
Variable sort_values : forall A : Type, (A -> option Q) -> list A -> list A.

Definition sort_values_desc (s : series (option Q)) : series (option Q) :=
  sort_values _ snd s.

Definition delta_view (df : PopulationTable) : result (series (option Q)) :=
  let last := year_max df in
  let base := (fun y => y - 4) <$> year_max df in
  dropped ← series_drop national
              (series_sub (population_by_region last df)
                          (population_by_region base df));
  Ok (sort_values_desc dropped).

(** [frame.nlargest(n, "diff")].  When the frame has no more than [n] rows
    it is sorted by falling diff and cut; otherwise the [n] largest are
    picked by a stable sort.  Either way the rows without a diff come after
    the others, and fill the view up when fewer than [n] rows have one. *)
Definition nlargest (n : nat) (rows : list diff_row) : list diff_row :=
  if bool_decide (length rows <= n)%nat
  then take n (sort_values _ dr_diff rows)
  else take n (stable_sort_values _ dr_diff rows).

End Views.

(** The bar labels, [[REGION_KR2EN[k] for k in delta.index]]. *)
Fixpoint bar_labels (index : list string) : result (list string) :=
  match index with
  | [] => Ok []
  | k :: rest =>
      match REGION_KR2EN !! k with
      | Some en => ens ← bar_labels rest; Ok (en :: ens)
      | None => Raise (KeyError [k])
      end
  end.

(** [delta.head(3).index] and [delta.tail(3).index] *)
Definition top3_rising (delta : series (option Q)) : list string := (head_n 3 delta).*1.
Definition top3_declining (delta : series (option Q)) : list string := (tail_n 3 delta).*1.

(** The data model's key: at most one row per region and year. *)
Definition unique_keys (df : PopulationTable) : Prop :=
  NoDup ((fun r => (region r, year r)) <$> df).

(** [population_at df g y p]: the table has a row of region [g] and year [y]
    with population [p]. *)
Definition population_at (df : PopulationTable) (g : string) (y p : Z) : Prop :=
  exists r, r ∈ df /\ region r = g /\ year r = y /\ population r = p.

(** ** Tab 4: the hundred largest year-over-year changes *)

(** [enumerate]: the rows with their labels 0, 1, 2, ... *)
Definition labelled (df : PopulationTable) : list (nat * PopulationRecord) :=
  imap (fun i r => (i, r)) df.

(** The order of [sort_values(["지역", "연도"])]; a sort on two keys is
    stable in pandas. *)
Definition region_year_le (a b : nat * PopulationRecord) : bool :=
  match String.compare (region a.2) (region b.2) with
  | Lt => true
  | Eq => bool_decide (year a.2 <= year b.2)
  | Gt => false
  end.

(** [d.groupby("지역")["인구"].diff()] attached by [assign]: going down the
    frame, each row gets its population minus that of the previous row of
    the same region, in floats, and NaN when its region has not been seen
    yet. *)
Fixpoint assign_diff (prev : gmap string Z) (rows : list (nat * PopulationRecord))
  : list diff_row :=
  match rows with
  | [] => []
  | (i, r) :: rest =>
      {| dr_label := i; dr_row := r;
         dr_diff := sub_float64 (population r) <$> prev !! region r |}
      :: assign_diff (<[region r := population r]> prev) rest
  end.

Definition diff_df (df : PopulationTable) : list diff_row :=
  filter (fun d => region (dr_row d) <> national)
         (assign_diff ∅ (sort_by region_year_le (labelled df))).

Definition top100 (sort_values : forall A : Type, (A -> option Q) -> list A -> list A)
    (df : PopulationTable) : list diff_row :=
  nlargest sort_values 100 (diff_df df).

(** The rows of one region in the order of the sorted frame. *)
Definition chronological (df : PopulationTable) (g : string)
  : list (nat * PopulationRecord) :=
  filter (fun x => region x.2 = g) (sort_by region_year_le (labelled df)).

(** The rows of [diff_df] that have a diff. *)
Definition candidates (df : PopulationTable) : list diff_row :=
  filter (fun d => is_Some (dr_diff d)) (diff_df df).

(** The diffs along the rows of one region, [p] being the population of the
    row before them. *)
Fixpoint group_diffs (p : option Z) (grp : list (nat * PopulationRecord))
  : list diff_row :=
  match grp with
  | [] => []
  | (i, r) :: rest =>
      {| dr_label := i; dr_row := r; dr_diff := sub_float64 (population r) <$> p |}
      :: group_diffs (Some (population r)) rest
  end.

(** Larger diff first, NaN last. *)
Definition diff_desc (a b : diff_row) : Prop :=
  ge_nan_last (dr_diff a) (dr_diff b) = true.

(** [top100["diff"].abs().max()]: the rows without a diff are skipped; NaN
    when no row has one. *)
Definition diff_abs_max (rows : list diff_row) : option Q :=
  match omap dr_diff rows with
  | [] => None
  | d :: ds => Some (foldr Qmax (Qabs d) (Qabs <$> ds))
  end.

(** [vmin] and [vmax] of the colour gradient. *)
Definition gradient_range (rows : list diff_row) : option (Q * Q) :=
  (fun m => (Qopp m, m)) <$> diff_abs_max rows.

(** ** Tab 5: the pivoted tables *)

(** A pivoted frame: the column labels and, per index label, the cells of
    its row (NaN is [None]). *)
Record pivot (I C V : Type) := {
  pv_columns : list C;
  pv_rows : list (I * list (option V))
}.
Arguments pv_columns {I C V} p.
Arguments pv_rows {I C V} p.

Definition pv_index {I C V} (p : pivot I C V) : list I := (pv_rows p).*1.

Section PivotTable.
Context {I C V : Type} `{EqDecision I, EqDecision C}.
Variables (le_index : I -> I -> bool) (le_columns : C -> C -> bool).
Variables (index : PopulationRecord -> option I) (columns : PopulationRecord -> option C).
Variable aggfunc : list Z -> V.

(** The rows that take part: both keys present. *)
Definition keyed (df : PopulationTable) : list (I * C * Z) :=
  omap (fun r =>
          match index r, columns r with
          | Some i, Some c => Some (i, c, population r)
          | _, _ => None
          end) df.

(** The populations that fall in one cell. *)
Definition cell_values (ks : list (I * C * Z)) (i : I) (c : C) : list Z :=
  (filter (fun k => k.1.1 = i /\ k.1.2 = c) ks).*2.

Definition aggregate (vs : list Z) : option V :=
  match vs with
  | [] => None
  | _ => Some (aggfunc vs)
  end.

(** [df.pivot_table(index=, columns=, values="인구", aggfunc=)]: the labels
    are the distinct keys in sorted order. *)
Definition pivot_table (df : PopulationTable) : pivot I C V :=
  let ks := keyed df in
  let cols := sort_by le_columns (remove_dups (ks.*1.*2)) in
  let idx := sort_by le_index (remove_dups (ks.*1.*1)) in
  {| pv_columns := cols;
     pv_rows := (fun i => (i, (fun c => aggregate (cell_values ks i c)) <$> cols)) <$> idx |}.
End PivotTable.

(** The sum that the grouped mean takes: the values as floats, added with
    Kahan's compensation. *)
Definition kahan_step (acc : Q * Q) (x : Q) : Q * Q :=
  let y := f64_sub x acc.2 in
  let t := f64_add acc.1 y in
  (t, f64_sub (f64_sub t acc.1) y).

Definition kahan_sum (xs : list Q) : Q := (fold_left kahan_step xs (0%Q, 0%Q)).1.

(** The default [aggfunc], the float mean of a group, and ["sum"], the
    [int64] sum. *)
Definition aggfunc_mean (vs : list Z) : Q :=
  f64_div (kahan_sum (f64_of_int <$> vs)) (f64_of_int (Z.of_nat (length vs))).

Definition aggfunc_sum (vs : list Z) : Z := wrap64 (sum_Z vs).

Definition Z_leb (a b : Z) : bool := bool_decide (a <= b).

(** [df.pivot_table(index="region_en", columns="연도", values="인구")
      .loc[lambda d: d.index != "National"]] *)
Definition heatmap_pivot (df : PopulationTable) : pivot string Z Q :=
  let p := pivot_table String.leb Z_leb region_en (fun r => Some (year r)) aggfunc_mean df in
  {| pv_columns := pv_columns p;
     pv_rows := filter (fun row => row.1 <> "National") (pv_rows p) |}.

(** What unstacking makes of the [int64] sums: they stay integers when the
    table has a value in every cell, and all become floats when a cell is
    NaN. *)
Definition unstacked_value {I C} (p : pivot I C Z) : Z -> Q :=
  if bool_decide (Forall (fun row => Forall is_Some row.2) (pv_rows p))
  then inject_Z else f64_of_int.

Definition unstacked {I C} (p : pivot I C Z) : pivot I C Q :=
  {| pv_columns := pv_columns p;
     pv_rows := (fun row : I * list (option Z) =>
                   (row.1, fmap (M := option) (unstacked_value p) <$> row.2))
                <$> pv_rows p |}.

(** [df[df["지역"] != "전국"].pivot_table(index="연도", columns="region_en",
      values="인구", aggfunc="sum")]: the grouped sums, then unstacked. *)
Definition area_sums (df : PopulationTable) : pivot Z string Z :=
  pivot_table Z_leb String.leb (fun r => Some (year r)) region_en aggfunc_sum
              (filter (fun r => region r <> national) df).

Definition nat_area (df : PopulationTable) : pivot Z string Q :=
  unstacked (area_sums df).

(** ** Statement vocabulary and example data *)

(** A cell that holds an integer, and one that holds an [int64]. *)
Definition is_int (v : value) : Prop := exists z, v = VInt z.
Definition is_int64 (v : value) : Prop := exists z, v = VInt z /\ fits_int64 z.

(** Whether row [i] is selected by the Sejong mask. *)
Definition in_mask (region : column) (i : nat) : bool :=
  default false ((eq_str sejong <$> region) !! i).

(** The arithmetic in which [a - b] subtracts: that of [int64] when both
    indexes hold the same labels, that of floats otherwise. *)
Definition series_sub_value (a b : series Z) : Z -> Z -> Q :=
  if bool_decide (a.*1 = b.*1) then sub_int64
  else if same_labels a b then sub_int64 else sub_float64.

(** The delta that the view computes from the populations [p1] of the last
    year and [p0] of the base year. *)
Definition delta_value (df : PopulationTable) (last p1 p0 : Z) : Q :=
  series_sub_value (population_by_region (Some last) df)
                   (population_by_region (Some (last - 4)) df) p1 p0.

(** The table has a row of region [g] and year [y]. *)
Definition has_row (df : PopulationTable) (g : string) (y : Z) : Prop :=
  exists r, r ∈ df /\ region r = g /\ year r = y.

(** The display name of every row is the one the dict gives its region. *)
Definition region_en_mapped (df : PopulationTable) : Prop :=
  forall r, r ∈ df -> region_en r = REGION_KR2EN !! region r.

(** An upload with placeholders, a missing cell and a negative count; the
    frame that the reader makes of it, and the loaded table. *)
Definition example_csv : string :=
  unlines [ "지역,연도,인구,출생아수(명),사망자수(명)";
            "전국,2020,-,-,-";
            "세종,2020,-,3,";
            "서울,2020,9668465,47445,-5" ].

Definition example_frame : frame :=
  list_to_map
    [ (col_region, [VStr "전국"; VStr "세종"; VStr "서울"]);
      (col_year, [VInt 2020; VInt 2020; VInt 2020]);
      (col_population, [VStr "-"; VStr "-"; VStr "9668465"]);
      (col_births, [VStr "-"; VStr "3"; VStr "47445"]);
      (col_deaths, [VStr "-"; VNaN; VStr "-5"]) ].

Definition example_loaded : frame :=
  list_to_map
    [ (col_region, [VStr "전국"; VStr "세종"; VStr "서울"]);
      (col_year, [VInt 2020; VInt 2020; VInt 2020]);
      (col_population, [VInt 0; VInt 0; VInt 9668465]);
      (col_births, [VInt 0; VInt 3; VInt 47445]);
      (col_deaths, [VInt 0; VInt 0; VInt (-5)]);
      (col_region_en, [VStr "National"; VStr "Sejong"; VStr "Seoul"]) ].



(** An upload without the year column, and its loaded table. *)
Definition no_year_csv : string :=
  unlines [ "지역,인구,출생아수(명),사망자수(명)";
            "서울,9668465,47445,45522" ].

Definition no_year_loaded : frame :=
  list_to_map
    [ (col_region, [VStr "서울"]);
      (col_population, [VInt 9668465]);
      (col_births, [VInt 47445]);
      (col_deaths, [VInt 45522]);
      (col_region_en, [VStr "Seoul"]) ].

(** An upload with an infinite population, and the frame read from it. *)
Definition infinite_csv : string :=
  unlines [ "지역,연도,인구,출생아수(명),사망자수(명)";
            "서울,2020,inf,47445,45522" ].

Definition infinite_frame : frame :=
  list_to_map
    [ (col_region, [VStr "서울"]);
      (col_year, [VInt 2020]);
      (col_population, [VStr "inf"]);
      (col_births, [VInt 47445]);
      (col_deaths, [VInt 45522]) ].



(** A loaded row of a region. *)
Definition mk_row (r : string) (y p b d : Z) : PopulationRecord :=
  {| region := r; year := y; population := p; births := b; deaths := d;
     region_en := REGION_KR2EN !! r |}.

(** Three national records: populations 100, 105, 108 and births minus
    deaths 5, 4, 3. *)
Definition example_national : PopulationTable :=
  [ mk_row national 2020 100 15 10; mk_row national 2021 105 14 10;
    mk_row national 2022 108 13 10 ].

Definition seoul : string := "서울".
Definition busan : string := "부산".

(** Two regions over five years, without and with the national rows. *)
Definition example_regions_only : PopulationTable :=
  [ mk_row seoul 2018 50 0 0; mk_row seoul 2022 80 0 0;
    mk_row busan 2018 90 0 0; mk_row busan 2022 70 0 0 ].

Definition example_regions : PopulationTable :=
  example_regions_only ++ [ mk_row national 2018 140 0 0; mk_row national 2022 150 0 0 ].

(** The rows of [example_loaded]. *)
Definition example_rows : PopulationTable :=
  [ mk_row national 2020 0 0 0; mk_row sejong 2020 0 3 0;
    mk_row seoul 2020 9668465 47445 (-5) ].

(** A national table with a single record. *)
Definition example_short : PopulationTable := [ mk_row national 2022 108 13 20 ].

(** A table without any national row. *)
Definition example_busan_only : PopulationTable :=
  [ mk_row busan 2018 90 0 0; mk_row busan 2022 70 0 0 ].

(** ** Vocabulary and example data of the further properties *)

(** Labels in ascending order, none of them twice. *)
Definition labels_ascending {A} (le : A -> A -> bool) (l : list A) : Prop :=
  NoDup l /\ StronglySorted (fun a b => le a b = true) l.

(** A parser that takes the dash for a number. *)
Definition dash_as_seven (s : string) : option num :=
  if bool_decide (s = dash) then Some (NInt 7) else number_literal s.

(** [example_csv] loaded with that parser: the placeholders of the national
    row are numbers to it, those of Sejong have been rewritten before. *)
Definition example_loaded_seven : frame :=
  list_to_map
    [ (col_region, [VStr "전국"; VStr "세종"; VStr "서울"]);
      (col_year, [VInt 2020; VInt 2020; VInt 2020]);
      (col_population, [VInt 7; VInt 0; VInt 9668465]);
      (col_births, [VInt 7; VInt 3; VInt 47445]);
      (col_deaths, [VInt 7; VInt 0; VInt (-5)]);
      (col_region_en, [VStr "National"; VStr "Sejong"; VStr "Seoul"]) ].

(** Three national records whose births minus deaths, 5, 4 and 4, have no
    whole mean; the same records of [example_national] in another order. *)
Definition example_uneven : PopulationTable :=
  [ mk_row national 2020 100 15 10; mk_row national 2021 105 14 10;
    mk_row national 2022 108 14 10 ].

Definition example_national_shuffled : PopulationTable :=
  [ mk_row national 2021 105 14 10; mk_row national 2020 100 15 10;
    mk_row national 2022 108 13 10 ].

(** [example_regions] with a region that has no row in the base year. *)
Definition example_new_region : PopulationTable :=
  example_regions ++ [ mk_row sejong 2022 30 0 0 ].

(** An upload in which the year 2021 has a national row only; its loaded
    frame and table. *)
Definition national_only_csv : string :=
  unlines [ "지역,연도,인구,출생아수(명),사망자수(명)";
            "전국,2021,100,5,3";
            "서울,2020,60,2,1" ].

Definition national_only_loaded : frame :=
  list_to_map
    [ (col_region, [VStr "전국"; VStr "서울"]);
      (col_year, [VInt 2021; VInt 2020]);
      (col_population, [VInt 100; VInt 60]);
      (col_births, [VInt 5; VInt 2]);
      (col_deaths, [VInt 3; VInt 1]);
      (col_region_en, [VStr "National"; VStr "Seoul"]) ].

Definition national_only_rows : PopulationTable :=
  [ mk_row national 2021 100 5 3; mk_row seoul 2020 60 2 1 ].

(** An upload with two rows for Seoul in 2020, the frame loaded from it and
    its rows. *)
Definition duplicates_csv : string :=
  unlines [ "지역,연도,인구,출생아수(명),사망자수(명)";
            "전국,2020,100,0,0";
            "서울,2020,10,0,0";
            "서울,2020,20,0,0";
            "부산,2021,5,0,0" ].

Definition duplicates_loaded : frame :=
  list_to_map
    [ (col_region, [VStr "전국"; VStr "서울"; VStr "서울"; VStr "부산"]);
      (col_year, [VInt 2020; VInt 2020; VInt 2020; VInt 2021]);
      (col_population, [VInt 100; VInt 10; VInt 20; VInt 5]);
      (col_births, [VInt 0; VInt 0; VInt 0; VInt 0]);
      (col_deaths, [VInt 0; VInt 0; VInt 0; VInt 0]);
      (col_region_en, [VStr "National"; VStr "Seoul"; VStr "Seoul"; VStr "Busan"]) ].

Definition duplicates_rows : PopulationTable :=
  [ mk_row national 2020 100 0 0; mk_row seoul 2020 10 0 0;
    mk_row seoul 2020 20 0 0; mk_row busan 2021 5 0 0 ].

(** * Properties *)

(** * Properties *)

(** ** Machine numbers *)

Lemma wrap64_fits z : fits_int64 (wrap64 z).
Proof.
  unfold fits_int64, wrap64.
  pose proof (Z.mod_pos_bound (z + 2 ^ 63) (2 ^ 64) ltac:(lia)). lia.
Qed.

Lemma wrap64_id z : fits_int64 z -> wrap64 z = z.
Proof.
  unfold fits_int64, wrap64. intros H.
  rewrite Z.mod_small by lia. lia.
Qed.

Lemma wrap64_congruent z : exists k, wrap64 z = z + k * 2 ^ 64.
Proof.
  unfold wrap64. exists (- ((z + 2 ^ 63) / 2 ^ 64)).
  pose proof (Z.div_mod (z + 2 ^ 63) (2 ^ 64) ltac:(lia)). lia.
Qed.

Lemma pow2_pos e : 0 < pow2 e.
Proof. unfold pow2. apply Z.pow_pos_nonneg; lia. Qed.

Lemma pow2_nonneg e : 0 <= e -> pow2 e = 2 ^ e.
Proof. intros H. unfold pow2. by rewrite Z.max_r. Qed.

Lemma pow2_nonpos e : e <= 0 -> pow2 e = 1.
Proof. intros H. unfold pow2. by rewrite Z.max_l. Qed.

(** The rounded quotient is a nearest integer. *)
Lemma round_half_even_spec n d :
  0 < d ->
  let m := round_half_even n d in
  n / d <= m <= n / d + 1 /\ - d <= 2 * (m * d - n) <= d.
Proof.
  intros Hd m. subst m. unfold round_half_even.
  pose proof (Z.div_mod n d ltac:(lia)) as Hdm.
  pose proof (Z.mod_pos_bound n d Hd) as Hr.
  destruct (2 * (n mod d) <? d) eqn:E1; [apply Z.ltb_lt in E1; nia|].
  apply Z.ltb_ge in E1.
  destruct (d <? 2 * (n mod d)) eqn:E2; [apply Z.ltb_lt in E2; nia|].
  apply Z.ltb_ge in E2.
  destruct (Z.even (n / d)); nia.
Qed.

Lemma round_half_even_exact k d : 0 < d -> round_half_even (k * d) d = k.
Proof.
  intros Hd. unfold round_half_even.
  rewrite Z.div_mul, Z.mod_mul by lia.
  destruct (2 * 0 <? d) eqn:E; [done|]. apply Z.ltb_ge in E. lia.
Qed.

(** The exponent normalises: the scaled magnitude is at least 2^52, and
    below 2^53 unless the exponent was raised to the least one. *)
Lemma log2_bounds a : 0 < a -> 2 ^ Z.log2 a <= a < 2 * 2 ^ Z.log2 a.
Proof.
  intros H. pose proof (Z.log2_spec a H) as [H1 H2].
  rewrite Z.pow_succ_r in H2 by apply Z.log2_nonneg. lia.
Qed.

Lemma f64_exponent_spec n d :
  n <> 0 -> 0 < d ->
  let e := f64_exponent n d in
  - 1074 <= e /\
  Z.abs n * pow2 (- e) < 2 ^ 53 * d * pow2 e /\
  (e = - 1074 \/ 2 ^ 52 * d * pow2 e <= Z.abs n * pow2 (- e)).
Proof.
  intros Hn Hd. unfold f64_exponent.
  set (a := Z.abs n). assert (0 < a) as Ha by (subst a; lia).
  set (e0 := Z.log2 a - Z.log2 d - 53).
  pose proof (log2_bounds a Ha) as HA. pose proof (log2_bounds d Hd) as HD.
  pose proof (Z.log2_nonneg a) as Hla. pose proof (Z.log2_nonneg d) as Hld.
  set (L := 2 ^ Z.log2 a) in *. set (X := 2 ^ Z.log2 d) in *.
  assert (0 < L) as HL by (subst L; apply Z.pow_pos_nonneg; lia).
  assert (0 < X) as HX by (subst X; apply Z.pow_pos_nonneg; lia).
  (* the unclamped exponent *)
  set (eu := if 2 ^ 53 * d * pow2 e0 <=? a * pow2 (- e0) then e0 + 1 else e0).
  assert (a * pow2 (- eu) < 2 ^ 53 * d * pow2 eu /\
          2 ^ 52 * d * pow2 eu <= a * pow2 (- eu)) as [Hup Hlo].
  { destruct (Z.le_gt_cases 0 e0) as [He0|He0].
    - (* e0 >= 0 *)
      assert (L = X * 2 ^ 53 * 2 ^ e0) as HLX.
      { subst L X. rewrite <- !Z.pow_add_r by lia. f_equal. subst e0. lia. }
      set (E := 2 ^ e0) in *.
      assert (0 < E) as HE by (subst E; apply Z.pow_pos_nonneg; lia).
      subst eu. rewrite (pow2_nonneg e0), (pow2_nonpos (- e0)) by lia. fold E.
      destruct (2 ^ 53 * d * E <=? a * 1) eqn:C.
      + apply Z.leb_le in C.
        rewrite (pow2_nonneg (e0 + 1)), (pow2_nonpos (- (e0 + 1))) by lia.
        rewrite Z.pow_add_r by lia. fold E. nia.
      + apply Z.leb_gt in C. rewrite (pow2_nonneg e0), (pow2_nonpos (- e0)) by lia.
        fold E. nia.
    - (* e0 < 0 *)
      assert (X * 2 ^ 53 = L * 2 ^ (- e0)) as HLX.
      { subst L X. rewrite <- !Z.pow_add_r by lia. f_equal. subst e0. lia. }
      set (F := 2 ^ (- e0)) in *.
      assert (0 < F) as HF by (subst F; apply Z.pow_pos_nonneg; lia).
      subst eu. rewrite (pow2_nonpos e0), (pow2_nonneg (- e0)) by lia. fold F.
      destruct (2 ^ 53 * d * 1 <=? a * F) eqn:C.
      + apply Z.leb_le in C.
        rewrite (pow2_nonpos (e0 + 1)), (pow2_nonneg (- (e0 + 1))) by lia.
        assert (F = 2 * 2 ^ (- (e0 + 1))) as HF2.
        { subst F. rewrite <- Z.pow_succ_r by lia. f_equal. lia. }
        set (G := 2 ^ (- (e0 + 1))) in *. nia.
      + apply Z.leb_gt in C. rewrite (pow2_nonpos e0), (pow2_nonneg (- e0)) by lia.
        fold F. nia. }
  fold a e0 eu. split; [lia|].
  destruct (Z.le_gt_cases (- 1074) eu) as [Hc|Hc].
  - rewrite Z.max_l by lia. split; [done|]. by right.
  - rewrite Z.max_r by lia. split; [|by left].
    (* raising the exponent only lowers the scaled magnitude *)
    rewrite (pow2_nonpos (- 1074)), (pow2_nonneg (- - 1074)) by lia.
    rewrite (pow2_nonpos eu), (pow2_nonneg (- eu)) in Hup by lia.
    assert (2 ^ (- eu) = 2 ^ (- - 1074) * 2 ^ (- eu - 1074)) as Hsplit.
    { rewrite <- Z.pow_add_r by lia. f_equal. lia. }
    assert (0 < 2 ^ (- eu - 1074)) by (apply Z.pow_pos_nonneg; lia).
    assert (0 < 2 ^ (- - 1074)) by (apply Z.pow_pos_nonneg; lia).
    nia.
Qed.

Lemma f64_exponent_small n d :
  n <> 0 -> 0 < d -> Z.abs n < 2 ^ 53 * d -> f64_exponent n d <= 0.
Proof.
  intros Hn Hd Hlt. destruct (f64_exponent_spec n d Hn Hd) as (_ & _ & [He|Hlo]); [lia|].
  destruct (Z.le_gt_cases (f64_exponent n d) 0) as [|Hpos]; [done|].
  rewrite (pow2_nonneg (f64_exponent n d)), (pow2_nonpos (- f64_exponent n d)) in Hlo by lia.
  assert (2 <= 2 ^ f64_exponent n d).
  { change 2 with (2 ^ 1) at 1. apply Z.pow_le_mono_r; lia. }
  nia.
Qed.

Lemma Qred_inject_Z z : Qred (inject_Z z) = inject_Z z.
Proof.
  unfold Qred, inject_Z.
  pose proof (Z.ggcd_gcd z 1) as Hg. pose proof (Z.ggcd_correct_divisors z 1) as Hd.
  destruct (Z.ggcd z 1) as (g & aa & bb). simpl in *.
  rewrite Z.gcd_1_r in Hg. subst g. destruct Hd as [-> Hb].
  assert (bb = 1) as -> by lia. f_equal. lia.
Qed.

Lemma Qtrunc_comp x y : (x == y)%Q -> Qtrunc x = Qtrunc y.
Proof.
  intros H. unfold Qtrunc, Qeq in *. destruct x as [a b], y as [c d]. simpl in *.
  destruct (Z.le_gt_cases 0 a) as [Ha|Ha].
  - assert (0 <= c) by nia.
    rewrite !Z.quot_div_nonneg by lia.
    apply (Qfloor_comp (a # b) (c # d)). exact H.
  - assert (c < 0) by nia.
    replace a with (- - a) by lia. replace c with (- - c) by lia.
    rewrite (Z.quot_opp_l (- a)), (Z.quot_opp_l (- c)) by lia.
    rewrite !Z.quot_div_nonneg by lia. f_equal.
    apply (Qfloor_comp (- a # b) (- c # d)). unfold Qeq. simpl. lia.
Qed.

Lemma Qtrunc_Qred x : Qtrunc (Qred x) = Qtrunc x.
Proof. apply Qtrunc_comp, Qred_correct. Qed.

Lemma Qtrunc_inject_Z z : Qtrunc (inject_Z z) = z.
Proof. unfold Qtrunc. simpl. apply Z.quot_1_r. Qed.

(** Integers below 2^53 in magnitude are floats. *)
Lemma round_f64_int z : Z.abs z < 2 ^ 53 -> round_f64 (inject_Z z) = inject_Z z.
Proof.
  intros Hz. unfold round_f64. cbn [Qnum Qden inject_Z].
  destruct (z =? 0) eqn:E; [apply Z.eqb_eq in E; by subst|].
  apply Z.eqb_neq in E.
  pose proof (f64_exponent_small z 1 E ltac:(lia) ltac:(lia)) as He.
  set (e := f64_exponent z 1) in *.
  rewrite (pow2_nonpos e) by lia. rewrite (pow2_nonneg (- e)) by lia.
  rewrite Z.mul_1_l, Z.mul_1_r.
  replace (round_half_even (z * 2 ^ (- e)) 1) with (z * 2 ^ (- e)).
  2:{ rewrite <- (round_half_even_exact (z * 2 ^ (- e)) 1) at 1 by lia. by rewrite Z.mul_1_r. }
  rewrite <- Qred_inject_Z. apply Qred_complete.
  unfold Qeq. cbn [Qnum Qden inject_Z].
  rewrite Z2Pos.id by (apply Z.pow_pos_nonneg; lia). lia.
Qed.

Lemma f64_of_int_exact z : Z.abs z < 2 ^ 53 -> f64_of_int z = inject_Z z.
Proof. apply round_f64_int. Qed.

Lemma Qplus_inject_Z a b : (inject_Z a + inject_Z b)%Q = inject_Z (a + b).
Proof. unfold Qplus, inject_Z. cbn [Qnum Qden]. f_equal. lia. Qed.

Lemma Qminus_inject_Z a b : (inject_Z a - inject_Z b)%Q = inject_Z (a - b).
Proof. unfold Qminus, Qplus, Qopp, inject_Z. cbn [Qnum Qden]. f_equal. lia. Qed.

Lemma f64_add_int a b :
  Z.abs (a + b) < 2 ^ 53 -> f64_add (inject_Z a) (inject_Z b) = inject_Z (a + b).
Proof. intros H. unfold f64_add. rewrite Qplus_inject_Z. by apply round_f64_int. Qed.

Lemma f64_sub_int a b :
  Z.abs (a - b) < 2 ^ 53 -> f64_sub (inject_Z a) (inject_Z b) = inject_Z (a - b).
Proof. intros H. unfold f64_sub. rewrite Qminus_inject_Z. by apply round_f64_int. Qed.

Lemma quot_between_nonneg a b k :
  0 < b -> 0 <= k -> k * b <= a < (k + 1) * b -> Z.quot a b = k.
Proof.
  intros Hb Hk H. rewrite Z.quot_div_nonneg by nia.
  symmetry. apply (Z.div_unique a b k (a - k * b)); lia.
Qed.

Lemma quot_between_nonpos a b k :
  0 < b -> 0 <= k -> - ((k + 1) * b) < a <= - (k * b) -> Z.quot a b = - k.
Proof.
  intros Hb Hk H. replace a with (- - a) by lia.
  rewrite Z.quot_opp_l by lia. f_equal. apply quot_between_nonneg; lia.
Qed.

(** Truncating the rounded quotient of an integer below 2^53 by a count
    gives the truncated quotient: rounding never reaches the next integer. *)
Lemma round_f64_quot t p :
  Z.abs t < 2 ^ 53 -> Z.pos p < 2 ^ 53 ->
  Qtrunc (round_f64 (t # p)) = Z.quot t (Z.pos p).
Proof.
  intros Ht Hp. unfold round_f64. cbn [Qnum Qden].
  destruct (t =? 0) eqn:E.
  { apply Z.eqb_eq in E. subst. by rewrite Z.quot_0_l. }
  apply Z.eqb_neq in E. set (n := Z.pos p) in *. assert (0 < n) as Hn by (subst n; lia).
  pose proof (f64_exponent_small t n E Hn ltac:(nia)) as He.
  destruct (f64_exponent_spec t n E Hn) as (Hmin & _ & Hlo).
  set (e := f64_exponent t n) in *.
  rewrite (pow2_nonpos e) in * by lia. rewrite (pow2_nonneg (- e)) in * by lia.
  set (S := 2 ^ (- e)) in *.
  assert (0 < S) as HS by (subst S; apply Z.pow_pos_nonneg; lia).
  assert (n < 2 * S) as HnS.
  { destruct Hlo as [->|Hlo]; [|nia].
    subst S. change (- - 1074) with 1074.
    assert (2 ^ 53 < 2 ^ 1074) by (apply Z.pow_lt_mono_r; lia). lia. }
  rewrite !Z.mul_1_r. rewrite Qtrunc_Qred. unfold Qtrunc. cbn [Qnum Qden].
  rewrite Z2Pos.id by done.
  destruct (round_half_even_spec (t * S) n Hn) as [_ Hm].
  set (m := round_half_even (t * S) n) in *.
  destruct (Z.le_gt_cases 0 t) as [Hpos|Hneg].
  - rewrite (Z.quot_div_nonneg t n) by lia.
    pose proof (Z.div_mod t n ltac:(lia)) as Hdm.
    pose proof (Z.mod_pos_bound t n Hn) as Hr.
    pose proof (Z.div_pos t n Hpos Hn) as Hk.
    set (k := t / n) in *.
    apply quot_between_nonneg; [done|done|]. nia.
  - assert (Z.quot t n = - (- t / n)) as ->.
    { rewrite <- (Z.quot_div_nonneg (- t) n) by lia.
      rewrite <- Z.quot_opp_l by lia. f_equal. lia. }
    pose proof (Z.div_mod (- t) n ltac:(lia)) as Hdm.
    pose proof (Z.mod_pos_bound (- t) n Hn) as Hr.
    pose proof (Z.div_pos (- t) n ltac:(lia) Hn) as Hk.
    set (k := - t / n) in *.
    apply quot_between_nonpos; [done|done|]. nia.
Qed.

(** ** The error monad and column access *)

Lemma result_bind_Ok {A B} (m : result A) (f : A -> result B) b :
  m ≫= f = Ok b <-> exists a, m = Ok a /\ f a = Ok b.
Proof.
  destruct m as [a|e]; simpl; split.
  - intros H. exists a. done.
  - intros (a' & [= <-] & H). done.
  - done.
  - intros (a' & [=] & _).
Qed.

Lemma result_bind_Raise {A B} (m : result A) (f : A -> result B) e :
  m ≫= f = Raise e <-> m = Raise e \/ exists a, m = Ok a /\ f a = Raise e.
Proof.
  destruct m as [a|e']; simpl; split.
  - intros H. right. exists a. done.
  - intros [[=] | (a' & [= <-] & H)]. done.
  - intros [= ->]. by left.
  - intros [[= ->] | (a' & [=] & _)]. done.
Qed.

Lemma getitems_present df cols :
  Forall (fun c => is_Some (df !! c)) cols ->
  getitems df cols = Ok ((fun c => (c, default [] (df !! c))) <$> cols).
Proof.
  intros H. unfold getitems, missing_labels.
  replace (filter (λ c : string, df !! c = None) cols) with (@nil string); [done|].
  symmetry. induction H as [|c cols [col Hc] _ IH]; [done|].
  rewrite filter_cons_False; [done|]. rewrite Hc. done.
Qed.

Lemma getitems_missing df cols c :
  c ∈ cols -> df !! c = None -> exists ms, getitems df cols = Raise (KeyError ms) /\ c ∈ ms.
Proof.
  intros Hin Hc. unfold getitems, missing_labels.
  assert (c ∈ filter (λ c : string, df !! c = None) cols) as Hm.
  { apply list_elem_of_filter. done. }
  destruct (filter _ cols) as [|m ms] eqn:E.
  - by apply elem_of_nil in Hm.
  - eexists. split; [done|]. done.
Qed.

Lemma getitems_Raise df cols e :
  getitems df cols = Raise e -> exists c, c ∈ cols /\ df !! c = None.
Proof.
  unfold getitems, missing_labels. intros H.
  destruct (filter _ cols) as [|m ms] eqn:E; [done|].
  assert (m ∈ filter (λ c : string, df !! c = None) cols) as Hm.
  { rewrite E. left. }
  apply list_elem_of_filter in Hm as [? ?]. eauto.
Qed.

Lemma col_names_distinct :
  col_population <> col_births /\ col_population <> col_deaths /\ col_births <> col_deaths /\
  col_region <> col_population /\ col_region <> col_births /\ col_region <> col_deaths /\
  col_region_en <> col_population /\ col_region_en <> col_births /\ col_region_en <> col_deaths /\
  col_region_en <> col_region /\ col_year <> col_population /\ col_year <> col_births /\
  col_year <> col_deaths /\ col_year <> col_region /\ col_year <> col_region_en.
Proof. repeat split; discriminate. Qed.

(** ** The loader on a frame *)

Section LoadFrame.
Variable str_to_num : string -> option num.
Variable kr2en : gmap string string.

Lemma load_eq df region p b d :
  df !! col_region = Some region -> df !! col_population = Some p ->
  df !! col_births = Some b -> df !! col_deaths = Some d ->
  load_frame str_to_num kr2en df =
    p' ← coerce_col str_to_num region p; b' ← coerce_col str_to_num region b;
    d' ← coerce_col str_to_num region d;
    Ok (loaded_frame kr2en df region p b d p' b' d').
Proof.
  intros Hr Hp Hb Hd.
  destruct col_names_distinct as (?&?&?&?&?&?&?&?&?&?&?&?&?&?&?).
  unfold load_frame, getitem. rewrite Hr. simpl.
  rewrite getitems_present.
  2:{ repeat constructor; eauto. }
  simpl. rewrite Hp, Hb, Hd. simpl.
  rewrite getitems_present.
  2:{ unfold num_cols. repeat constructor; simplify_map_eq; eauto. }
  unfold num_cols. simpl. simplify_map_eq. simpl.
  fold (coerce_col str_to_num region p) (coerce_col str_to_num region b)
       (coerce_col str_to_num region d).
  destruct (coerce_col str_to_num region p) as [p'|e]; [simpl|done].
  destruct (coerce_col str_to_num region b) as [b'|e]; [simpl|done].
  destruct (coerce_col str_to_num region d) as [d'|e]; [simpl|done].
  simplify_map_eq. done.
Qed.

Lemma astype_int_Forall2 col col' :
  astype_int col = Ok col' <-> Forall2 (fun v w => astype_int_cell v = Ok w) col col'.
Proof.
  revert col'. induction col as [|v col IH]; intros col'; simpl.
  - split; [intros [= <-]; constructor | by inversion 1].
  - split.
    + intros H. apply result_bind_Ok in H as (w & Hw & H).
      apply result_bind_Ok in H as (ws & Hws & [= <-]).
      constructor; [done|]. by apply IH.
    + inversion 1 as [|? w ? ws Hw Hws]; subst. rewrite Hw. simpl.
      apply IH in Hws. rewrite Hws. done.
Qed.

Lemma astype_int_Raise col e :
  astype_int col = Raise e ->
  exists i v, col !! i = Some v /\ astype_int_cell v = Raise e.
Proof.
  induction col as [|v col IH]; simpl; [done|].
  intros H. apply result_bind_Raise in H as [H | (w & Hw & H)].
  - exists 0%nat, v. done.
  - apply result_bind_Raise in H as [H | (ws & Hws & H)]; [|done].
    destruct (IH H) as (i & v' & Hi & Hv). exists (S i), v'. done.
Qed.

Lemma astype_int_is_Ok col :
  Forall (fun v => is_Ok (astype_int_cell v)) col -> is_Ok (astype_int col).
Proof.
  induction 1 as [|v col [w Hw] _ [ws IH]]; simpl.
  - by eexists.
  - rewrite Hw. simpl. rewrite IH. by eexists.
Qed.

Lemma prepared_lookup region col i :
  (fillna0 <$> to_numeric_col str_to_num (replace_where (eq_str sejong <$> region) col)) !! i
  = (fun v => fillna0 ((if float_col str_to_num region col then as_float else id)
                         (to_numeric str_to_num
                            (if in_mask region i then replace_dash v else v))))
      <$> col !! i.
Proof.
  unfold to_numeric_col. fold (float_col str_to_num region col).
  unfold replace_where, in_mask.
  destruct (float_col str_to_num region col);
    rewrite !list_lookup_fmap, list_lookup_imap;
    destruct (col !! i); simpl; rewrite ?list_lookup_fmap; done.
Qed.

Lemma coerce_col_lookup region col col' i v :
  coerce_col str_to_num region col = Ok col' -> col !! i = Some v ->
  exists w, col' !! i = Some w /\
            coerce_cell str_to_num (float_col str_to_num region col) (in_mask region i) v
            = Ok w.
Proof.
  unfold coerce_col. intros H Hv. apply astype_int_Forall2 in H.
  assert (Hl := prepared_lookup region col i). rewrite Hv in Hl. simpl in Hl.
  destruct (Forall2_lookup_l _ _ _ _ _ H Hl) as (w & Hw & Hc).
  exists w. done.
Qed.

Lemma coerce_col_Raise region col e :
  coerce_col str_to_num region col = Raise e ->
  exists i v, col !! i = Some v /\
              coerce_cell str_to_num (float_col str_to_num region col) (in_mask region i) v
              = Raise e.
Proof.
  unfold coerce_col. intros H. apply astype_int_Raise in H as (i & w & Hw & Hc).
  rewrite prepared_lookup in Hw. destruct (col !! i) as [v|] eqn:Hv; [|done].
  simpl in Hw. injection Hw as <-. exists i, v. done.
Qed.

Lemma coerce_col_is_Ok region col :
  (forall i v, col !! i = Some v ->
               is_Ok (coerce_cell str_to_num (float_col str_to_num region col)
                                  (in_mask region i) v)) ->
  is_Ok (coerce_col str_to_num region col).
Proof.
  intros H. apply astype_int_is_Ok. apply Forall_lookup. intros i w Hw.
  rewrite prepared_lookup in Hw. destruct (col !! i) as [v|] eqn:Hv; [|done].
  simpl in Hw. injection Hw as <-. by apply (H i v).
Qed.


Lemma replace_dash_cases v :
  (v = VStr dash /\ replace_dash v = VInt 0) \/ (v <> VStr dash /\ replace_dash v = v).
Proof.
  unfold replace_dash. destruct v as [n| |s]; simpl; try (right; done).
  case_bool_decide; [left | right]; split; congruence.
Qed.

Lemma int64_of_int_fits z : fits_int64 (int64_of_int z).
Proof.
  unfold int64_of_int. case_bool_decide; [done|].
  case_bool_decide; [apply wrap64_fits|]. unfold fits_int64. lia.
Qed.

Lemma int64_of_int_id z : fits_int64 z -> int64_of_int z = z.
Proof. intros H. unfold int64_of_int. by rewrite bool_decide_eq_true_2. Qed.

Lemma int64_of_float_fits q : fits_int64 (int64_of_float q).
Proof.
  unfold int64_of_float. case_bool_decide; [done|]. unfold fits_int64. lia.
Qed.


Lemma to_numeric_not_str v s : to_numeric str_to_num v <> VStr s.
Proof. destruct v as [n| |t]; simpl; [done|done|]. destruct (str_to_num t); done. Qed.

Lemma held_int_exact (f : bool) z :
  Z.abs z < 2 ^ 53 ->
  astype_int_cell (fillna0 ((if f then as_float else id) (VInt z))) = Ok (VInt z).
Proof.
  intros Hz. assert (fits_int64 z) as Hfit by (unfold fits_int64; lia).
  destruct f; simpl.
  - rewrite f64_of_int_exact by done. unfold int64_of_float.
    rewrite Qtrunc_inject_Z. by rewrite bool_decide_eq_true_2.
  - by rewrite int64_of_int_id.
Qed.



Lemma coerce_cell_finite f m v :
  ~ infinite str_to_num v -> is_Ok (coerce_cell str_to_num f m v).
Proof.
  unfold coerce_cell, infinite. intros H.
  assert (is_Ok (astype_int_cell
                   (fillna0 ((if f then as_float else id) (to_numeric str_to_num v))))) as Hv.
  { destruct (to_numeric str_to_num v) as [[z|q|b]| |s] eqn:E; destruct f; simpl;
      try (by eexists).
    - destruct H. by exists b.
    - destruct H. by exists b.
    - by apply to_numeric_not_str in E.
    - by apply to_numeric_not_str in E. }
  destruct m; [|done].
  destruct (replace_dash_cases v) as [[-> ->] | [_ ->]]; [|done].
  change (to_numeric str_to_num (VInt 0)) with (VInt 0).
  rewrite (held_int_exact f 0) by (simpl; lia). by eexists.
Qed.

Lemma load_missing df c :
  c ∈ loader_cols -> df !! c = None ->
  exists ms, load_frame str_to_num kr2en df = Raise (KeyError ms).
Proof.
  intros Hc Hm. unfold load_frame, getitem.
  destruct (df !! col_region) as [region|] eqn:Hr; [simpl | by eexists].
  assert (c ∈ [col_population; col_births; col_deaths]) as Hc'.
  { unfold loader_cols in Hc. apply elem_of_cons in Hc as [-> | Hc]; [congruence | done]. }
  destruct (getitems_missing df _ c Hc' Hm) as (ms & -> & _). simpl. by eexists.
Qed.

Lemma load_inv df df' :
  load_frame str_to_num kr2en df = Ok df' ->
  exists region p b d p' b' d',
    df !! col_region = Some region /\ df !! col_population = Some p /\
    df !! col_births = Some b /\ df !! col_deaths = Some d /\
    coerce_col str_to_num region p = Ok p' /\ coerce_col str_to_num region b = Ok b' /\
    coerce_col str_to_num region d = Ok d' /\
    df' = loaded_frame kr2en df region p b d p' b' d'.
Proof.
  intros H.
  destruct (df !! col_region) as [region|] eqn:Hr.
  2:{ destruct (load_missing df col_region) as [ms Hms]; [set_solver|done|congruence]. }
  destruct (df !! col_population) as [p|] eqn:Hp.
  2:{ destruct (load_missing df col_population) as [ms Hms]; [set_solver|done|congruence]. }
  destruct (df !! col_births) as [b|] eqn:Hb.
  2:{ destruct (load_missing df col_births) as [ms Hms]; [set_solver|done|congruence]. }
  destruct (df !! col_deaths) as [d|] eqn:Hd.
  2:{ destruct (load_missing df col_deaths) as [ms Hms]; [set_solver|done|congruence]. }
  rewrite (load_eq _ _ _ _ _ Hr Hp Hb Hd) in H.
  apply result_bind_Ok in H as (p' & Hp' & H).
  apply result_bind_Ok in H as (b' & Hb' & H).
  apply result_bind_Ok in H as (d' & Hd' & [= <-]).
  exists region, p, b, d, p', b', d'. done.
Qed.

Lemma loaded_frame_num df region p b d p' b' d' c :
  c ∈ num_cols ->
  exists col col', (c = col_population /\ col = p /\ col' = p' \/
                    c = col_births /\ col = b /\ col' = b' \/
                    c = col_deaths /\ col = d /\ col' = d') /\
                   loaded_frame kr2en df region p b d p' b' d' !! c = Some col'.
Proof.
  destruct col_names_distinct as (?&?&?&?&?&?&?&?&?&?&?&?&?&?&?).
  unfold num_cols, loaded_frame. intros Hc.
  repeat (apply elem_of_cons in Hc as [-> | Hc]); [..|by apply elem_of_nil in Hc].
  - exists p, p'. split; [tauto|]. by simplify_map_eq.
  - exists b, b'. split; [tauto|]. by simplify_map_eq.
  - exists d, d'. split; [tauto|]. by simplify_map_eq.
Qed.

(** The converted column that the loaded frame holds under a numeric label. *)
Lemma load_num_col df df' c col :
  load_frame str_to_num kr2en df = Ok df' ->
  c ∈ num_cols -> df !! c = Some col ->
  exists region col',
    df !! col_region = Some region /\ df' !! c = Some col' /\
    coerce_col str_to_num region col = Ok col'.
Proof.
  intros H Hc Hcol.
  apply load_inv in H as (region & p & b & d & p' & b' & d' & Hr & Hp & Hb & Hd & Hp' & Hb' & Hd' & ->).
  destruct (loaded_frame_num df region p b d p' b' d' c Hc) as (col0 & col' & Hcase & Hl).
  exists region, col'. split; [done|]. split; [done|].
  destruct Hcase as [(-> & -> & ->) | [(-> & -> & ->) | (-> & -> & ->)]]; congruence.
Qed.

Lemma coerce_col_length region col col' :
  coerce_col str_to_num region col = Ok col' -> length col' = length col.
Proof.
  unfold coerce_col, to_numeric_col. intros H. apply astype_int_Forall2 in H.
  apply Forall2_length in H. rewrite <- H.
  destruct (float_column _); rewrite !length_fmap; unfold replace_where;
    by rewrite length_imap.
Qed.


(** From here on the parser rejects the dash, as pandas' does. *)
Hypothesis dash_not_numeric : str_to_num dash = None.

Lemma coerce_cell_Raise f m v e :
  coerce_cell str_to_num f m v = Raise e -> infinite str_to_num v.
Proof.
  unfold coerce_cell, infinite. intros H.
  assert (astype_int_cell
            (fillna0 ((if f then as_float else id) (to_numeric str_to_num v))) = Raise e)
    as Hv.
  { destruct m; [|done].
    destruct (replace_dash_cases v) as [[-> Hr] | [_ Hr]]; rewrite Hr in H; [|done].
    change (to_numeric str_to_num (VInt 0)) with (VInt 0) in H.
    rewrite (held_int_exact f 0) in H by (simpl; lia). done. }
  destruct (to_numeric str_to_num v) as [[z|q|b]| |s] eqn:E; destruct f; simpl in Hv;
    try done; try (by exists b); by apply to_numeric_not_str in E.
Qed.

Lemma dash_coerces_to_zero f m : coerce_cell str_to_num f m (VStr dash) = Ok (VInt 0).
Proof.
  unfold coerce_cell. destruct m.
  - assert (replace_dash (VStr dash) = VInt 0) as -> by done.
    change (to_numeric str_to_num (VInt 0)) with (VInt 0).
    apply (held_int_exact f 0). simpl. lia.
  - simpl. rewrite dash_not_numeric. by destruct f.
Qed.


Lemma load_frame_dash_zero (df : frame) :
  (forall c, c ∈ loader_cols -> is_Some (df !! c)) ->
  (forall c col i v, c ∈ num_cols -> df !! c = Some col -> col !! i = Some v ->
                     ~ infinite str_to_num v) ->
  exists df',
    load_frame str_to_num kr2en df = Ok df' /\
    forall c i, c ∈ num_cols ->
                cell df c i = Some (VStr dash) ->
                cell df' c i = Some (VInt 0).
Proof.
  intros Hcols Hfin.
  destruct (Hcols col_region) as [regions Hr]; [set_solver|].
  destruct (Hcols col_population) as [p Hp]; [set_solver|].
  destruct (Hcols col_births) as [b Hb]; [set_solver|].
  destruct (Hcols col_deaths) as [d Hd]; [set_solver|].
  assert (forall c col, c ∈ num_cols -> df !! c = Some col ->
                        is_Ok (coerce_col str_to_num regions col)) as Hok.
  { intros c col Hc Hcol. apply coerce_col_is_Ok. intros i v Hv.
    apply coerce_cell_finite. by eapply Hfin. }
  destruct (Hok col_population p) as [p' Hp']; [set_solver|done|].
  destruct (Hok col_births b) as [b' Hb']; [set_solver|done|].
  destruct (Hok col_deaths d) as [d' Hd']; [set_solver|done|].
  assert (load_frame str_to_num kr2en df
          = Ok (loaded_frame kr2en df regions p b d p' b' d')) as Hload.
  { rewrite (load_eq _ _ _ _ _ Hr Hp Hb Hd). rewrite Hp', Hb', Hd'. done. }
  eexists. split; [exact Hload|].
  intros c i Hc Hdash. unfold cell in *.
  destruct (df !! c) as [col|] eqn:Hcol; [simpl in Hdash|done].
  destruct (load_num_col _ _ _ _ Hload Hc Hcol) as (regions' & col' & Hr' & Hcol' & Hco).
  rewrite Hcol'. simpl.
  destruct (coerce_col_lookup _ _ _ _ _ Hco Hdash) as (w & Hw & Hcell).
  rewrite dash_coerces_to_zero in Hcell by done. congruence.
Qed.

Lemma infinite_coerce_raises f m v :
  infinite str_to_num v -> coerce_cell str_to_num f m v = Raise IntCastingNaNError.
Proof.
  intros [neg Hinf]. unfold coerce_cell.
  assert (v <> VStr dash) as Hne.
  { intros ->. simpl in Hinf. rewrite dash_not_numeric in Hinf. done. }
  assert ((if m then replace_dash v else v) = v) as ->.
  { destruct m; [|done]. destruct (replace_dash_cases v) as [[? _] | [_ ?]]; done. }
  rewrite Hinf. by destruct f.
Qed.

Lemma load_frame_raises_iff (df : frame) :
  raises (load_frame str_to_num kr2en df) <->
  (exists c, c ∈ loader_cols /\ df !! c = None) \/
  (exists c col i v, c ∈ num_cols /\ df !! c = Some col /\ col !! i = Some v /\
                     infinite str_to_num v).
Proof.
  split.
  - intros [e He].
    destruct (df !! col_region) as [regions|] eqn:Hr.
    2:{ left. exists col_region. split; [set_solver|done]. }
    destruct (df !! col_population) as [p|] eqn:Hp.
    2:{ left. exists col_population. split; [set_solver|done]. }
    destruct (df !! col_births) as [b|] eqn:Hb.
    2:{ left. exists col_births. split; [set_solver|done]. }
    destruct (df !! col_deaths) as [d|] eqn:Hd.
    2:{ left. exists col_deaths. split; [set_solver|done]. }
    right. rewrite (load_eq _ _ _ _ _ Hr Hp Hb Hd) in He.
    assert (exists c col e', c ∈ num_cols /\ df !! c = Some col /\
                             coerce_col str_to_num regions col = Raise e')
      as (c & col & e' & Hc & Hcol & Hraise).
    { apply result_bind_Raise in He as [He | (p' & _ & He)].
      { exists col_population, p, e. split; [set_solver|done]. }
      apply result_bind_Raise in He as [He | (b' & _ & He)].
      { exists col_births, b, e. split; [set_solver|done]. }
      apply result_bind_Raise in He as [He | (d' & _ & He)]; [|done].
      exists col_deaths, d, e. split; [set_solver|done]. }
    apply coerce_col_Raise in Hraise as (i & v & Hv & Hcell).
    exists c, col, i, v. repeat split; try done.
    by eapply coerce_cell_Raise.
  - intros [(c & Hc & Hnone) | (c & col & i & v & Hc & Hcol & Hv & Hinf)].
    + destruct (load_missing df c Hc Hnone) as [ms Hms].
      by exists (KeyError ms).
    + destruct (load_frame str_to_num kr2en df) as [df'|e] eqn:Hload; [|by exists e].
      destruct (load_num_col _ _ _ _ Hload Hc Hcol) as (regions & col' & Hr & Hcol' & Hco).
      destruct (coerce_col_lookup _ _ _ _ _ Hco Hv) as (w & Hw & Hcell).
      rewrite infinite_coerce_raises in Hcell by done. done.
Qed.
End LoadFrame.

Lemma loaded_frame_region kr2en df region p b d p' b' d' :
  loaded_frame kr2en df region p b d p' b' d' !! col_region = df !! col_region.
Proof.
  destruct col_names_distinct as (?&?&?&?&?&?&?&?&?&?&?&?&?&?&?).
  unfold loaded_frame. by rewrite !lookup_insert_ne by done.
Qed.

Lemma loaded_frame_region_en kr2en df region p b d p' b' d' :
  loaded_frame kr2en df region p b d p' b' d' !! col_region_en
  = Some (map_dict kr2en <$> region).
Proof. unfold loaded_frame. by rewrite lookup_insert_eq. Qed.

Section Idempotent.
Variable str_to_num : string -> option num.
Variable kr2en : gmap string string.

Lemma astype_int_ints col col' :
  astype_int col = Ok col' -> Forall is_int64 col'.
Proof.
  intros H. apply astype_int_Forall2 in H.
  induction H as [|v w col col' Hv _ IH]; constructor; [|done].
  destruct v as [[z|q|b]| |s]; simpl in Hv; simplify_eq; eexists; (split; [done|]).
  - apply int64_of_int_fits.
  - apply int64_of_float_fits.
Qed.

Lemma replace_where_ints mask col :
  Forall is_int64 col -> replace_where mask col = col.
Proof.
  intros Hcol. unfold replace_where. apply list_eq. intros i.
  rewrite list_lookup_imap. destruct (col !! i) as [v|] eqn:Hv; [simpl|done].
  rewrite Forall_lookup in Hcol. destruct (Hcol i v Hv) as (z & -> & _).
  by destruct (default false (mask !! i)).
Qed.

(** A column of [int64] cells is not held as floats. *)
Lemma float_column_ints col :
  Forall is_int64 col -> float_column (to_numeric str_to_num <$> col) = false.
Proof.
  intros Hcol. unfold float_column.
  assert (existsb holds_float (to_numeric str_to_num <$> col) = false
          /\ existsb is_unsigned_only (to_numeric str_to_num <$> col) = false) as [-> ->];
    [|done].
  induction Hcol as [|v col (z & -> & Hz) _ [IH1 IH2]]; [done|].
  rewrite fmap_cons. cbn [existsb to_numeric holds_float is_unsigned_only].
  rewrite IH1, IH2. unfold fits_int64 in Hz.
  rewrite bool_decide_eq_true_2 by lia. rewrite bool_decide_eq_false_2 by lia. done.
Qed.

Lemma coerce_col_ints regions col :
  Forall is_int64 col -> coerce_col str_to_num regions col = Ok col.
Proof.
  intros Hcol. unfold coerce_col. apply astype_int_Forall2.
  assert (float_col str_to_num regions col = false) as Hf.
  { unfold float_col. rewrite replace_where_ints by done. by apply float_column_ints. }
  apply Forall2_same_length_lookup. split.
  { unfold to_numeric_col. fold (float_col str_to_num regions col). rewrite Hf.
    rewrite !length_fmap. unfold replace_where. by rewrite length_imap. }
  intros i v w Hv Hw. rewrite prepared_lookup, Hw, Hf in Hv. simpl in Hv. injection Hv as <-.
  rewrite Forall_lookup in Hcol. destruct (Hcol i w Hw) as (z & -> & Hz).
  destruct (in_mask regions i); simpl; by rewrite int64_of_int_id.
Qed.

(** X4: the loader's normalisation is idempotent: applied to a frame that
    it produced, it succeeds and returns that frame. *)
Theorem load_frame_idempotent (df df' : frame) :
  load_frame str_to_num kr2en df = Ok df' ->
  load_frame str_to_num kr2en df' = Ok df'.
Proof.
  intros H.
  apply load_inv in H as (regions & p & b & d & p' & b' & d' & Hr & Hp & Hb & Hd
                           & Hp' & Hb' & Hd' & ->).
  destruct col_names_distinct as (?&?&?&?&?&?&?&?&?&?&?&?&?&?&?).
  set (df' := loaded_frame kr2en df regions p b d p' b' d').
  assert (df' !! col_region = Some regions) as Hr2.
  { unfold df'. by rewrite loaded_frame_region. }
  assert (df' !! col_population = Some p') as Hp2.
  { unfold df', loaded_frame. by simplify_map_eq. }
  assert (df' !! col_births = Some b') as Hb2.
  { unfold df', loaded_frame. by simplify_map_eq. }
  assert (df' !! col_deaths = Some d') as Hd2.
  { unfold df', loaded_frame. by simplify_map_eq. }
  assert (df' !! col_region_en = Some (map_dict kr2en <$> regions)) as He2.
  { unfold df'. by rewrite loaded_frame_region_en. }
  assert (Forall is_int64 p') as Ip by (unfold coerce_col in Hp'; by eapply astype_int_ints).
  assert (Forall is_int64 b') as Ib by (unfold coerce_col in Hb'; by eapply astype_int_ints).
  assert (Forall is_int64 d') as Id by (unfold coerce_col in Hd'; by eapply astype_int_ints).
  rewrite (load_eq _ _ _ _ _ _ _ Hr2 Hp2 Hb2 Hd2).
  rewrite !coerce_col_ints by done. simpl. f_equal.
  unfold loaded_frame. rewrite !replace_where_ints by done.
  rewrite (insert_id df' col_deaths) by done.
  rewrite (insert_id df' col_births) by done.
  rewrite (insert_id df' col_population) by done.
  rewrite (insert_id df' col_deaths) by done.
  rewrite (insert_id df' col_births) by done.
  rewrite (insert_id df' col_population) by done.
  by rewrite insert_id.
Qed.
End Idempotent.

(** The theorem of X4 on the example frame. *)
Lemma load_frame_idempotent_witness :
  load_frame number_literal REGION_KR2EN example_frame = Ok example_loaded /\
  load_frame number_literal REGION_KR2EN example_loaded = Ok example_loaded.
Proof.
  assert (load_frame number_literal REGION_KR2EN example_frame = Ok example_loaded) as H
    by (vm_compute; reflexivity).
  split; [exact H|].
  exact (load_frame_idempotent number_literal REGION_KR2EN example_frame example_loaded H).
Defined.

(** ** The loader on an upload *)

Lemma load_population_df_read read_csv str_to_num file_obj df :
  read_csv file_obj = Ok df ->
  load_population_df read_csv str_to_num file_obj = load_frame str_to_num REGION_KR2EN df.
Proof. intros H. unfold load_population_df, load_population_df_with. by rewrite H. Qed.

Lemma load_population_df_Ok read_csv str_to_num file_obj df' :
  load_population_df read_csv str_to_num file_obj = Ok df' ->
  exists df, read_csv file_obj = Ok df /\ load_frame str_to_num REGION_KR2EN df = Ok df'.
Proof.
  unfold load_population_df, load_population_df_with. intros H.
  by apply result_bind_Ok in H.
Qed.

Example read_example : simple_read_csv example_csv = Ok example_frame.
Proof. vm_compute. reflexivity. Qed.

Example load_example :
  load_population_df simple_read_csv number_literal example_csv = Ok example_loaded.
Proof. vm_compute. reflexivity. Qed.

Example truncation_example :
  coerce_cell number_literal true false (VNum (NFloat (7 # 2))) = Ok (VInt 3) /\
  coerce_cell number_literal true false (VNum (NFloat (-7 # 2))) = Ok (VInt (-3)).
Proof. split; reflexivity. Qed.

(** Beyond the range: 2^63 is read as an unsigned integer and wraps; and
    next to a cell that is not a number an integer is held as a float, so
    2^53 + 1 is loaded as 2^53. *)
Example wrap_example :
  coerce_col number_literal [VStr "서울"] [VStr "9223372036854775808"]
  = Ok [VInt (-9223372036854775808)] /\
  coerce_col number_literal [VStr "서울"; VStr "부산"] [VStr "9007199254740993"; VStr "-"]
  = Ok [VInt 9007199254740992; VInt 0].
Proof. split; vm_compute; reflexivity. Qed.

Section LoaderClaims.
Variable read_csv : string -> result frame.
Variable str_to_num : string -> option num.


Hypothesis dash_not_numeric : str_to_num dash = None.

(** C5: take an upload that is read into a frame with the columns the loader
    uses and without an infinite count.  Then the load succeeds, and wherever
    a row of the national aggregate holds the dash placeholder in one of the
    three count columns, the loaded table holds 0. *)
Theorem load_national_dash_zero (file_obj : string) (df : frame) :
  read_csv file_obj = Ok df ->
  (forall c, c ∈ loader_cols -> is_Some (df !! c)) ->
  (forall c col i v, c ∈ num_cols -> df !! c = Some col -> col !! i = Some v ->
                     ~ infinite str_to_num v) ->
  exists df',
    load_population_df read_csv str_to_num file_obj = Ok df' /\
    forall c i, c ∈ num_cols ->
                cell df col_region i = Some (VStr national) ->
                cell df c i = Some (VStr dash) ->
                cell df' c i = Some (VInt 0).
Proof.
  intros Hread Hcols Hfin. rewrite (load_population_df_read _ _ _ _ Hread).
  destruct (load_frame_dash_zero str_to_num REGION_KR2EN dash_not_numeric df Hcols Hfin)
    as (df' & Hload & Hzero).
  exists df'. split; [done|]. intros c i Hc _. by apply Hzero.
Qed.

(** C6, as the code has it: the load raises exactly when the reader rejects
    the file, or one of the four columns the loader uses (region, population,
    births, deaths) is missing, or a count cell is an infinity.  The year
    column is not among them, and cells that are not numbers never make the
    load fail. *)
Theorem load_raises_iff (file_obj : string) :
  raises (load_population_df read_csv str_to_num file_obj) <->
  raises (read_csv file_obj) \/
  exists df,
    read_csv file_obj = Ok df /\
    ((exists c, c ∈ loader_cols /\ df !! c = None) \/
     (exists c col i v, c ∈ num_cols /\ df !! c = Some col /\ col !! i = Some v /\
                        infinite str_to_num v)).
Proof.
  destruct (read_csv file_obj) as [df|e] eqn:Hread.
  - rewrite (load_population_df_read _ _ _ _ Hread).
    rewrite (load_frame_raises_iff str_to_num REGION_KR2EN dash_not_numeric). split.
    + intros H. right. by exists df.
    + intros [[e [=]] | (df0 & [= <-] & H)]. done.
  - split; [intros _; left; by exists e|]. intros _.
    unfold load_population_df, load_population_df_with. rewrite Hread. by exists e.
Qed.
End LoaderClaims.



(** The theorem of C5 on the example upload. *)
Lemma load_national_dash_zero_witness :
  number_literal dash = None /\
  simple_read_csv example_csv = Ok example_frame /\
  exists df',
    load_population_df simple_read_csv number_literal example_csv = Ok df' /\
    forall c i, c ∈ num_cols ->
                cell example_frame col_region i = Some (VStr national) ->
                cell example_frame c i = Some (VStr dash) ->
                cell df' c i = Some (VInt 0).
Proof.
  assert (simple_read_csv example_csv = Ok example_frame) as H0
    by (vm_compute; reflexivity).
  split; [reflexivity|]. split; [exact H0|].
  apply (load_national_dash_zero simple_read_csv number_literal eq_refl
           example_csv example_frame H0).
  - intros c Hc. unfold loader_cols in Hc.
    repeat (apply elem_of_cons in Hc as [-> | Hc]);
      [vm_compute; eexists; reflexivity ..| by apply elem_of_nil in Hc].
  - intros c col i v Hc Hcol Hv [neg Hinf]. unfold num_cols in Hc.
    repeat (apply elem_of_cons in Hc as [-> | Hc]); [..| by apply elem_of_nil in Hc];
      vm_compute in Hcol; injection Hcol as <-;
      destruct i as [|[|[|i]]]; simpl in Hv; try discriminate;
      injection Hv as <-; vm_compute in Hinf; discriminate.
Defined.

(** The theorem of C6 on an upload with an infinite population. *)
Lemma load_raises_iff_witness :
  number_literal dash = None /\
  raises (load_population_df simple_read_csv number_literal infinite_csv).
Proof.
  split; [reflexivity|].
  apply (load_raises_iff simple_read_csv number_literal eq_refl infinite_csv). right.
  exists infinite_frame. split; [vm_compute; reflexivity|]. right.
  exists col_population, [VStr "inf"], 0%nat, (VStr "inf").
  split; [unfold num_cols; repeat constructor|].
  split; [vm_compute; reflexivity|]. split; [reflexivity|]. exists false. reflexivity.
Defined.

(** C6 as stated fails: without the year column the load still succeeds. *)
Lemma load_without_year_counterexample :
  col_year ∈ required_cols /\
  (exists df, simple_read_csv no_year_csv = Ok df /\ df !! col_year = None) /\
  load_population_df simple_read_csv number_literal no_year_csv = Ok no_year_loaded.
Proof.
  split; [unfold required_cols; repeat constructor|].
  split; [|vm_compute; reflexivity].
  eexists. split; [vm_compute; reflexivity|]. vm_compute. reflexivity.
Qed.

Example load_infinite_raises :
  load_population_df simple_read_csv number_literal infinite_csv = Raise IntCastingNaNError.
Proof. vm_compute. reflexivity. Qed.

Example load_empty_file_raises :
  load_population_df simple_read_csv number_literal EmptyString = Raise EmptyDataError.
Proof. vm_compute. reflexivity. Qed.

(** ** Calls of the loader in the interpreter state *)



Section LoaderCalls.
Variable read_csv : string -> result frame.
Variable str_to_num : string -> option num.


End LoaderCalls.



Section LoadEffect.
Variable read_csv : string -> result frame.
Variable str_to_num : string -> option num.

Lemma loaded_frame_other kr2en df regions p b d p' b' d' c :
  c ∉ num_cols -> c <> col_region_en ->
  loaded_frame kr2en df regions p b d p' b' d' !! c = df !! c.
Proof.
  intros Hc Hne. unfold num_cols in Hc.
  apply not_elem_of_cons in Hc as [? Hc]. apply not_elem_of_cons in Hc as [? Hc].
  apply not_elem_of_cons in Hc as [? _].
  unfold loaded_frame. by rewrite !lookup_insert_ne by done.
Qed.

Lemma loaded_frame_dom kr2en df regions p b d p' b' d' :
  is_Some (df !! col_population) -> is_Some (df !! col_births) ->
  is_Some (df !! col_deaths) ->
  dom (loaded_frame kr2en df regions p b d p' b' d') = dom df ∪ {[col_region_en]}.
Proof.
  intros Hp Hb Hd.
  unfold loaded_frame. rewrite !dom_insert_L.
  apply elem_of_dom in Hp, Hb, Hd.
  apply set_eq. intros x. rewrite !elem_of_union, !elem_of_singleton.
  split; [|tauto]. intros [->|[->|[->|[->|[->|[->|[->|?]]]]]]]; tauto.
Qed.

(** X5: what a successful load changes in the frame that was read.  Every
    column other than the three counts and the display names is returned as
    it was read, the year column included; the only label added is that of
    the display names; each count column keeps its number of rows; and the
    display name of a row is the entry of REGION_KR2EN for its region, NaN
    for a region that the dict does not have. *)
Theorem load_frame_effect (file_obj : string) (df df' : frame) :
  read_csv file_obj = Ok df ->
  load_population_df read_csv str_to_num file_obj = Ok df' ->
  (forall c, c ∉ num_cols -> c <> col_region_en -> df' !! c = df !! c) /\
  dom df' = dom df ∪ {[col_region_en]} /\
  (forall c col, c ∈ num_cols -> df !! c = Some col ->
     exists col', df' !! c = Some col' /\ length col' = length col) /\
  exists regions,
    df !! col_region = Some regions /\
    df' !! col_region_en = Some (map_dict REGION_KR2EN <$> regions) /\
    forall i s, regions !! i = Some (VStr s) ->
      cell df' col_region_en i
      = Some (match REGION_KR2EN !! s with Some en => VStr en | None => VNaN end).
Proof.
  intros Hread Hload. rewrite (load_population_df_read _ _ _ _ Hread) in Hload.
  assert (forall c col, c ∈ num_cols -> df !! c = Some col ->
            exists col', df' !! c = Some col' /\ length col' = length col) as Hlen.
  { intros c col Hc Hcol.
    destruct (load_num_col _ _ _ _ _ _ Hload Hc Hcol) as (regions & col' & _ & Hcol' & Hco).
    exists col'. split; [done|]. by eapply coerce_col_length. }
  apply load_inv in Hload as (regions & p & b & d & p' & b' & d' & Hr & Hp & Hb & Hd
                               & _ & _ & _ & ->).
  split; [|split; [|split; [exact Hlen|]]].
  - intros c Hc Hne. by apply loaded_frame_other.
  - apply loaded_frame_dom; by eexists.
  - exists regions. split; [done|]. split; [apply loaded_frame_region_en|].
    intros i s Hi. unfold cell. rewrite loaded_frame_region_en.
    cbn [mbind option_bind]. rewrite list_lookup_fmap, Hi. done.
Qed.

Lemma in_mask_sejong regions i :
  regions !! i = Some (VStr sejong) -> in_mask regions i = true.
Proof.
  intros H. unfold in_mask. rewrite list_lookup_fmap, H. done.
Qed.

(** X6: the rewrite that the loader keys on Sejong does not depend on how
    pandas parses text: whatever [to_numeric] makes of a dash, a dash in a
    count cell of a Sejong row is 0 in the loaded table. *)
Theorem load_sejong_dash_zero (file_obj : string) (df df' : frame) (c : string) (i : nat) :
  read_csv file_obj = Ok df ->
  load_population_df read_csv str_to_num file_obj = Ok df' ->
  c ∈ num_cols ->
  cell df col_region i = Some (VStr sejong) ->
  cell df c i = Some (VStr dash) ->
  cell df' c i = Some (VInt 0).
Proof.
  intros Hread Hload Hc Hreg Hdash. rewrite (load_population_df_read _ _ _ _ Hread) in Hload.
  unfold cell in *.
  destruct (df !! c) as [col|] eqn:Hcol; [|done].
  destruct (load_num_col _ _ _ _ _ _ Hload Hc Hcol) as (regions & col' & Hr & Hcol' & Hco).
  rewrite Hr in Hreg. cbn [mbind option_bind] in Hreg, Hdash.
  destruct (coerce_col_lookup _ _ _ _ _ _ Hco Hdash) as (w & Hw & Hcell).
  rewrite (in_mask_sejong _ _ Hreg) in Hcell. unfold coerce_cell in Hcell.
  change (replace_dash (VStr dash)) with (VInt 0) in Hcell.
  change (to_numeric str_to_num (VInt 0)) with (VInt 0) in Hcell.
  rewrite (held_int_exact _ 0) in Hcell by (simpl; lia). injection Hcell as <-.
  rewrite Hcol'. done.
Qed.
End LoadEffect.

(** The theorem of X5 on the example upload: the years are returned as read
    and the display names are the one label added. *)
Lemma load_frame_effect_witness :
  simple_read_csv example_csv = Ok example_frame /\
  load_population_df simple_read_csv number_literal example_csv = Ok example_loaded /\
  example_loaded !! col_year = example_frame !! col_year /\
  dom example_loaded = dom example_frame ∪ {[col_region_en]}.
Proof.
  assert (simple_read_csv example_csv = Ok example_frame) as H1 by (vm_compute; reflexivity).
  assert (load_population_df simple_read_csv number_literal example_csv = Ok example_loaded)
    as H2 by (vm_compute; reflexivity).
  split; [exact H1|]. split; [exact H2|].
  destruct (load_frame_effect simple_read_csv number_literal example_csv example_frame
              example_loaded H1 H2) as (Hother & Hdom & _).
  split; [|exact Hdom]. apply Hother.
  - apply (bool_decide_unpack _). vm_compute. reflexivity.
  - apply (bool_decide_unpack _). vm_compute. reflexivity.
Defined.

(** The theorem of X6 with a parser that reads the dash as 7: the dash in
    the population of the Sejong row of the example still loads as 0. *)
Lemma load_sejong_dash_zero_witness :
  simple_read_csv example_csv = Ok example_frame /\
  load_population_df simple_read_csv dash_as_seven example_csv = Ok example_loaded_seven /\
  col_population ∈ num_cols /\
  cell example_frame col_region 1 = Some (VStr sejong) /\
  cell example_frame col_population 1 = Some (VStr dash) /\
  cell example_loaded_seven col_population 1 = Some (VInt 0).
Proof.
  assert (simple_read_csv example_csv = Ok example_frame) as H1 by (vm_compute; reflexivity).
  assert (load_population_df simple_read_csv dash_as_seven example_csv
          = Ok example_loaded_seven) as H2 by (vm_compute; reflexivity).
  assert (col_population ∈ num_cols) as H3 by left.
  assert (cell example_frame col_region 1 = Some (VStr sejong)) as H4
    by (vm_compute; reflexivity).
  assert (cell example_frame col_population 1 = Some (VStr dash)) as H5
    by (vm_compute; reflexivity).
  split; [exact H1|]. split; [exact H2|]. split; [exact H3|]. split; [exact H4|].
  split; [exact H5|].
  exact (load_sejong_dash_zero simple_read_csv dash_as_seven example_csv example_frame
           example_loaded_seven col_population 1%nat H1 H2 H3 H4 H5).
Defined.

(** X7: which column the loader reports as missing.  Without the region
    column the KeyError names that column alone, whatever else is missing;
    with it, a frame that lacks some of the three count columns gets a
    KeyError that names exactly the count columns it lacks. *)
Theorem load_frame_key_errors str_to_num kr2en (df : frame) :
  (df !! col_region = None ->
   load_frame str_to_num kr2en df = Raise (KeyError [col_region])) /\
  (is_Some (df !! col_region) -> missing_labels df num_cols <> [] ->
   load_frame str_to_num kr2en df = Raise (KeyError (missing_labels df num_cols)) /\
   forall c, c ∈ missing_labels df num_cols <-> c ∈ num_cols /\ df !! c = None).
Proof.
  split.
  - intros H. unfold load_frame, getitem. by rewrite H.
  - intros [regions Hr] Hm. split.
    + unfold load_frame, getitem, getitems. rewrite Hr. cbn [mbind result_bind].
      fold num_cols. destruct (missing_labels df num_cols); done.
    + intros c. unfold missing_labels. rewrite list_elem_of_filter. tauto.
Qed.

(** ** predict_pop_2035 *)

Lemma tail_n_last_three (nat_df : PopulationTable) : tail_n 3 nat_df = last_three nat_df.
Proof. unfold tail_n, last_three. by rewrite take_reverse, reverse_involutive. Qed.

Lemma tail_n_all {A} (n : nat) (l : list A) : (length l <= n)%nat -> tail_n n l = l.
Proof. intros H. unfold tail_n. by replace (length l - n)%nat with 0%nat by lia. Qed.

Lemma last_tail_n {A} (n : nat) (l : list A) : (0 < n)%nat -> last (tail_n n l) = last l.
Proof.
  intros Hn. unfold tail_n.
  transitivity (last (take (length l - n) l ++ drop (length l - n) l));
    [|by rewrite take_drop].
  rewrite last_app.
  destruct (last (drop (length l - n) l)) eqn:E; [done|].
  apply last_None in E. destruct l as [|x l]; [done|].
  apply (f_equal length) in E. rewrite length_drop in E. simpl in E. lia.
Qed.

Lemma tail_n_nil_inv {A} (n : nat) (l : list A) : (0 < n)%nat -> tail_n n l = [] -> l = [].
Proof.
  intros Hn E. apply (f_equal last) in E. rewrite last_tail_n in E by done.
  by apply last_None.
Qed.


(** *** The float mean of integers that floats hold *)

Lemma sum_Z_cons x (xs : list Z) : sum_Z (x :: xs) = x + sum_Z xs.
Proof. done. Qed.

Lemma sum_Z_abs_nonneg (xs : list Z) : 0 <= sum_Z (Z.abs <$> xs).
Proof.
  induction xs as [|x xs IH]; [done|]. rewrite fmap_cons, sum_Z_cons. lia.
Qed.

Lemma sum_Z_abs_bound (xs : list Z) : Z.abs (sum_Z xs) <= sum_Z (Z.abs <$> xs).
Proof.
  induction xs as [|x xs IH]; [done|]. rewrite fmap_cons, !sum_Z_cons. lia.
Qed.

Lemma sum_Z_abs_elem (xs : list Z) x : x ∈ xs -> Z.abs x <= sum_Z (Z.abs <$> xs).
Proof.
  induction xs as [|y xs IH]; [by intros ?%elem_of_nil|].
  pose proof (sum_Z_abs_nonneg xs). rewrite fmap_cons, sum_Z_cons.
  intros [->|Hx]%elem_of_cons; [lia|]. specialize (IH Hx). lia.
Qed.

Lemma f64_sum_from (xs : list Z) (acc : Z) :
  Z.abs acc + sum_Z (Z.abs <$> xs) < 2 ^ 53 ->
  fold_left (fun a x => f64_add a (f64_of_int x)) xs (inject_Z acc)
  = inject_Z (acc + sum_Z xs).
Proof.
  revert acc. induction xs as [|x xs IH]; intros acc H.
  - cbn [fold_left]. f_equal. change (sum_Z []) with 0. lia.
  - pose proof (sum_Z_abs_nonneg xs). pose proof (sum_Z_abs_bound xs).
    rewrite fmap_cons, sum_Z_cons in H. cbn [fold_left]. rewrite sum_Z_cons.
    rewrite f64_of_int_exact by lia. rewrite f64_add_int by lia.
    rewrite IH by lia. f_equal. lia.
Qed.

Lemma f64_sum_exact (xs : list Z) :
  sum_Z (Z.abs <$> xs) < 2 ^ 53 -> f64_sum xs = inject_Z (sum_Z xs).
Proof. intros H. unfold f64_sum. apply (f64_sum_from xs 0). lia. Qed.

Lemma Qdiv_inject_Z (s : Z) (p : positive) : (inject_Z s / inject_Z (Z.pos p))%Q = s # p.
Proof.
  unfold Qdiv, Qmult, Qinv, inject_Z. cbn [Qnum Qden].
  rewrite Z.mul_1_r, Pos.mul_1_l. done.
Qed.

(** The mean of a short column, cut to an integer, is the quotient of the
    integers. *)
Lemma py_int_mean (xs : list Z) :
  xs <> [] -> Z.of_nat (length xs) < 2 ^ 53 -> sum_Z (Z.abs <$> xs) < 2 ^ 53 ->
  py_int (mean xs) = Ok (Z.quot (sum_Z xs) (Z.of_nat (length xs))).
Proof.
  intros Hne Hlen Hsum. destruct xs as [|x xs]; [done|].
  unfold mean, py_int. f_equal.
  rewrite f64_sum_exact by done. rewrite f64_of_int_exact by lia.
  set (s := sum_Z (x :: xs)). pose proof (sum_Z_abs_bound (x :: xs)).
  cbn [length] in *.
  replace (Z.of_nat (S (length xs))) with (Z.pos (Pos.of_succ_nat (length xs))) in * by lia.
  unfold f64_div. rewrite Qdiv_inject_Z. apply round_f64_quot; [fold s; lia|done].
Qed.

Lemma quot_error_nonneg (s n : Z) :
  0 <= s -> 0 < n -> 0 <= n * Z.quot s n <= s /\ s - n * Z.quot s n <= n - 1.
Proof.
  intros Hs Hn.
  assert (s = n * Z.quot s n + Z.rem s n) as E by (apply Z.quot_rem'; lia).
  assert (0 <= Z.rem s n < n) by (apply Z.rem_bound_pos; lia).
  assert (0 <= Z.quot s n) by (apply Z.quot_pos; lia).
  assert (0 <= n * Z.quot s n) by (apply Z.mul_nonneg_nonneg; lia).
  lia.
Qed.

Lemma quot_error (s n : Z) :
  0 < n -> Z.abs (n * Z.quot s n - s) <= n - 1 /\ Z.abs (n * Z.quot s n) <= Z.abs s.
Proof.
  intros Hn. destruct (Z.le_gt_cases 0 s) as [Hpos | Hneg].
  - destruct (quot_error_nonneg s n Hpos Hn). lia.
  - destruct (quot_error_nonneg (- s) n ltac:(lia) Hn) as [H1 H2].
    rewrite Z.quot_opp_l in H1, H2 by lia.
    rewrite Z.mul_opp_r in H1, H2. lia.
Qed.

Lemma quot_abs_le (s n : Z) : 0 < n -> Z.abs (Z.quot s n) <= Z.abs s.
Proof. intros Hn. destruct (quot_error s n Hn) as [_ H]. nia. Qed.

Lemma length_tail_n {A} (n : nat) (l : list A) : (length (tail_n n l) <= n)%nat.
Proof. unfold tail_n. rewrite length_drop. lia. Qed.

(** Within the exact range the machine computes the formula. *)
Lemma predict_pop_2035_eq (nat_df : PopulationTable) :
  (forall last_record, last nat_df = Some last_record ->
                       forecast_exact (tail_n 3 nat_df) last_record) ->
  predict_pop_2035 nat_df = forecast_over (tail_n 3 nat_df) nat_df.
Proof.
  intros Hex. unfold predict_pop_2035, forecast_over.
  destruct (last nat_df) as [r|] eqn:Hlast.
  - destruct (Hex r eq_refl) as (Hsum & Hyl & Hprod & Hres).
    set (window := tail_n 3 nat_df) in *.
    assert (window <> []) as Hne.
    { intros E. apply tail_n_nil_inv in E; [|lia]. by subst. }
    set (diffs := (fun r => births r - deaths r) <$> window).
    assert (sum_Z (Z.abs <$> diffs) < 2 ^ 53) as Hsum'.
    { unfold diffs. by rewrite <- list_fmap_compose. }
    assert ((fun r => wrap64 (births r - deaths r)) <$> window = diffs) as ->.
    { unfold diffs. apply list_fmap_ext. intros i x Hx. apply wrap64_id.
      assert (births x - deaths x ∈ diffs) as Hin.
      { apply list_elem_of_fmap. exists x. split; [done|]. by eapply list_elem_of_lookup_2. }
      pose proof (sum_Z_abs_elem _ _ Hin). unfold fits_int64. lia. }
    assert (Z.of_nat (length diffs) < 2 ^ 53) as Hlen.
    { unfold diffs, window. rewrite length_fmap. pose proof (length_tail_n 3 nat_df). lia. }
    rewrite py_int_mean; [|by (intros E; apply fmap_nil_inv in E)|done|done].
    cbn [mbind result_bind]. unfold iat_last.
    assert (last window = Some r) as Hw by (unfold window; by rewrite last_tail_n by lia).
    rewrite !fmap_last, Hw, Hlast.
    cbn [fmap option_fmap option_map mbind result_bind].
    unfold forecast_spec, mean_delta in *. unfold diffs. rewrite length_fmap.
    set (delta := Z.quot _ _) in *.
    assert (fits_int64 delta) as Hd.
    { pose proof (quot_abs_le (sum_Z diffs) (Z.of_nat (length window))) as Hq.
      pose proof (sum_Z_abs_bound diffs).
      assert (0 < Z.of_nat (length window)) by (destruct window; [done|simpl; lia]).
      unfold delta, fits_int64. fold diffs. specialize (Hq ltac:(lia)). lia. }
    unfold int64_of_pyint. rewrite bool_decide_eq_true_2 by done.
    cbn [mbind result_bind].
    rewrite (wrap64_id (2035 - year r)) by done.
    rewrite (wrap64_id (delta * (2035 - year r))) by done.
    by rewrite wrap64_id.
  - apply last_None in Hlast. subst. done.
Qed.

(** C2: take a national table that is not empty, and let the numbers stay
    where the machine's arithmetic is exact ([forecast_exact]).  Then the
    forecast is the population of the last record plus the mean of births
    minus deaths over the last three records, cut to an integer, times the
    years from the last record to 2035; on the records of 2020, 2021 and 2022
    with populations 100, 105 and 108 and births minus deaths 5, 4 and 3 it
    is 108 + 4 * 13 = 160. *)
Theorem predict_pop_2035_formula :
  (forall nat_df : PopulationTable,
     nat_df <> [] ->
     exists last_record,
       last nat_df = Some last_record /\
       (forecast_exact (last_three nat_df) last_record ->
        predict_pop_2035 nat_df
        = Ok (population last_record
              + mean_delta (last_three nat_df) * (2035 - year last_record)))) /\
  predict_pop_2035 example_national = Ok 160.
Proof.
  split; [|by vm_compute].
  intros nat_df Hne. destruct (last nat_df) as [r|] eqn:Hlast.
  - exists r. split; [done|]. intros Hex.
    rewrite predict_pop_2035_eq.
    + rewrite tail_n_last_three. unfold forecast_over. by rewrite Hlast.
    + intros r' Hr'. assert (r' = r) as -> by congruence. by rewrite tail_n_last_three.
  - by apply last_None in Hlast.
Qed.

(** C8: on a national table with fewer than three records, within the same
    exact range, the forecast is the same formula with the mean taken over
    all the records there are; no minimum length is demanded, and one
    record is enough for a result. *)
Theorem predict_pop_2035_short_history (nat_df : PopulationTable) :
  (length nat_df < 3)%nat ->
  (forall last_record, last nat_df = Some last_record ->
                       forecast_exact nat_df last_record) ->
  predict_pop_2035 nat_df = forecast_over nat_df nat_df /\
  (nat_df <> [] -> is_Ok (predict_pop_2035 nat_df)).
Proof.
  intros Hlen Hex.
  assert (predict_pop_2035 nat_df = forecast_over nat_df nat_df) as E.
  { rewrite predict_pop_2035_eq; rewrite tail_n_all by lia; done. }
  split; [done|]. intros Hne. rewrite E. unfold forecast_over.
  destruct (last nat_df) as [r|] eqn:Hlast; [by eexists|].
  by apply last_None in Hlast.
Qed.

(** The theorem of C2 on the three example records. *)
Lemma predict_pop_2035_formula_witness :
  example_national <> [] /\
  forecast_exact (last_three example_national) (mk_row national 2022 108 13 10) /\
  predict_pop_2035 example_national
  = Ok (population (mk_row national 2022 108 13 10)
        + mean_delta (last_three example_national)
          * (2035 - year (mk_row national 2022 108 13 10))).
Proof.
  assert (example_national <> []) as H by discriminate.
  assert (forecast_exact (last_three example_national) (mk_row national 2022 108 13 10))
    as Hex by (vm_compute; intuition (discriminate || reflexivity)).
  split; [exact H|]. split; [exact Hex|].
  destruct (proj1 predict_pop_2035_formula example_national H) as (r & Hr & Hf).
  injection Hr as <-. exact (Hf Hex).
Defined.

(** The theorem of C8 on a table of one record. *)
Lemma predict_pop_2035_short_history_witness :
  (length example_short < 3)%nat /\
  (forall last_record, last example_short = Some last_record ->
                       forecast_exact example_short last_record) /\
  predict_pop_2035 example_short = forecast_over example_short example_short /\
  (example_short <> [] -> is_Ok (predict_pop_2035 example_short)).
Proof.
  assert (length example_short < 3)%nat as H by (simpl; lia).
  assert (forall last_record, last example_short = Some last_record ->
                              forecast_exact example_short last_record) as Hex.
  { intros r [= <-]. vm_compute. intuition (discriminate || reflexivity). }
  split; [exact H|]. split; [exact Hex|].
  exact (predict_pop_2035_short_history example_short H Hex).
Defined.

Example predict_short_value : predict_pop_2035 example_short = Ok 17.
Proof. vm_compute; reflexivity. Qed.

(** Beyond the exact range the machine's result is another: the sum wraps
    around, and a float does not hold 2^53 + 1. *)
Example predict_wraps :
  predict_pop_2035 [mk_row national 2034 (2 ^ 63 - 1) 1 0] = Ok (- 2 ^ 63).
Proof. vm_compute; reflexivity. Qed.

Example predict_rounds :
  predict_pop_2035 [mk_row national 2034 0 (2 ^ 53 + 1) 0] = Ok (2 ^ 53).
Proof. vm_compute; reflexivity. Qed.

Example forecast_view_example :
  forecast_view (example_regions_only ++ example_national) = Ok 160.
Proof. vm_compute. reflexivity. Qed.

Lemma tail_n_app {A} (n : nat) (older recent : list A) :
  (n <= length recent)%nat -> tail_n n (older ++ recent) = tail_n n recent.
Proof.
  intros H. unfold tail_n. rewrite length_app.
  replace (length older + length recent - n)%nat
    with (length older + (length recent - n))%nat by lia.
  by rewrite drop_app_add'.
Qed.

(** X8: the forecast depends on the last three records only: two tables
    that end in the same three or more records get the same forecast,
    whatever history comes before. *)
Theorem predict_pop_2035_recent_only (older1 older2 recent : PopulationTable) :
  (3 <= length recent)%nat ->
  predict_pop_2035 (older1 ++ recent) = predict_pop_2035 (older2 ++ recent).
Proof.
  intros H. unfold predict_pop_2035. rewrite !tail_n_app by done.
  assert (forall older, iat_last (population <$> older ++ recent)
                        = iat_last (population <$> recent)) as Hlast.
  { intros older. unfold iat_last. rewrite fmap_app, last_app.
    destruct (last (population <$> recent)) eqn:E; [done|].
    apply last_None, fmap_nil_inv in E. subst. simpl in H. lia. }
  by rewrite !Hlast.
Qed.

(** X9: what the truncation of the mean costs, within the exact range.
    With n records in the window and their births minus deaths adding up to
    total, n times the forecast change differs from total times the years
    left by at most (n - 1) times the years left, and the truncation never
    enlarges the change in size. *)
Theorem predict_pop_2035_truncation (nat_df : PopulationTable) (last_record : PopulationRecord) :
  last nat_df = Some last_record ->
  forecast_exact (last_three nat_df) last_record ->
  let window := last_three nat_df in
  let n := Z.of_nat (length window) in
  let total := sum_Z ((fun r => births r - deaths r) <$> window) in
  let years_left := 2035 - year last_record in
  exists forecast,
    predict_pop_2035 nat_df = Ok forecast /\
    Z.abs (n * (forecast - population last_record) - total * years_left)
      <= (n - 1) * Z.abs years_left /\
    Z.abs (n * (forecast - population last_record)) <= Z.abs (total * years_left).
Proof.
  intros Hlast Hex window n total years_left.
  rewrite predict_pop_2035_eq by (intros r' Hr'; rewrite tail_n_last_three; congruence).
  rewrite tail_n_last_three. unfold forecast_over. rewrite Hlast.
  eexists. split; [done|]. unfold forecast_spec, mean_delta.
  fold window. fold total. fold n. fold years_left.
  assert (0 < n) as Hn.
  { unfold n, window. rewrite <- tail_n_last_three.
    destruct (tail_n 3 nat_df) eqn:E; [|simpl; lia].
    apply tail_n_nil_inv in E; [|lia]. subst nat_df. discriminate Hlast. }
  destruct (quot_error total n Hn) as [H1 H2].
  set (q := Z.quot total n) in *.
  replace (n * (population last_record + q * years_left - population last_record)
           - total * years_left) with ((n * q - total) * years_left) by ring.
  replace (n * (population last_record + q * years_left - population last_record))
    with ((n * q) * years_left) by ring.
  rewrite (Z.abs_mul (n * q - total)), (Z.abs_mul (n * q)), (Z.abs_mul total).
  split; (apply Z.mul_le_mono_nonneg_r; [apply Z.abs_nonneg | done]).
Qed.

(** The theorem of X8: a record of 2019 put before the example changes
    nothing. *)
Lemma predict_pop_2035_recent_only_witness :
  (3 <= length example_national)%nat /\
  predict_pop_2035 ([] ++ example_national)
  = predict_pop_2035 ([mk_row national 2019 90 1 1] ++ example_national).
Proof.
  assert (3 <= length example_national)%nat as H by (vm_compute; lia).
  split; [exact H|].
  exact (predict_pop_2035_recent_only [] [mk_row national 2019 90 1 1] example_national H).
Defined.

(** The theorem of X9 on three records with 5, 4 and 4: the mean 13/3 is
    cut to 4. *)
Lemma predict_pop_2035_truncation_witness :
  last example_uneven = Some (mk_row national 2022 108 14 10) /\
  forecast_exact (last_three example_uneven) (mk_row national 2022 108 14 10) /\
  exists forecast,
    predict_pop_2035 example_uneven = Ok forecast /\
    Z.abs (3 * (forecast - 108) - 13 * 13) <= 2 * 13 /\
    Z.abs (3 * (forecast - 108)) <= 13 * 13.
Proof.
  assert (last example_uneven = Some (mk_row national 2022 108 14 10)) as H
    by (vm_compute; reflexivity).
  assert (forecast_exact (last_three example_uneven) (mk_row national 2022 108 14 10))
    as Hex by (vm_compute; intuition (discriminate || reflexivity)).
  split; [exact H|]. split; [exact Hex|].
  destruct (predict_pop_2035_truncation example_uneven _ H Hex) as (forecast & H1 & H2 & H3).
  exists forecast. split; [exact H1|]. split; [exact H2 | exact H3].
Defined.

(** ** Sorting *)

Section SortFacts.
Context {A : Type} (le : A -> A -> bool).

Let R : relation A := fun x y => le x y = true.

Lemma insert_sorted_perm x l : insert_sorted le x l ≡ₚ x :: l.
Proof.
  induction l as [|y l IH]; simpl; [done|].
  destruct (le x y); [done|]. rewrite IH. apply Permutation_swap.
Qed.

Lemma sort_by_perm l : sort_by le l ≡ₚ l.
Proof.
  induction l as [|x l IH]; simpl; [done|].
  rewrite insert_sorted_perm. by rewrite IH.
Qed.

Lemma elem_of_sort_by x l : x ∈ sort_by le l <-> x ∈ l.
Proof. by rewrite sort_by_perm. Qed.

Lemma length_sort_by l : length (sort_by le l) = length l.
Proof. by rewrite sort_by_perm. Qed.

Hypothesis le_total : forall x y, le x y = true \/ le y x = true.

Lemma insert_sorted_Sorted x l : Sorted R l -> Sorted R (insert_sorted le x l).
Proof.
  induction 1 as [|y l Hl IH Hhd]; simpl; [by repeat constructor|].
  destruct (le x y) eqn:Hxy.
  - constructor; [by constructor|]. by constructor.
  - constructor; [done|].
    assert (R y x) as Hyx. { destruct (le_total x y); [congruence|done]. }
    destruct Hhd as [|z l Hyz]; simpl; [by constructor|].
    destruct (le x z); by constructor.
Qed.

Lemma sort_by_Sorted l : Sorted R (sort_by le l).
Proof.
  induction l as [|x l IH]; simpl; [constructor|]. by apply insert_sorted_Sorted.
Qed.

Hypothesis le_trans : forall x y z, le x y = true -> le y z = true -> le x z = true.

Lemma sort_by_StronglySorted l : StronglySorted R (sort_by le l).
Proof.
  apply Sorted_StronglySorted; [|apply sort_by_Sorted].
  intros x y z. apply le_trans.
Qed.
End SortFacts.

Lemma StronglySorted_take_drop {A} (R : relation A) (l : list A) (n : nat) x y :
  StronglySorted R l -> x ∈ take n l -> y ∈ drop n l -> R x y.
Proof.
  intros Hs Hx Hy. rewrite <- (take_drop n l) in Hs.
  by eapply StronglySorted_app_1_elem_of.
Qed.

Lemma StronglySorted_weaken {A} (R R' : relation A) (P : A -> Prop) (l : list A) :
  (forall x y, P x -> P y -> R x y -> R' x y) ->
  Forall P l -> StronglySorted R l -> StronglySorted R' l.
Proof.
  intros HR HP Hs. induction Hs as [|x l Hs IH Hx]; [constructor|].
  apply Forall_cons in HP as [Px HP]. constructor; [by apply IH|].
  rewrite Forall_forall in *. intros y Hy. apply HR; auto.
Qed.

Lemma StronglySorted_filter_list {A} (R : relation A) (P : A -> Prop)
    `{forall x, Decision (P x)} (l : list A) :
  StronglySorted R l -> StronglySorted R (filter P l).
Proof.
  induction 1 as [|x l Hs IH Hx]; [constructor|].
  rewrite filter_cons. case_decide; [|done].
  constructor; [done|]. rewrite Forall_forall in *. intros y Hy.
  apply list_elem_of_filter in Hy as [_ Hy]. auto.
Qed.

Lemma ge_nan_last_total x y : ge_nan_last x y = true \/ ge_nan_last y x = true.
Proof.
  destruct x as [a|], y as [b|]; simpl; auto.
  rewrite !Qle_bool_iff. destruct (Qlt_le_dec a b) as [H|H]; [right|left]; [|done].
  by apply Qlt_le_weak.
Qed.

Lemma ge_nan_last_trans x y z :
  ge_nan_last x y = true -> ge_nan_last y z = true -> ge_nan_last x z = true.
Proof.
  destruct x as [a|], y as [b|], z as [c|]; simpl; try done.
  rewrite !Qle_bool_iff. intros H1 H2. by eapply Qle_trans.
Qed.

(** The stable sort is one of the sorts by falling key. *)
Lemma stable_sort_values_sorts : sorts_desc stable_sort_values.
Proof.
  intros A key l. unfold stable_sort_values. split; [apply sort_by_perm|].
  apply (sort_by_StronglySorted (fun a b : A => ge_nan_last (key a) (key b))).
  - intros x y. apply ge_nan_last_total.
  - intros x y z. apply ge_nan_last_trans.
Qed.

(** ** The national trend *)

(** X1: the national trend hands the forecaster exactly the national rows of
    the table, in the order of their years. *)
Theorem national_rows_spec (df : PopulationTable) :
  national_rows df ≡ₚ filter (fun r => region r = national) df /\
  StronglySorted (fun a b => year a <= year b) (national_rows df).
Proof.
  unfold national_rows. split; [apply sort_by_perm|].
  eapply (StronglySorted_weaken _ _ (fun _ => True)).
  - intros x y _ _ H. apply bool_decide_eq_true in H. exact H.
  - by apply Forall_forall.
  - apply (sort_by_StronglySorted (fun a b : PopulationRecord => bool_decide (year a <= year b))).
    + intros x y. rewrite !bool_decide_eq_true. lia.
    + intros x y z. rewrite !bool_decide_eq_true. lia.
Qed.

(** ** The five-year change *)

(** *** The latest year *)
Lemma foldr_max_ge (y : Z) (ys : list Z) :
  y <= foldr Z.max y ys /\ Forall (fun x => x <= foldr Z.max y ys) ys.
Proof.
  induction ys as [|x ys [IH1 IH2]]; simpl; [split; [lia|constructor]|].
  split; [lia|]. constructor; [lia|].
  eapply Forall_impl; [exact IH2|]. simpl. intros; lia.
Qed.

Lemma foldr_max_elem (y : Z) (ys : list Z) : foldr Z.max y ys ∈ y :: ys.
Proof.
  induction ys as [|x ys IH]; simpl; [left|].
  destruct (Z.max_spec x (foldr Z.max y ys)) as [[_ ->] | [_ ->]].
  - apply elem_of_cons in IH as [-> | IH]; [left | do 2 right; done].
  - right. left.
Qed.

Lemma year_max_spec df last :
  year_max df = Some last ->
  (exists r, r ∈ df /\ year r = last) /\ (forall r, r ∈ df -> year r <= last).
Proof.
  unfold year_max. destruct (year <$> df) as [|y ys] eqn:E; [done|].
  intros [= <-]. split.
  - assert (foldr Z.max y ys ∈ year <$> df) as H by (rewrite E; apply foldr_max_elem).
    apply list_elem_of_fmap in H as (r & Hr & Hin). eauto.
  - intros r Hr. assert (year r ∈ y :: ys) as H.
    { rewrite <- E. by apply list_elem_of_fmap_2. }
    destruct (foldr_max_ge y ys) as [H1 H2].
    apply elem_of_cons in H as [-> | H]; [done|].
    rewrite Forall_forall in H2. by apply H2.
Qed.

(** X2: [last] is a year of the table and no row has a later one; there is
    no [last] only when the table is empty. *)
Theorem year_max_is_max (df : PopulationTable) :
  match year_max df with
  | Some last => (exists r, r ∈ df /\ year r = last) /\ (forall r, r ∈ df -> year r <= last)
  | None => df = []
  end.
Proof.
  destruct (year_max df) as [last|] eqn:E; [by apply year_max_spec|].
  unfold year_max in E. destruct df; [done|]. simpl in E. done.
Qed.

Lemma NoDup_fmap_elem {A B} (f : A -> B) (l : list A) x y :
  NoDup (f <$> l) -> x ∈ l -> y ∈ l -> f x = f y -> x = y.
Proof.
  induction l as [|a l IH]; [by intros _ ?%elem_of_nil|].
  rewrite fmap_cons. intros [Ha Hnd]%NoDup_cons Hx Hy E.
  apply elem_of_cons in Hx as [->|Hx]; apply elem_of_cons in Hy as [->|Hy].
  - done.
  - destruct Ha. rewrite E. apply list_elem_of_fmap. by exists y.
  - destruct Ha. rewrite <- E. apply list_elem_of_fmap. by exists x.
  - by apply IH.
Qed.

Lemma national_rows_sorted (df : PopulationTable) :
  national_rows df ≡ₚ filter (fun r => region r = national) df /\
  StronglySorted (fun a b => year a <= year b) (national_rows df).
Proof.
  unfold national_rows. split; [apply sort_by_perm|].
  eapply (StronglySorted_weaken _ _ (fun _ => True)).
  - intros x y _ _ H. apply bool_decide_eq_true in H. exact H.
  - by apply Forall_forall.
  - apply (sort_by_StronglySorted (fun a b : PopulationRecord => bool_decide (year a <= year b))).
    + intros x y. rewrite !bool_decide_eq_true. lia.
    + intros x y z. rewrite !bool_decide_eq_true. lia.
Qed.

(** X10: the national trend and its forecast do not depend on the order of
    the rows of the upload, as long as no two national rows share a year:
    the rows are sorted by year before the forecast is made. *)
Theorem forecast_view_row_order (df1 df2 : PopulationTable) :
  df1 ≡ₚ df2 ->
  NoDup (year <$> filter (fun r => region r = national) df1) ->
  national_rows df1 = national_rows df2 /\ forecast_view df1 = forecast_view df2.
Proof.
  intros Hperm Hnd.
  assert (national_rows df1 = national_rows df2) as E; [|by unfold forecast_view; rewrite E].
  destruct (national_rows_sorted df1) as [Hp1 Hs1], (national_rows_sorted df2) as [Hp2 Hs2].
  assert (national_rows df1 ≡ₚ national_rows df2) as Hp by (by rewrite Hp1, Hp2, Hperm).
  eapply StronglySorted_unique_strong; [|exact Hs1|exact Hs2|exact Hp].
  intros x1 x2 Hx1 Hx2 H12 H21. rewrite <- Hp, Hp1 in Hx2. rewrite Hp1 in Hx1.
  apply (NoDup_fmap_elem year _ _ _ Hnd Hx1 Hx2). cbv beta in *. lia.
Qed.

(** The theorem of X10 on the example with its first two rows swapped. *)
Lemma forecast_view_row_order_witness :
  example_national ≡ₚ example_national_shuffled /\
  NoDup (year <$> filter (fun r => region r = national) example_national) /\
  forecast_view example_national = forecast_view example_national_shuffled.
Proof.
  assert (example_national ≡ₚ example_national_shuffled) as H1 by apply perm_swap.
  assert (NoDup (year <$> filter (fun r => region r = national) example_national)) as H2.
  { apply (bool_decide_unpack _). vm_compute. reflexivity. }
  split; [exact H1|]. split; [exact H2|].
  exact (proj2 (forecast_view_row_order example_national example_national_shuffled H1 H2)).
Defined.

(** *** Series and their difference *)
Lemma elem_of_population_by_region y df g p :
  (g, p) ∈ population_by_region (Some y) df <-> population_at df g y p.
Proof.
  unfold population_by_region, population_at. rewrite list_elem_of_fmap. split.
  - intros (r & [= -> ->] & Hr). apply list_elem_of_filter in Hr as [[= Hy] Hr].
    exists r. done.
  - intros (r & Hr & <- & <- & <-). exists r. split; [done|].
    apply list_elem_of_filter. done.
Qed.

Lemma population_by_region_labels y df g :
  g ∈ (population_by_region y df).*1 -> exists r, r ∈ df /\ region r = g.
Proof.
  unfold population_by_region. rewrite <- list_fmap_compose.
  intros H. apply list_elem_of_fmap in H as (r & -> & Hr).
  apply list_elem_of_filter in Hr as [_ Hr]. eauto.
Qed.

Lemma population_by_region_NoDup y df :
  unique_keys df -> NoDup (population_by_region (Some y) df).*1.
Proof.
  unfold unique_keys, population_by_region. rewrite <- list_fmap_compose.
  induction df as [|r df IH]; simpl; [constructor|].
  rewrite NoDup_cons. intros [Hr Hdf]. rewrite filter_cons.
  case_decide as Hy; [|by apply IH]. simpl. apply NoDup_cons. split; [|by apply IH].
  intros Hin. apply Hr. apply list_elem_of_fmap in Hin as (r' & Heq & Hr').
  apply list_elem_of_filter in Hr' as [Hy' Hr']. simpl in Heq.
  apply list_elem_of_fmap. exists r'. split; [|done]. congruence.
Qed.

Lemma elem_of_values_at {V} (l : string) (s : series V) (x : V) :
  x ∈ values_at l s <-> (l, x) ∈ s.
Proof.
  unfold values_at. rewrite list_elem_of_fmap. split.
  - intros ([l' x'] & -> & H). apply list_elem_of_filter in H as [H1 H2].
    simpl in H1. by subst.
  - intros H. exists (l, x). split; [done|]. apply list_elem_of_filter. done.
Qed.

Lemma values_at_nil {V} (l : string) (s : series V) :
  values_at l s = [] <-> l ∉ s.*1.
Proof.
  split.
  - intros E Hin. apply list_elem_of_fmap in Hin as ([l' x] & Hl & H).
    simpl in Hl. subst l'. apply (elem_of_values_at l s x) in H. rewrite E in H. by apply elem_of_nil in H.
  - intros Hn. destruct (values_at l s) as [|x xs] eqn:E; [done|].
    destruct Hn. assert (x ∈ values_at l s) as H by (rewrite E; left).
    apply elem_of_values_at in H. apply list_elem_of_fmap. by exists (l, x).
Qed.


Lemma population_by_region_label y df g :
  g ∈ (population_by_region (Some y) df).*1 <-> has_row df g y.
Proof.
  unfold has_row. rewrite list_elem_of_fmap. split.
  - intros ([g' p] & -> & H). apply elem_of_population_by_region in H as (r & ? & ? & ? & ?).
    eauto.
  - intros (r & Hr & Hg & Hy). exists (g, population r). split; [done|].
    apply elem_of_population_by_region. exists r. done.
Qed.

Lemma values_at_unique {V} (l : string) (s : series V) :
  NoDup s.*1 -> (length (values_at l s) <= 1)%nat.
Proof.
  unfold values_at. induction s as [|[g v] s IH]; [simpl; lia|].
  rewrite fmap_cons. cbn [fst]. intros [Hg Hnd]%NoDup_cons. rewrite filter_cons. cbn [fst].
  destruct (decide (g = l)) as [->|Hne]; [|by apply IH].
  rewrite fmap_cons, length_cons.
  assert (filter (fun e : string * V => e.1 = l) s = []) as ->; [|simpl; lia].
  destruct (filter _ s) as [|e s'] eqn:E; [done|].
  assert (e ∈ filter (fun e : string * V => e.1 = l) s) as He by (rewrite E; left).
  apply list_elem_of_filter in He as [<- He]. destruct Hg. apply list_elem_of_fmap. by exists e.
Qed.


Section JoinLabel.
Variable sub : Z -> Z -> Q.

Lemma elem_of_join_label_Some a b l g d :
  (g, Some d) ∈ join_label sub a b l <->
  g = l /\ exists x y, (l, x) ∈ a /\ (l, y) ∈ b /\ d = sub x y.
Proof.
  unfold join_label.
  destruct (values_at l a) as [|x0 xs] eqn:Ea.
  { split.
    - intros H. apply list_elem_of_fmap in H as (? & [=] & _).
    - intros (_ & x & y & Hx & _). apply elem_of_values_at in Hx.
      rewrite Ea in Hx. by apply elem_of_nil in Hx. }
  destruct (values_at l b) as [|y0 ys] eqn:Eb.
  { split.
    - intros H. apply list_elem_of_fmap in H as (? & [=] & _).
    - intros (_ & x & y & _ & Hy & _). apply elem_of_values_at in Hy.
      rewrite Eb in Hy. by apply elem_of_nil in Hy. }
  rewrite <- Ea, <- Eb. rewrite list_elem_of_bind. split.
  - intros (x & Hin & Hx). apply list_elem_of_bind in Hin as (y & Hin & Hy).
    apply list_elem_of_singleton in Hin as [= -> ->].
    split; [done|]. exists x, y. rewrite <- !elem_of_values_at. done.
  - intros (-> & x & y & Hx & Hy & ->). exists x. rewrite elem_of_values_at.
    split; [|done]. apply list_elem_of_bind. exists y. rewrite elem_of_values_at.
    split; [|done]. by apply list_elem_of_singleton.
Qed.

Lemma elem_of_join_label_None a b l g :
  (g, None) ∈ join_label sub a b l <->
  g = l /\ ((l ∈ a.*1 /\ (l ∉ b.*1)) \/ ((l ∉ a.*1) /\ l ∈ b.*1)).
Proof.
  unfold join_label.
  destruct (values_at l a) as [|x0 xs] eqn:Ea.
  { pose proof (proj1 (values_at_nil l a) Ea) as Ha.
    destruct (values_at l b) as [|y0 ys] eqn:Eb.
    - pose proof (proj1 (values_at_nil l b) Eb) as Hb. split.
      + by intros ?%elem_of_nil.
      + intros (_ & [[? _] | [_ ?]]); done.
    - assert (l ∈ b.*1) as Hb.
      { destruct (decide (l ∈ b.*1)) as [|Hn]; [done|].
        apply values_at_nil in Hn. congruence. }
      split.
      + intros H. apply list_elem_of_fmap in H as (? & [= ->] & _). tauto.
      + intros (-> & _). apply list_elem_of_fmap. exists y0. split; [done|left]. }
  assert (l ∈ a.*1) as Ha.
  { destruct (decide (l ∈ a.*1)) as [|Hn]; [done|].
    apply values_at_nil in Hn. congruence. }
  destruct (values_at l b) as [|y0 ys] eqn:Eb.
  - pose proof (proj1 (values_at_nil l b) Eb) as Hb. split.
    + intros H. apply list_elem_of_fmap in H as (? & [= ->] & _). tauto.
    + intros (-> & _). apply list_elem_of_fmap. exists x0. split; [done|left].
  - assert (l ∈ b.*1) as Hb.
    { destruct (decide (l ∈ b.*1)) as [|Hn]; [done|].
      apply values_at_nil in Hn. congruence. }
    split.
    + intros H. apply list_elem_of_bind in H as (x & H & _).
      apply list_elem_of_bind in H as (y & H & _).
      by apply list_elem_of_singleton in H.
    + intros (_ & [[_ ?] | [? _]]); done.
Qed.

Lemma join_label_labels a b l g : g ∈ (join_label sub a b l).*1 -> g = l.
Proof.
  unfold join_label. intros H. apply list_elem_of_fmap in H as ([g' v] & -> & H). simpl.
  destruct (values_at l a) as [|x0 xs].
  { apply list_elem_of_fmap in H as (? & [=] & _). done. }
  destruct (values_at l b) as [|y0 ys].
  { apply list_elem_of_fmap in H as (? & [=] & _). done. }
  apply list_elem_of_bind in H as (x & H & _). apply list_elem_of_bind in H as (y & H & _).
  by apply list_elem_of_singleton in H as [= -> _].
Qed.

Lemma join_label_inhabited a b l :
  l ∈ a.*1 \/ l ∈ b.*1 -> l ∈ (join_label sub a b l).*1.
Proof.
  intros H. unfold join_label.
  destruct (values_at l a) as [|x0 xs] eqn:Ea.
  { apply values_at_nil in Ea. destruct H as [H|H]; [done|].
    destruct (values_at l b) as [|y0 ys] eqn:Eb.
    - apply values_at_nil in Eb. done.
    - simpl. left. }
  destruct (values_at l b) as [|y0 ys] eqn:Eb; simpl; left.
Qed.

Lemma join_label_unique (a b : series Z) l :
  NoDup a.*1 -> NoDup b.*1 -> (length (join_label sub a b l) <= 1)%nat.
Proof.
  intros Ha Hb. pose proof (values_at_unique l a Ha) as Hla.
  pose proof (values_at_unique l b Hb) as Hlb. unfold join_label.
  destruct (values_at l a) as [|x [|??]], (values_at l b) as [|y [|??]];
    simpl in *; lia.
Qed.

Lemma join_labels_NoDup (a b : series Z) (ls : list string) :
  NoDup a.*1 -> NoDup b.*1 -> NoDup ls -> NoDup (ls ≫= join_label sub a b).*1.
Proof.
  intros Ha Hb. induction ls as [|l ls IH]; [constructor|].
  intros [Hl Hnd]%NoDup_cons. cbn [mbind list_bind]. rewrite fmap_app.
  apply NoDup_app. split; [|split].
  - pose proof (join_label_unique a b l Ha Hb) as Hlen.
    destruct (join_label sub a b l) as [|e [|??]]; simpl in *; [constructor| |lia].
    apply NoDup_singleton.
  - intros g Hg Hin. apply (join_label_labels a b) in Hg. subst g.
    apply list_elem_of_fmap in Hin as ([g v] & -> & Hin).
    apply list_elem_of_bind in Hin as (l' & Hin & Hl').
    assert (g = l') as ->.
    { apply (join_label_labels a b). apply list_elem_of_fmap. by exists (g, v). }
    done.
  - by apply IH.
Qed.
End JoinLabel.

Lemma zip_sub_labels (a b : series Z) :
  a.*1 = b.*1 -> (zip_with (fun x y => (x.1, Some (sub_int64 x.2 y.2))) a b).*1 = a.*1.
Proof.
  revert b. induction a as [|x a IH]; intros [|y b]; simpl; try done.
  intros [= Hxy Hab]. f_equal. by apply IH.
Qed.

Lemma elem_of_zip_sub (a b : series Z) g d :
  a.*1 = b.*1 -> NoDup a.*1 ->
  (g, Some d) ∈ zip_with (fun x y => (x.1, Some (sub_int64 x.2 y.2))) a b <->
  exists x y, (g, x) ∈ a /\ (g, y) ∈ b /\ d = sub_int64 x y.
Proof.
  revert b. induction a as [|[g1 x] a IH]; intros [|[g2 y] b]; simpl; try done.
  { intros _ _. split; [by intros ?%elem_of_nil|].
    intros (x & y & Hx & _). by apply elem_of_nil in Hx. }
  intros [= <- Hab] [Hg1 Hnd]%NoDup_cons.
  rewrite elem_of_cons, (IH b Hab Hnd). split.
  - intros [[= -> ->] | (x' & y' & Hx & Hy & ->)].
    + exists x, y. split; [left|]. split; [left|done].
    + exists x', y'. split; [by right|]. split; [by right|done].
  - intros (x' & y' & Hx & Hy & ->).
    apply elem_of_cons in Hx as [Hx | Hx]; apply elem_of_cons in Hy as [Hy | Hy].
    + left. congruence.
    + destruct Hg1. rewrite Hab. apply list_elem_of_fmap. exists (g, y').
      split; [simpl; congruence | done].
    + destruct Hg1. apply list_elem_of_fmap. exists (g, x').
      split; [simpl; congruence | done].
    + right. eauto.
Qed.

Lemma zip_sub_no_None (a b : series Z) g :
  (g, None) ∉ zip_with (fun x y => (x.1, Some (sub_int64 x.2 y.2))) a b.
Proof.
  revert b. induction a as [|x a IH]; intros [|y b]; simpl; try by intros ?%elem_of_nil.
  intros [H|H]%elem_of_cons; [done|]. by apply (IH b).
Qed.

Lemma elem_of_series_sub_Some (a b : series Z) g d :
  NoDup a.*1 ->
  (g, Some d) ∈ series_sub a b <->
  exists x y, (g, x) ∈ a /\ (g, y) ∈ b /\ d = series_sub_value a b x y.
Proof.
  intros Hnd. unfold series_sub, series_sub_value. case_decide as Hab.
  - rewrite bool_decide_eq_true_2 by done. by apply elem_of_zip_sub.
  - rewrite bool_decide_eq_false_2 by done. rewrite list_elem_of_bind. split.
    + intros (l & Hin & _). apply elem_of_join_label_Some in Hin as (-> & H). done.
    + intros (x & y & Hx & Hy & ->). exists g. split.
      * apply elem_of_join_label_Some. split; [done|]. eauto.
      * apply elem_of_sort_by, elem_of_remove_dups, elem_of_app. left.
        apply list_elem_of_fmap. by exists (g, x).
Qed.

Lemma elem_of_series_sub_None (a b : series Z) l :
  (l, None) ∈ series_sub a b <->
  (l ∈ a.*1 /\ (l ∉ b.*1)) \/ ((l ∉ a.*1) /\ l ∈ b.*1).
Proof.
  unfold series_sub. case_decide as Hab.
  - split; [by intros ?%zip_sub_no_None|]. rewrite Hab. tauto.
  - rewrite list_elem_of_bind. split.
    + intros (l' & Hin & _). by apply elem_of_join_label_None in Hin as (-> & H).
    + intros H. exists l. split; [by apply elem_of_join_label_None|].
      apply elem_of_sort_by, elem_of_remove_dups, elem_of_app. tauto.
Qed.

Lemma series_sub_labels (a b : series Z) g :
  g ∈ (series_sub a b).*1 <-> g ∈ a.*1 \/ g ∈ b.*1.
Proof.
  unfold series_sub. case_decide as Hab.
  - rewrite zip_sub_labels by done. rewrite <- Hab. tauto.
  - set (sub := if same_labels a b then sub_int64 else sub_float64).
    rewrite list_elem_of_fmap. split.
    + intros ([g' v] & -> & H). simpl. apply list_elem_of_bind in H as (l & H & Hl).
      apply elem_of_sort_by, elem_of_remove_dups, elem_of_app in Hl.
      assert (g' = l) as ->; [|done].
      apply (join_label_labels sub a b l). apply list_elem_of_fmap. by exists (g', v).
    + intros H. assert (Hin := join_label_inhabited sub a b g H).
      apply list_elem_of_fmap in Hin as ([g' v] & Hg & Hin). simpl in Hg. subst g'.
      exists (g, v). split; [done|]. apply list_elem_of_bind. exists g. split; [done|].
      by apply elem_of_sort_by, elem_of_remove_dups, elem_of_app.
Qed.

Lemma series_sub_NoDup (a b : series Z) :
  NoDup a.*1 -> NoDup b.*1 -> NoDup (series_sub a b).*1.
Proof.
  intros Ha Hb. unfold series_sub. case_decide as Hab.
  - by rewrite zip_sub_labels.
  - apply join_labels_NoDup; [done..|].
    rewrite sort_by_perm. apply NoDup_remove_dups.
Qed.

(** Where both arithmetics are exact. *)
Lemma sub_int64_exact x y : fits_int64 (x - y) -> sub_int64 x y = inject_Z (x - y).
Proof. intros H. unfold sub_int64. by rewrite wrap64_id. Qed.

Lemma sub_float64_exact x y :
  Z.abs x < 2 ^ 53 -> Z.abs y < 2 ^ 53 -> Z.abs (x - y) < 2 ^ 53 ->
  sub_float64 x y = inject_Z (x - y).
Proof.
  intros Hx Hy Hxy. unfold sub_float64. rewrite !f64_of_int_exact by done.
  by apply f64_sub_int.
Qed.

Lemma series_sub_value_exact a b x y :
  Z.abs x < 2 ^ 53 -> Z.abs y < 2 ^ 53 -> Z.abs (x - y) < 2 ^ 53 ->
  series_sub_value a b x y = inject_Z (x - y).
Proof.
  intros Hx Hy Hxy. unfold series_sub_value.
  assert (sub_int64 x y = inject_Z (x - y)) as Hi.
  { apply sub_int64_exact. unfold fits_int64. lia. }
  case_bool_decide; [done|]. destruct (same_labels a b); [done|].
  by apply sub_float64_exact.
Qed.

Lemma series_drop_Ok {V} (l : string) (s : series V) :
  l ∈ s.*1 -> series_drop l s = Ok (filter (fun e => e.1 <> l) s).
Proof. intros H. unfold series_drop. by rewrite bool_decide_eq_true_2. Qed.

Lemma series_drop_Raise {V} (l : string) (s : series V) :
  l ∉ s.*1 -> series_drop l s = Raise (KeyError [l]).
Proof. intros H. unfold series_drop. by rewrite bool_decide_eq_false_2. Qed.

Lemma sorted_nan_last (delta : series (option Q)) g :
  StronglySorted value_desc delta -> (g, None) ∈ delta ->
  exists g', last delta = Some (g', None).
Proof.
  intros Hs Hin. destruct (last delta) as [[g' v]|] eqn:El.
  2:{ apply last_None in El. subst. by apply elem_of_nil in Hin. }
  apply last_Some in El as [l ->]. exists g'.
  apply elem_of_app in Hin as [Hin | Hin].
  - assert (value_desc (g, None) (g', v)) as Hv.
    { eapply StronglySorted_app_1_elem_of; [exact Hs | exact Hin | left]. }
    unfold value_desc in Hv. simpl in Hv. destruct v; done.
  - apply list_elem_of_singleton in Hin. by injection Hin as -> <-.
Qed.

Lemma last_in_tail_n {A} (n : nat) (l : list A) (x : A) :
  (0 < n)%nat -> last l = Some x -> x ∈ tail_n n l.
Proof.
  intros Hn Hl. rewrite <- (last_tail_n n l Hn) in Hl.
  apply last_Some in Hl as [l' ->]. apply elem_of_app. right. left.
Qed.

(** *** The view *)

Section DeltaView.
Variable sort_values : forall A : Type, (A -> option Q) -> list A -> list A.

Lemma delta_view_eq df last :
  year_max df = Some last ->
  delta_view sort_values df =
    dropped ← series_drop national
                (series_sub (population_by_region (Some last) df)
                            (population_by_region (Some (last - 4)) df));
    Ok (sort_values_desc sort_values dropped).
Proof. intros H. unfold delta_view. rewrite H. done. Qed.

(** C9: when no row of the table belongs to the national aggregate, the
    five-year view has no output: dropping the national label raises
    [KeyError], whatever the sort would do. *)
Theorem delta_view_without_national (df : PopulationTable) :
  (forall r, r ∈ df -> region r <> national) ->
  delta_view sort_values df = Raise (KeyError [national]).
Proof.
  intros Hnone. unfold delta_view. rewrite series_drop_Raise; [done|].
  intros Hin. apply series_sub_labels in Hin as [Hin | Hin];
    apply population_by_region_labels in Hin as (r & Hr & Hreg); by apply (Hnone r).
Qed.

Hypothesis sort_values_sorts : sorts_desc sort_values.

Lemma sort_values_desc_sorted (s : series (option Q)) :
  StronglySorted value_desc (sort_values_desc sort_values s).
Proof. unfold sort_values_desc. apply (sort_values_sorts _ snd s). Qed.

Lemma sort_values_desc_perm (s : series (option Q)) :
  sort_values_desc sort_values s ≡ₚ s.
Proof. unfold sort_values_desc. apply (sort_values_sorts _ snd s). Qed.

Lemma elem_of_sort_values_desc (s : series (option Q)) e :
  e ∈ sort_values_desc sort_values s <-> e ∈ s.
Proof. by rewrite sort_values_desc_perm. Qed.

Lemma delta_view_NoDup (df : PopulationTable) delta :
  unique_keys df -> delta_view sort_values df = Ok delta -> NoDup delta.*1.
Proof.
  intros Hk H. destruct (year_max df) as [last|] eqn:Hlast.
  - rewrite (delta_view_eq _ _ Hlast) in H.
    apply result_bind_Ok in H as (dropped & Hd & [= <-]).
    rewrite sort_values_desc_perm.
    unfold series_drop in Hd. case_bool_decide; [|done]. injection Hd as <-.
    eapply sublist_NoDup; [|apply fmap_sublist, sublist_filter].
    apply series_sub_NoDup; by apply population_by_region_NoDup.
  - unfold year_max in Hlast. destruct df as [|r df]; [|done].
    by vm_compute in H.
Qed.

(** What the view holds, for a table with one row per region and year in
    which the national aggregate has a row in one of the two years. *)
Lemma delta_view_content (df : PopulationTable) (last : Z) :
  year_max df = Some last ->
  unique_keys df ->
  (exists r, r ∈ df /\ region r = national /\ (year r = last \/ year r = last - 4)) ->
  exists delta,
    delta_view sort_values df = Ok delta /\
    (forall g d, (g, Some d) ∈ delta <->
                 g <> national /\
                 exists p1 p0, population_at df g last p1 /\
                               population_at df g (last - 4) p0 /\
                               d = delta_value df last p1 p0) /\
    (forall g, (g, None) ∈ delta <->
               g <> national /\
               ((has_row df g last /\ ~ has_row df g (last - 4)) \/
                (~ has_row df g last /\ has_row df g (last - 4)))) /\
    StronglySorted value_desc delta /\
    (national ∉ delta.*1) /\
    top3_rising delta = (take 3 delta).*1 /\
    top3_declining delta = (drop (length delta - 3) delta).*1.
Proof.
  intros Hmax Hkeys (r & Hr & Hreg & Hyear).
  rewrite (delta_view_eq df last Hmax). unfold delta_value.
  set (a := population_by_region (Some last) df).
  set (b := population_by_region (Some (last - 4)) df).
  assert (national ∈ (series_sub a b).*1) as Hnat.
  { apply series_sub_labels.
    destruct Hyear as [Hy | Hy]; [left | right]; apply population_by_region_label;
      exists r; done. }
  rewrite (series_drop_Ok _ _ Hnat). cbn [mbind result_bind].
  eexists. split; [done|]. split; [|split; [|split; [|split; [|done]]]].
  - intros g d. rewrite elem_of_sort_values_desc, list_elem_of_filter.
    cbn [fst]. rewrite elem_of_series_sub_Some by by apply population_by_region_NoDup.
    unfold a, b. split.
    + intros (Hg & x & y & Hx & Hy & ->). split; [done|]. exists x, y.
      by rewrite <- !elem_of_population_by_region.
    + intros (Hg & x & y & Hx & Hy & ->). split; [done|]. exists x, y.
      by rewrite !elem_of_population_by_region.
  - intros g. rewrite elem_of_sort_values_desc, list_elem_of_filter.
    cbn [fst]. rewrite elem_of_series_sub_None. unfold a, b.
    by rewrite !population_by_region_label.
  - apply sort_values_desc_sorted.
  - intros Hin. apply list_elem_of_fmap in Hin as ([g v] & Hg & Hin). simpl in Hg. subst g.
    apply elem_of_sort_values_desc, list_elem_of_filter in Hin as [Hne _]. done.
Qed.

(** X11: the two top-3 lists of the delta view.  With one to five regions
    in the view some region is listed both as rising and as declining; with
    six or more regions, and one row per region and year, no region is in
    both lists. *)
Theorem top3_overlap (df : PopulationTable) (delta : series (option Q)) :
  delta_view sort_values df = Ok delta ->
  (delta <> [] -> (length delta <= 5)%nat ->
   exists g, g ∈ top3_rising delta /\ g ∈ top3_declining delta) /\
  (unique_keys df -> (6 <= length delta)%nat ->
   forall g, g ∈ top3_rising delta -> g ∉ top3_declining delta).
Proof.
  intros Hview. unfold top3_rising, top3_declining, head_n, tail_n. split.
  - intros Hne Hlen.
    destruct (lookup_lt_is_Some_2 delta (length delta - 3)) as [[g v] Hg].
    { destruct delta; [done|]. simpl. lia. }
    exists g. split; apply list_elem_of_fmap; exists (g, v); (split; [done|]).
    + apply list_elem_of_lookup. exists (length delta - 3)%nat.
      rewrite lookup_take_lt by lia. done.
    + apply list_elem_of_lookup. exists 0%nat. rewrite lookup_drop.
      by rewrite Nat.add_0_r.
  - intros Hk Hlen g Hr Hd. pose proof (delta_view_NoDup _ _ Hk Hview) as Hnd.
    rewrite fmap_take in Hr. rewrite fmap_drop in Hd.
    apply list_elem_of_lookup in Hr as [i Hi]. apply list_elem_of_lookup in Hd as [j Hj].
    rewrite lookup_drop in Hj.
    assert (i < 3)%nat as Hi3.
    { apply lookup_lt_Some in Hi. rewrite length_take in Hi. lia. }
    rewrite lookup_take_lt in Hi by done.
    pose proof (NoDup_lookup _ _ _ _ Hnd Hi Hj). lia.
Qed.

(** X12: a region without a row in the base year.  When the national
    aggregate is in the view's index, a region that has a row in the last
    year and none four years before is kept in the view with an undefined
    (NaN) delta; undefined deltas are sorted to the end, so the last entry
    of the view is undefined and its region is reported among the top-3
    declining regions. *)
Theorem delta_view_undefined_listed (df : PopulationTable) (last_year : Z) (g : string) :
  year_max df = Some last_year ->
  (exists r, r ∈ df /\ region r = national /\
             (year r = last_year \/ year r = last_year - 4)) ->
  g <> national ->
  (exists r, r ∈ df /\ region r = g /\ year r = last_year) ->
  (forall r, r ∈ df -> region r = g -> year r <> last_year - 4) ->
  exists delta g',
    delta_view sort_values df = Ok delta /\
    (g, None) ∈ delta /\
    last delta = Some (g', None) /\
    g' ∈ top3_declining delta.
Proof.
  intros Hmax (rn & Hrn & Hnat & Hyn) Hg Hlast Hbase.
  rewrite (delta_view_eq df last_year Hmax).
  set (a := population_by_region (Some last_year) df).
  set (b := population_by_region (Some (last_year - 4)) df).
  assert (national ∈ (series_sub a b).*1) as Hn.
  { apply series_sub_labels. destruct Hyn as [Hy | Hy]; [left | right];
      apply population_by_region_label; exists rn; done. }
  rewrite (series_drop_Ok _ _ Hn). cbn [mbind result_bind].
  assert ((g, None) ∈ sort_values_desc sort_values
                        (filter (fun e => e.1 <> national) (series_sub a b)))
    as Hin.
  { apply elem_of_sort_values_desc, list_elem_of_filter. split; [done|].
    apply elem_of_series_sub_None. left. split.
    - by apply population_by_region_label.
    - intros Hb. apply population_by_region_label in Hb as (r & Hr & Hrg & Hry).
      by apply (Hbase r). }
  destruct (sorted_nan_last _ g (sort_values_desc_sorted _) Hin) as [g' Hl].
  eexists _, g'. split; [done|]. split; [exact Hin|]. split; [exact Hl|].
  unfold top3_declining. apply list_elem_of_fmap. exists (g', None). split; [done|].
  apply last_in_tail_n; [lia | done].
Qed.
End DeltaView.

(** On the two example regions every descending sort gives the same view:
    the two deltas differ, so their order is forced. *)
Lemma delta_view_example sort_values :
  sorts_desc sort_values ->
  delta_view sort_values example_regions = Ok [(seoul, Some 30%Q); (busan, Some (-20)%Q)].
Proof.
  intros Hs.
  assert (delta_view sort_values example_regions =
          Ok (sort_values _ snd [(seoul, Some 30%Q); (busan, Some (-20)%Q)])) as ->
    by (vm_compute; reflexivity).
  destruct (Hs _ snd [(seoul, Some 30%Q); (busan, Some (-20)%Q)]) as [Hp Hsorted].
  symmetry in Hp. apply Permutation_length_2_inv in Hp as [E | E]; rewrite E in *; [done|].
  apply StronglySorted_inv in Hsorted as [_ Hall].
  apply Forall_cons in Hall as [Hv _]. by vm_compute in Hv.
Qed.

(** C3: the five-year delta view, for whatever descending sort pandas runs.
    For a table with one row per region and year, in which the national
    aggregate has a row in the last year or four years before, the view
    exists; a region has a defined delta exactly when it is not the
    national aggregate and has a row in both years, the delta being the
    difference of its two populations as the machine subtracts them, which
    is the exact difference for populations and a difference below 2^53 in
    size; a region has an undefined delta exactly when it is not the
    national aggregate and has a row in one of the two years only; no
    region is in the view twice; the view is ordered by falling delta with
    the undefined ones last; the top three rising are its first three
    labels and the top three declining its last three.  For two regions with 50 then 80 and 90 then 70 (and the
    national rows) the view is the first with +30, then the second with
    -20. *)
Theorem delta_view_spec :
  (forall sort_values (df : PopulationTable) (last : Z),
     sorts_desc sort_values ->
     year_max df = Some last ->
     unique_keys df ->
     (exists r, r ∈ df /\ region r = national /\ (year r = last \/ year r = last - 4)) ->
     exists delta,
       delta_view sort_values df = Ok delta /\
       (forall g d, (g, Some d) ∈ delta <->
                    g <> national /\
                    exists p1 p0, population_at df g last p1 /\
                                  population_at df g (last - 4) p0 /\
                                  d = delta_value df last p1 p0) /\
       (forall g, (g, None) ∈ delta <->
                  g <> national /\
                  ((has_row df g last /\ ~ has_row df g (last - 4)) \/
                   (~ has_row df g last /\ has_row df g (last - 4)))) /\
       (forall p1 p0, Z.abs p1 < 2 ^ 53 -> Z.abs p0 < 2 ^ 53 -> Z.abs (p1 - p0) < 2 ^ 53 ->
                      delta_value df last p1 p0 = inject_Z (p1 - p0)) /\
       StronglySorted value_desc delta /\
       (national ∉ delta.*1) /\
       top3_rising delta = (take 3 delta).*1 /\
       top3_declining delta = (drop (length delta - 3) delta).*1 /\
       NoDup delta.*1) /\
  (forall sort_values,
     sorts_desc sort_values ->
     delta_view sort_values example_regions =
       Ok [(seoul, Some 30%Q); (busan, Some (-20)%Q)] /\
     seoul ∈ top3_rising [(seoul, Some 30%Q); (busan, Some (-20)%Q)] /\
     busan ∈ top3_declining [(seoul, Some 30%Q); (busan, Some (-20)%Q)]).
Proof.
  split.
  - intros sort_values df last Hs Hmax Hkeys Hnat.
    destruct (delta_view_content sort_values Hs df last Hmax Hkeys Hnat)
      as (delta & Hv & Hsome & Hnone & Hsorted & Hno & Hr & Hd).
    exists delta. split; [exact Hv|]. split; [exact Hsome|]. split; [exact Hnone|].
    split; [intros p1 p0 H1 H0 H10; by apply series_sub_value_exact|].
    split; [exact Hsorted|]. split; [exact Hno|]. split; [exact Hr|]. split; [exact Hd|].
    by eapply delta_view_NoDup.
  - intros sort_values Hs. split; [by apply delta_view_example|]. split; vm_compute.
    + left.
    + right. left.
Qed.

(** The theorem of C9 on a table with one region only, sorted by the stable
    sort. *)
Lemma delta_view_without_national_witness :
  (forall r, r ∈ example_busan_only -> region r <> national) /\
  delta_view stable_sort_values example_busan_only = Raise (KeyError [national]).
Proof.
  assert (forall r, r ∈ example_busan_only -> region r <> national) as H.
  { intros r Hr. unfold example_busan_only in Hr.
    repeat (apply elem_of_cons in Hr as [-> | Hr]); [discriminate ..| by apply elem_of_nil in Hr]. }
  split; [exact H|]. exact (delta_view_without_national stable_sort_values example_busan_only H).
Defined.

(** The theorem of C3 on the two example regions with the national rows,
    sorted by the stable sort. *)
Lemma delta_view_spec_witness :
  sorts_desc stable_sort_values /\
  year_max example_regions = Some 2022 /\
  unique_keys example_regions /\
  (exists r, r ∈ example_regions /\ region r = national /\ (year r = 2022 \/ year r = 2022 - 4)) /\
  exists delta,
    delta_view stable_sort_values example_regions = Ok delta /\
    (forall g d, (g, Some d) ∈ delta <->
                 g <> national /\
                 exists p1 p0, population_at example_regions g 2022 p1 /\
                               population_at example_regions g (2022 - 4) p0 /\
                               d = delta_value example_regions 2022 p1 p0) /\
    (forall g, (g, None) ∈ delta <->
               g <> national /\
               ((has_row example_regions g 2022 /\ ~ has_row example_regions g (2022 - 4)) \/
                (~ has_row example_regions g 2022 /\ has_row example_regions g (2022 - 4)))) /\
    (forall p1 p0, Z.abs p1 < 2 ^ 53 -> Z.abs p0 < 2 ^ 53 -> Z.abs (p1 - p0) < 2 ^ 53 ->
                   delta_value example_regions 2022 p1 p0 = inject_Z (p1 - p0)) /\
    StronglySorted value_desc delta /\
    (national ∉ delta.*1) /\
    top3_rising delta = (take 3 delta).*1 /\
    top3_declining delta = (drop (length delta - 3) delta).*1 /\
    NoDup delta.*1.
Proof.
  assert (year_max example_regions = Some 2022) as H1 by reflexivity.
  assert (unique_keys example_regions) as H2.
  { unfold unique_keys. apply (bool_decide_unpack _). vm_compute. exact I. }
  assert (exists r, r ∈ example_regions /\ region r = national /\
                    (year r = 2022 \/ year r = 2022 - 4)) as H3.
  { exists (mk_row national 2022 150 0 0). split; [|split; [reflexivity | left; reflexivity]].
    unfold example_regions, example_regions_only. simpl. repeat constructor. }
  split; [exact stable_sort_values_sorts|].
  split; [exact H1|]. split; [exact H2|]. split; [exact H3|].
  exact (proj1 delta_view_spec stable_sort_values example_regions 2022
               stable_sort_values_sorts H1 H2 H3).
Defined.

(** C3 as stated fails: on the two regions alone, without national rows,
    the view raises instead of holding their changes, whatever the sort. *)
Lemma delta_view_regions_only_counterexample :
  year_max example_regions_only = Some 2022 /\
  population_at example_regions_only seoul 2022 80 /\
  population_at example_regions_only seoul (2022 - 4) 50 /\
  (forall sort_values,
     delta_view sort_values example_regions_only = Raise (KeyError [national])).
Proof.
  split; [reflexivity|]. split; [|split; [|intros sort_values; vm_compute; reflexivity]].
  - exists (mk_row seoul 2022 80 0 0). split; [|done].
    unfold example_regions_only. repeat constructor.
  - exists (mk_row seoul 2018 50 0 0). split; [|done].
    unfold example_regions_only. repeat constructor.
Qed.

(** Beyond 2^53 the deltas are the machine's: where a region lacks a row in
    one of the years the subtraction is of floats, and 2^53 + 1 minus 0 is
    2^53. *)
Example delta_value_rounds :
  delta_view stable_sort_values
    [mk_row national 2022 0 0 0; mk_row seoul 2018 0 0 0;
     mk_row seoul 2022 (2 ^ 53 + 1) 0 0; mk_row busan 2022 1 0 0] =
  Ok [(seoul, Some (inject_Z (2 ^ 53))); (busan, None)].
Proof. vm_compute; reflexivity. Qed.

Example delta_view_bar_labels : bar_labels [seoul; busan] = Ok ["Seoul"; "Busan"].
Proof. vm_compute; reflexivity. Qed.

(** X3: the labels of the bar chart exist exactly when every region of the
    view is a key of [REGION_KR2EN], and are then the display names in the
    order of the view; a region that is not a key raises [KeyError]. *)
Theorem bar_labels_spec (index : list string) :
  (forall ens, bar_labels index = Ok ens <->
               Forall2 (fun k en => REGION_KR2EN !! k = Some en) index ens) /\
  (raises (bar_labels index) <-> exists k, k ∈ index /\ REGION_KR2EN !! k = None).
Proof.
  induction index as [|k index [IH1 IH2]]; cbn [bar_labels].
  - split.
    + intros ens. split; [intros [= <-]; constructor | by inversion 1].
    + split; [by intros [e ?] | by intros (k & ?%elem_of_nil & _)].
  - destruct (REGION_KR2EN !! k) as [en|] eqn:Hk.
    + split.
      * intros ens. split.
        -- intros H. apply result_bind_Ok in H as (ens' & H & [= <-]).
           constructor; [done|]. by apply IH1.
        -- inversion 1 as [|? en' ? ens' Hen Hrest]; subst.
           apply IH1 in Hrest. rewrite Hrest. simpl. congruence.
      * split.
        -- intros [e H]. apply result_bind_Raise in H as [H | (? & _ & [=])].
           destruct (proj1 IH2) as (k' & Hin & Hnone); [by exists e|].
           exists k'. split; [by right | done].
        -- intros (k' & Hin & Hnone). apply elem_of_cons in Hin as [-> | Hin]; [congruence|].
           destruct (proj2 IH2) as [e He]; [by exists k'|]. exists e. by rewrite He.
    + split.
      * intros ens. split; [done|]. inversion 1; congruence.
      * split; [|intros _; by eexists]. intros _. exists k. split; [left | done].
Qed.


(** The theorem of X11 on the two regions of the example: Seoul is first and
    Busan last, and both lists hold both. *)
Lemma top3_overlap_witness :
  sorts_desc stable_sort_values /\
  delta_view stable_sort_values example_regions =
    Ok [(seoul, Some 30%Q); (busan, Some (-20)%Q)] /\
  exists g, g ∈ top3_rising [(seoul, Some 30%Q); (busan, Some (-20)%Q)] /\
            g ∈ top3_declining [(seoul, Some 30%Q); (busan, Some (-20)%Q)].
Proof.
  assert (delta_view stable_sort_values example_regions =
          Ok [(seoul, Some 30%Q); (busan, Some (-20)%Q)]) as H
    by (vm_compute; reflexivity).
  split; [exact stable_sort_values_sorts|]. split; [exact H|].
  apply (proj1 (top3_overlap stable_sort_values stable_sort_values_sorts
                  example_regions _ H));
    [discriminate | simpl; lia].
Defined.

(** The theorem of X12 on the example with a row of Sejong for 2022 only. *)
Lemma delta_view_undefined_listed_witness :
  sorts_desc stable_sort_values /\
  year_max example_new_region = Some 2022 /\
  (exists r, r ∈ example_new_region /\ region r = national /\
             (year r = 2022 \/ year r = 2022 - 4)) /\
  sejong <> national /\
  (exists r, r ∈ example_new_region /\ region r = sejong /\ year r = 2022) /\
  (forall r, r ∈ example_new_region -> region r = sejong -> year r <> 2022 - 4) /\
  exists delta g',
    delta_view stable_sort_values example_new_region = Ok delta /\
    (sejong, None) ∈ delta /\
    last delta = Some (g', None) /\
    g' ∈ top3_declining delta.
Proof.
  assert (year_max example_new_region = Some 2022) as H1 by (vm_compute; reflexivity).
  assert (exists r, r ∈ example_new_region /\ region r = national /\
                    (year r = 2022 \/ year r = 2022 - 4)) as H2.
  { exists (mk_row national 2022 150 0 0). split; [|split; [reflexivity|left; reflexivity]].
    apply (list_elem_of_lookup_2 _ 5%nat). reflexivity. }
  assert (sejong <> national) as H3 by discriminate.
  assert (exists r, r ∈ example_new_region /\ region r = sejong /\ year r = 2022) as H4.
  { exists (mk_row sejong 2022 30 0 0). split; [|split; reflexivity].
    apply (list_elem_of_lookup_2 _ 6%nat). reflexivity. }
  assert (forall r, r ∈ example_new_region -> region r = sejong -> year r <> 2022 - 4) as H5.
  { apply (proj1 (Forall_forall (fun r => region r = sejong -> year r <> 2022 - 4) _)).
    apply (bool_decide_unpack _). vm_compute. reflexivity. }
  split; [exact stable_sort_values_sorts|].
  split; [exact H1|]. split; [exact H2|]. split; [exact H3|]. split; [exact H4|].
  split; [exact H5|].
  exact (delta_view_undefined_listed stable_sort_values stable_sort_values_sorts
           example_new_region 2022 sejong H1 H2 H3 H4 H5).
Defined.

(** ** The year-over-year changes *)

(** *** The order on strings *)
Lemma ascii_compare_refl a : Ascii.compare a a = Eq.
Proof. unfold Ascii.compare. apply N.compare_refl. Qed.

Lemma ascii_compare_lt_trans a b c :
  Ascii.compare a b = Lt -> Ascii.compare b c = Lt -> Ascii.compare a c = Lt.
Proof. unfold Ascii.compare. rewrite !N.compare_lt_iff. lia. Qed.

Lemma string_compare_refl s : String.compare s s = Eq.
Proof. induction s as [|a s IH]; simpl; [done|]. by rewrite ascii_compare_refl. Qed.

Lemma string_compare_lt_trans s1 s2 s3 :
  String.compare s1 s2 = Lt -> String.compare s2 s3 = Lt -> String.compare s1 s3 = Lt.
Proof.
  revert s2 s3. induction s1 as [|a s1 IH]; intros [|b s2] [|c s3]; simpl; try done.
  destruct (Ascii.compare a b) eqn:Hab; [|clear IH|done];
    destruct (Ascii.compare b c) eqn:Hbc; try done.
  - apply Ascii.compare_eq_iff in Hab as ->. rewrite Hbc. apply IH.
  - apply Ascii.compare_eq_iff in Hab as ->. by rewrite Hbc.
  - apply Ascii.compare_eq_iff in Hbc as <-. by rewrite Hab.
  - by rewrite (ascii_compare_lt_trans a b c).
Qed.

Lemma string_compare_gt_lt s1 s2 : String.compare s1 s2 = Gt -> String.compare s2 s1 = Lt.
Proof. intros H. rewrite String.compare_antisym, H. done. Qed.

Lemma string_leb_total s1 s2 : String.leb s1 s2 = true \/ String.leb s2 s1 = true.
Proof.
  unfold String.leb. destruct (String.compare s1 s2) eqn:E; auto.
  right. by rewrite (string_compare_gt_lt _ _ E).
Qed.

Lemma region_year_le_total a b : region_year_le a b = true \/ region_year_le b a = true.
Proof.
  unfold region_year_le. destruct (String.compare (region a.2) (region b.2)) eqn:E.
  - apply String.compare_eq_iff in E. rewrite <- E, string_compare_refl.
    destruct (decide (year a.2 <= year b.2)); [left | right]; apply bool_decide_eq_true; lia.
  - by left.
  - right. by rewrite (string_compare_gt_lt _ _ E).
Qed.

Lemma region_year_le_trans a b c :
  region_year_le a b = true -> region_year_le b c = true -> region_year_le a c = true.
Proof.
  unfold region_year_le.
  destruct (String.compare (region a.2) (region b.2)) eqn:Eab; [| |done];
    destruct (String.compare (region b.2) (region c.2)) eqn:Ebc; try done.
  - apply String.compare_eq_iff in Eab. rewrite Eab, Ebc. rewrite !bool_decide_eq_true. lia.
  - apply String.compare_eq_iff in Eab. rewrite Eab, Ebc. done.
  - apply String.compare_eq_iff in Ebc. rewrite <- Ebc, Eab. done.
  - by rewrite (string_compare_lt_trans _ _ _ Eab Ebc).
Qed.

Lemma region_year_le_same_region a b :
  region a.2 = region b.2 -> region_year_le a b = true -> year a.2 <= year b.2.
Proof.
  unfold region_year_le. intros ->. rewrite string_compare_refl.
  by rewrite bool_decide_eq_true.
Qed.

(** *** The labelled rows *)
Lemma labelled_labels (df : PopulationTable) : (labelled df).*1 = seq 0 (length df).
Proof.
  unfold labelled. apply list_eq. intros i.
  rewrite list_lookup_fmap, list_lookup_imap.
  destruct (df !! i) as [r|] eqn:E; simpl.
  - symmetry. apply lookup_seq. split; [done|]. by eapply lookup_lt_Some.
  - symmetry. apply lookup_seq_ge. by apply lookup_ge_None.
Qed.

Lemma labelled_NoDup (df : PopulationTable) : NoDup (labelled df).*1.
Proof. rewrite labelled_labels. apply NoDup_seq. Qed.

Lemma elem_of_labelled (df : PopulationTable) i r :
  (i, r) ∈ labelled df <-> df !! i = Some r.
Proof.
  unfold labelled. rewrite list_elem_of_lookup. split.
  - intros [j Hj]. rewrite list_lookup_imap in Hj.
    destruct (df !! j) eqn:E; simpl in Hj; [|done]. by injection Hj as <- <-.
  - intros H. exists i. rewrite list_lookup_imap, H. done.
Qed.

Lemma assign_diff_group (g : string) (prev : gmap string Z) rows :
  filter (fun d => region (dr_row d) = g) (assign_diff prev rows)
  = group_diffs (prev !! g) (filter (fun x : nat * PopulationRecord => region x.2 = g) rows).
Proof.
  revert prev. induction rows as [|[i r] rows IH]; intros prev; simpl; [done|].
  rewrite !filter_cons. simpl. case_decide as Hg.
  - subst g. simpl. f_equal. rewrite IH. by rewrite lookup_insert_eq.
  - rewrite IH. by rewrite lookup_insert_ne.
Qed.

Lemma assign_diff_labels prev rows : dr_label <$> assign_diff prev rows = rows.*1.
Proof.
  revert prev. induction rows as [|[i r] rows IH]; intros prev; simpl; [done|].
  by rewrite IH.
Qed.


Lemma assign_diff_rows prev rows d :
  d ∈ assign_diff prev rows -> (dr_label d, dr_row d) ∈ rows.
Proof.
  revert prev. induction rows as [|[i r] rows IH]; intros prev; simpl.
  { by intros ?%elem_of_nil. }
  intros [-> | H]%elem_of_cons; [left|]. right. by eapply IH.
Qed.

Lemma elem_of_group_diffs p grp d :
  d ∈ group_diffs p grp <->
  (exists i r rest, grp = (i, r) :: rest /\
      d = {| dr_label := i; dr_row := r;
             dr_diff := sub_float64 (population r) <$> p |}) \/
  (exists l1 prev l2, grp = l1 ++ prev :: (dr_label d, dr_row d) :: l2 /\
      dr_diff d = Some (sub_float64 (population (dr_row d)) (population prev.2))).
Proof.
  revert p. induction grp as [|[i r] grp IH]; intros p; simpl.
  { split; [by intros ?%elem_of_nil|].
    intros [(? & ? & ? & [=] & _) | (l1 & ? & ? & E & _)]; by destruct l1. }
  rewrite elem_of_cons, IH. split.
  - intros [-> | [(j & r' & rest & -> & ->) | (l1 & prev & l2 & -> & Hd)]].
    + left. by exists i, r, grp.
    + right. exists [], (i, r), rest. done.
    + right. exists ((i, r) :: l1), prev, l2. done.
  - intros [(j & r' & rest & [= <- <- <-] & ->) | (l1 & prev & l2 & E & Hd)]; [by left|].
    right. destruct l1 as [|x l1]; simpl in E.
    + injection E as <- ->. left. exists (dr_label d), (dr_row d), l2.
      split; [done|]. destruct d; simpl in *. by subst.
    + injection E as <- ->. right. exists l1, prev, l2. done.
Qed.

Lemma NoDup_fst_eq {A B} (l : list (A * B)) x y1 y2 :
  NoDup l.*1 -> (x, y1) ∈ l -> (x, y2) ∈ l -> y1 = y2.
Proof.
  induction l as [|[a b] l IH]; simpl; [by intros _ ?%elem_of_nil|].
  intros [Ha Hnd]%NoDup_cons H1 H2.
  apply elem_of_cons in H1 as [[= -> ->] | H1]; apply elem_of_cons in H2 as [H2 | H2].
  - congruence.
  - destruct Ha. apply list_elem_of_fmap. by exists (a, y2).
  - injection H2 as -> ->. destruct Ha. apply list_elem_of_fmap. by exists (a, y1).
  - by apply IH.
Qed.

Lemma NoDup_of_fst {A B} (l : list (A * B)) : NoDup l.*1 -> NoDup l.
Proof. apply NoDup_fmap_1. Qed.


(** In a list ordered by falling diff the rows with a diff come first. *)
Lemma sorted_defined_first (l : list diff_row) :
  StronglySorted diff_desc l ->
  l = filter (fun d => is_Some (dr_diff d)) l ++
      filter (fun d => ~ is_Some (dr_diff d)) l.
Proof.
  induction 1 as [|a l Hs IH Hall]; [done|].
  rewrite !filter_cons. destruct (dr_diff a) as [q|] eqn:Ea.
  - rewrite decide_True by by eexists. rewrite decide_False by (intros H; apply H; by eexists).
    simpl. by rewrite <- IH.
  - rewrite decide_False by by intros [? ?]. rewrite decide_True by by intros [? ?].
    assert (filter (fun d => is_Some (dr_diff d)) l = []) as E.
    { destruct (filter (fun d => is_Some (dr_diff d)) l) as [|d s] eqn:E'; [done|].
      assert (d ∈ filter (fun d => is_Some (dr_diff d)) l) as Hd by (rewrite E'; left).
      apply list_elem_of_filter in Hd as [[q Hq] Hd].
      pose proof (proj1 (Forall_forall _ _) Hall d Hd) as Hv.
      unfold diff_desc in Hv. rewrite Ea, Hq in Hv. done. }
    rewrite E in IH |- *. simpl in *. by rewrite <- IH.
Qed.

Lemma Qmax_cases (x y : Q) :
  (Qmax x y = x /\ (y <= x)%Q) \/ (Qmax x y = y /\ (x <= y)%Q).
Proof.
  unfold Qmax, GenericMinMax.gmax. destruct (x ?= y)%Q eqn:E.
  - left. split; [done|]. apply Qeq_alt in E. rewrite E. apply Qle_refl.
  - right. split; [done|]. apply Qlt_alt in E. by apply Qlt_le_weak.
  - left. split; [done|]. apply Qgt_alt in E. by apply Qlt_le_weak.
Qed.

Lemma foldr_max_abs_spec (d : Q) (ds : list Q) :
  (forall x, x ∈ d :: ds -> (Qabs x <= foldr Qmax (Qabs d) (Qabs <$> ds))%Q) /\
  (exists x, x ∈ d :: ds /\ Qabs x = foldr Qmax (Qabs d) (Qabs <$> ds)).
Proof.
  induction ds as [|y ds [IH1 IH2]]; cbn [fmap list_fmap foldr].
  - split.
    + intros x Hx. apply list_elem_of_singleton in Hx as ->. apply Qle_refl.
    + exists d. split; [left | done].
  - set (m := foldr Qmax (Qabs d) (Qabs <$> ds)) in *. split.
    + intros x Hx.
      assert (x = y \/ x ∈ d :: ds) as [-> | Hin].
      { apply elem_of_cons in Hx as [-> | Hx]; [right; left|].
        apply elem_of_cons in Hx as [-> | Hx]; [by left | right; by right]. }
      * destruct (Qmax_cases (Qabs y) m) as [[-> _] | [-> H]]; [apply Qle_refl | done].
      * apply IH1 in Hin.
        destruct (Qmax_cases (Qabs y) m) as [[-> H] | [-> _]]; [|done].
        by eapply Qle_trans.
    + destruct IH2 as (x & Hx & Hm).
      destruct (Qmax_cases (Qabs y) m) as [[-> _] | [-> _]].
      * exists y. split; [right; left | done].
      * exists x. split; [|done]. apply elem_of_cons in Hx as [-> | Hx]; [left | by do 2 right].
Qed.

Section DiffView.
Variable sort_values : forall A : Type, (A -> option Q) -> list A -> list A.
Hypothesis sort_values_sorts : sorts_desc sort_values.
Variable df : PopulationTable.

Let sorted := sort_by region_year_le (labelled df).

Lemma sorted_NoDup : NoDup sorted.*1.
Proof.
  unfold sorted. rewrite sort_by_perm. apply labelled_NoDup.
Qed.

Lemma chronological_perm g :
  chronological df g ≡ₚ filter (fun x => region x.2 = g) (labelled df).
Proof. unfold chronological. by rewrite sort_by_perm. Qed.

Lemma elem_of_chronological g i r :
  (i, r) ∈ chronological df g <-> df !! i = Some r /\ region r = g.
Proof.
  unfold chronological. rewrite list_elem_of_filter, elem_of_sort_by, elem_of_labelled.
  simpl. tauto.
Qed.

Lemma chronological_region g x : x ∈ chronological df g -> region x.2 = g.
Proof. unfold chronological. by intros [? _]%list_elem_of_filter. Qed.

Lemma chronological_sorted g :
  StronglySorted (fun a b => year a.2 <= year b.2) (chronological df g).
Proof.
  unfold chronological.
  apply (StronglySorted_weaken (fun a b => region_year_le a b = true) _
           (fun x => region x.2 = g)).
  - intros x y Hx Hy. apply region_year_le_same_region. congruence.
  - apply Forall_forall. by intros x [? _]%list_elem_of_filter.
  - apply StronglySorted_filter_list, sort_by_StronglySorted.
    + apply region_year_le_total.
    + apply region_year_le_trans.
Qed.

Lemma chronological_NoDup g : NoDup (chronological df g).
Proof.
  unfold chronological. apply NoDup_filter, NoDup_of_fst, sorted_NoDup.
Qed.

Lemma elem_of_assign_diff d :
  d ∈ assign_diff ∅ sorted <->
  d ∈ group_diffs None (chronological df (region (dr_row d))).
Proof.
  unfold chronological. fold sorted.
  rewrite <- (lookup_empty (M:=gmap string) (A:=Z) (region (dr_row d))).
  rewrite <- assign_diff_group, list_elem_of_filter. tauto.
Qed.

Lemma elem_of_diff_df d :
  d ∈ diff_df df <->
  region (dr_row d) <> national /\
  ((exists rest,
      chronological df (region (dr_row d)) = (dr_label d, dr_row d) :: rest /\
      dr_diff d = None) \/
   (exists l1 prev l2,
      chronological df (region (dr_row d)) = l1 ++ prev :: (dr_label d, dr_row d) :: l2 /\
      dr_diff d = Some (sub_float64 (population (dr_row d)) (population prev.2)))).
Proof.
  unfold diff_df. fold sorted.
  rewrite list_elem_of_filter, elem_of_assign_diff, elem_of_group_diffs. split.
  - intros (Hreg & [(i & r & rest & E & ->) | H]); (split; [done|]); [|by right].
    left. exists rest. done.
  - intros (Hreg & [(rest & E & Hd) | H]); (split; [done|]); [|by right].
    left. exists (dr_label d), (dr_row d), rest. split; [done|].
    destruct d; simpl in *. by subst.
Qed.

Lemma diff_df_row d : d ∈ diff_df df -> df !! dr_label d = Some (dr_row d).
Proof.
  unfold diff_df. fold sorted. intros [_ H]%list_elem_of_filter.
  apply assign_diff_rows in H. unfold sorted in H.
  by apply elem_of_sort_by, elem_of_labelled in H.
Qed.

Lemma diff_df_labels_NoDup : NoDup (dr_label <$> diff_df df).
Proof.
  unfold diff_df. fold sorted.
  eapply sublist_NoDup; [|apply fmap_sublist, sublist_filter].
  rewrite assign_diff_labels. apply sorted_NoDup.
Qed.

(** The view is the head of the frame's rows put in the order of falling
    diff, by one sort or the other. *)
Lemma top100_sorted_head :
  exists l, top100 sort_values df = take 100 l /\ l ≡ₚ diff_df df /\
            StronglySorted diff_desc l.
Proof.
  unfold top100, nlargest. case_bool_decide; eexists; (split; [done|]).
  - apply (sort_values_sorts _ dr_diff).
  - apply (stable_sort_values_sorts _ dr_diff).
Qed.

Lemma top100_diff_df d : d ∈ top100 sort_values df -> d ∈ diff_df df.
Proof.
  destruct top100_sorted_head as (l & -> & Hp & _). intros H.
  eapply elem_of_sublist in H; [|apply sublist_take]. by rewrite <- Hp.
Qed.

Lemma top100_defined :
  (100 <= length (candidates df))%nat ->
  forall d, d ∈ top100 sort_values df -> is_Some (dr_diff d).
Proof.
  destruct top100_sorted_head as (l & -> & Hp & Hs). intros Hlen d Hd.
  assert (length (filter (fun d => is_Some (dr_diff d)) l) = length (candidates df)) as El.
  { unfold candidates. by rewrite Hp. }
  rewrite (sorted_defined_first l Hs) in Hd.
  rewrite take_app_le in Hd by lia.
  eapply elem_of_sublist in Hd; [|apply sublist_take].
  by apply list_elem_of_filter in Hd as [? _].
Qed.

(** C4: the top-100 view of year-over-year changes.  The rows of each
    region are the rows of the table with that region, taken in the order of
    their years.  The frame [diff_df] holds the rows of the regions other
    than the national aggregate, each under its label in the table: the
    first row of a region without a diff (NaN), every later one with its
    population minus that of the row before, subtracted in floats, which is
    the exact difference when both populations and the difference are below
    2^53 in size.  The view holds rows of that frame only, so never a
    national row; it holds a hundred of them, or all when there are fewer,
    none of them twice; it is ordered by falling diff with the rows without
    a diff last, and no row left out ranks before a row in it.  So the first row of a region is
    in the view only when every row with a diff is, and never when a
    hundred rows have a diff. *)
Theorem top100_spec :
  (forall g,
     (forall i r, (i, r) ∈ chronological df g <-> df !! i = Some r /\ region r = g) /\
     NoDup (chronological df g) /\
     StronglySorted (fun a b => year a.2 <= year b.2) (chronological df g)) /\
  (forall d,
     d ∈ diff_df df <->
     region (dr_row d) <> national /\
     ((exists rest,
         chronological df (region (dr_row d)) = (dr_label d, dr_row d) :: rest /\
         dr_diff d = None) \/
      (exists l1 prev l2,
         chronological df (region (dr_row d)) = l1 ++ prev :: (dr_label d, dr_row d) :: l2 /\
         dr_diff d = Some (sub_float64 (population (dr_row d)) (population prev.2))))) /\
  (forall x y, Z.abs x < 2 ^ 53 -> Z.abs y < 2 ^ 53 -> Z.abs (x - y) < 2 ^ 53 ->
               sub_float64 x y = inject_Z (x - y)) /\
  (forall d, d ∈ top100 sort_values df ->
             d ∈ diff_df df /\ region (dr_row d) <> national /\
             df !! dr_label d = Some (dr_row d)) /\
  length (top100 sort_values df) = (100 `min` length (diff_df df))%nat /\
  StronglySorted diff_desc (top100 sort_values df) /\
  (forall d d', d' ∈ top100 sort_values df -> d ∈ diff_df df ->
                d ∉ top100 sort_values df -> diff_desc d' d) /\
  (forall d, d ∈ top100 sort_values df -> dr_diff d = None ->
             forall c, c ∈ candidates df -> c ∈ top100 sort_values df) /\
  ((100 <= length (candidates df))%nat ->
   forall d, d ∈ top100 sort_values df -> is_Some (dr_diff d)) /\
  NoDup (dr_label <$> diff_df df) /\
  NoDup (dr_label <$> top100 sort_values df).
Proof.
  assert (forall d d', d' ∈ top100 sort_values df -> d ∈ diff_df df ->
                       d ∉ top100 sort_values df -> diff_desc d' d) as Hout.
  { destruct top100_sorted_head as (l & -> & Hp & Hs). intros d d' Hd' Hd Hnot.
    eapply (StronglySorted_take_drop _ _ 100); [exact Hs | exact Hd' |].
    rewrite <- Hp, <- (take_drop 100 l) in Hd.
    apply elem_of_app in Hd as [Hd | Hd]; done. }
  split; [|split; [|split; [|split; [|split; [|split; [|split; [|split; [|split; [|split]]]]]]]]].
  - intros g. split; [apply elem_of_chronological|].
    split; [apply chronological_NoDup | apply chronological_sorted].
  - apply elem_of_diff_df.
  - apply sub_float64_exact.
  - intros d Hd. apply top100_diff_df in Hd. split; [done|]. split.
    + by apply elem_of_diff_df in Hd as [? _].
    + by apply diff_df_row.
  - destruct top100_sorted_head as (l & -> & Hp & _). by rewrite length_take, Hp.
  - destruct top100_sorted_head as (l & -> & _ & Hs).
    eapply StronglySorted_app_1_l. rewrite take_drop. exact Hs.
  - exact Hout.
  - destruct top100_sorted_head as (l & -> & Hp & Hs). intros d Hd Hnone c Hc.
    apply list_elem_of_filter in Hc as [[q Hq] Hc].
    rewrite <- Hp, <- (take_drop 100 l) in Hc.
    apply elem_of_app in Hc as [Hc | Hc]; [done|].
    pose proof (StronglySorted_take_drop _ _ 100 _ _ Hs Hd Hc) as Hv.
    unfold diff_desc in Hv. rewrite Hnone, Hq in Hv. done.
  - apply top100_defined.
  - apply diff_df_labels_NoDup.
  - destruct top100_sorted_head as (l & -> & Hp & _).
    eapply sublist_NoDup; [|apply fmap_sublist, sublist_take].
    rewrite Hp. apply diff_df_labels_NoDup.
Qed.

(** X13: the colour range handed to the gradient of the top-100 table is
    symmetric about 0, [vmin = - vmax], it covers the diff of every row of
    the table that has one, and its bound is attained by some row; it is
    undefined (NaN) exactly when no row of the table has a diff. *)
Theorem gradient_range_spec :
  match gradient_range (top100 sort_values df) with
  | None => forall d, d ∈ top100 sort_values df -> dr_diff d = None
  | Some (vmin, vmax) =>
      vmin = Qopp vmax /\ (0 <= vmax)%Q /\
      (forall d x, d ∈ top100 sort_values df -> dr_diff d = Some x ->
                   (vmin <= x)%Q /\ (x <= vmax)%Q) /\
      (exists d x, d ∈ top100 sort_values df /\ dr_diff d = Some x /\ Qabs x = vmax)
  end.
Proof.
  unfold gradient_range, diff_abs_max.
  destruct (omap dr_diff (top100 sort_values df)) as [|x xs] eqn:E; simpl.
  - intros d Hd. destruct (dr_diff d) as [q|] eqn:Hq; [|done].
    assert (q ∈ omap dr_diff (top100 sort_values df)) as Hin
      by (apply list_elem_of_omap; eauto).
    rewrite E in Hin. by apply elem_of_nil in Hin.
  - destruct (foldr_max_abs_spec x xs) as [H1 H2].
    set (m := foldr Qmax (Qabs x) (Qabs <$> xs)) in *.
    split; [done|]. split.
    { eapply Qle_trans; [apply Qabs_nonneg | apply H1; left]. }
    split.
    + intros d v Hd Hv. assert (v ∈ x :: xs) as Hin.
      { rewrite <- E. apply list_elem_of_omap. eauto. }
      apply H1 in Hin. apply Qabs_Qle_condition in Hin. done.
    + destruct H2 as (v & Hin & Hm). rewrite <- E in Hin.
      apply list_elem_of_omap in Hin as (d & Hd & Hv). eauto.
Qed.
End DiffView.

(** The theorem of C4 on the example table, sorted by the stable sort: the
    view holds all four rows of the two regions. *)
Lemma top100_spec_witness :
  sorts_desc stable_sort_values /\
  length (top100 stable_sort_values example_regions) =
    (100 `min` length (diff_df example_regions))%nat /\
  StronglySorted diff_desc (top100 stable_sort_values example_regions).
Proof.
  split; [exact stable_sort_values_sorts|]. split.
  - exact (proj1 (proj2 (proj2 (proj2 (proj2
             (top100_spec stable_sort_values stable_sort_values_sorts example_regions)))))).
  - exact (proj1 (proj2 (proj2 (proj2 (proj2 (proj2
             (top100_spec stable_sort_values stable_sort_values_sorts example_regions))))))).
Defined.

(** C4 as stated fails: the example table has two rows with a diff, and
    whatever the sort the view holds the first row of Seoul as well, its
    diff undefined. *)
Lemma top100_first_row_counterexample :
  chronological example_regions seoul =
    [(0%nat, mk_row seoul 2018 50 0 0); (1%nat, mk_row seoul 2022 80 0 0)] /\
  length (candidates example_regions) = 2%nat /\
  (forall sort_values, sorts_desc sort_values ->
     {| dr_label := 0; dr_row := mk_row seoul 2018 50 0 0; dr_diff := None |}
       ∈ top100 sort_values example_regions) /\
  top100 stable_sort_values example_regions =
    [ {| dr_label := 1; dr_row := mk_row seoul 2022 80 0 0; dr_diff := Some 30%Q |};
      {| dr_label := 3; dr_row := mk_row busan 2022 70 0 0; dr_diff := Some (-20)%Q |};
      {| dr_label := 2; dr_row := mk_row busan 2018 90 0 0; dr_diff := None |};
      {| dr_label := 0; dr_row := mk_row seoul 2018 50 0 0; dr_diff := None |} ].
Proof.
  split; [vm_compute; reflexivity|]. split; [vm_compute; reflexivity|].
  split; [|vm_compute; reflexivity].
  intros sort_values Hs. unfold top100, nlargest.
  rewrite bool_decide_eq_true_2 by (vm_compute; lia).
  destruct (Hs _ dr_diff (diff_df example_regions)) as [Hp _].
  rewrite take_ge by (rewrite Hp; vm_compute; lia).
  rewrite Hp. apply (list_elem_of_lookup_2 _ 2%nat). vm_compute. reflexivity.
Qed.

(** ** The pivoted tables *)

Lemma REGION_KR2EN_national s : REGION_KR2EN !! s = Some "National" -> s = national.
Proof.
  unfold REGION_KR2EN. cbn [list_to_map foldr fst snd]. intros H.
  repeat (rewrite lookup_insert in H; case_decide; [by simplify_eq|]).
  by rewrite lookup_empty in H.
Qed.

Lemma REGION_KR2EN_of_national : REGION_KR2EN !! national = Some "National".
Proof. by vm_compute. Qed.

Lemma rows_of_elem (df : frame) (t : PopulationTable) r :
  rows_of df = Some t -> r ∈ t -> exists i, row_at df i = Some r.
Proof.
  unfold rows_of. intros H Hr. apply mapM_Some in H.
  apply list_elem_of_lookup in Hr as [j Hj].
  destruct (Forall2_lookup_r _ _ _ _ _ H Hj) as (i & _ & Hi). eauto.
Qed.

Lemma row_at_Some (df : frame) i r :
  row_at df i = Some r ->
  exists en, cell df col_region i = Some (VStr (region r)) /\
             cell df col_region_en i = Some en /\
             region_en r = match en with VStr s => Some s | _ => None end.
Proof.
  unfold row_at. intros H.
  destruct (cell df col_region i) as [[| |g]|]; try done.
  destruct (cell df col_year i) as [[[y| |]| |]|]; try done.
  destruct (cell df col_population i) as [[[p| |]| |]|]; try done.
  destruct (cell df col_births i) as [[[b| |]| |]|]; try done.
  destruct (cell df col_deaths i) as [[[d| |]| |]|]; try done.
  destruct (cell df col_region_en i) as [en|]; try done.
  injection H as <-. exists en. done.
Qed.

Lemma load_with_rows_mapped str_to_num kr2en (raw df' : frame) (t : PopulationTable) r :
  load_frame str_to_num kr2en raw = Ok df' -> rows_of df' = Some t ->
  r ∈ t -> region_en r = kr2en !! region r.
Proof.
  intros Hload Hrows Hr.
  destruct (rows_of_elem _ _ _ Hrows Hr) as [i Hi].
  apply load_inv in Hload as (regions & p & b & d & p' & b' & d' & Hreg & _ & _ & _ & _ & _ & _ & ->).
  apply row_at_Some in Hi as (en & Hg & Hen & ->).
  unfold cell in Hg, Hen.
  rewrite loaded_frame_region, Hreg in Hg.
  rewrite loaded_frame_region_en in Hen.
  cbn [mbind option_bind] in Hg, Hen.
  rewrite list_lookup_fmap, Hg in Hen.
  change (Some (map_dict kr2en (VStr (region r))) = Some en) in Hen.
  injection Hen as <-. unfold map_dict.
  by destruct (kr2en !! region r).
Qed.

Lemma load_rows_mapped read_csv str_to_num (file_obj : string) (df' : frame)
    (t : PopulationTable) :
  load_population_df read_csv str_to_num file_obj = Ok df' -> rows_of df' = Some t ->
  region_en_mapped t.
Proof.
  intros Hload Hrows r Hr. apply load_population_df_Ok in Hload as (df & _ & Hload).
  by eapply load_with_rows_mapped.
Qed.

Lemma fmap_fst_pair {A B} (f : A -> B) (l : list A) :
  ((fun a => (a, f a)) <$> l).*1 = l.
Proof. induction l as [|a l IH]; simpl; [done|]. by f_equal. Qed.

Section PivotFacts.
Context {I C V : Type} `{EqDecision I, EqDecision C}.
Variables (le_index : I -> I -> bool) (le_columns : C -> C -> bool).
Variables (index : PopulationRecord -> option I) (columns : PopulationRecord -> option C).
Variable aggfunc : list Z -> V.

Lemma elem_of_keyed df i c v :
  (i, c, v) ∈ keyed index columns df <->
  exists r, r ∈ df /\ index r = Some i /\ columns r = Some c /\ population r = v.
Proof.
  unfold keyed. rewrite list_elem_of_omap. split.
  - intros (r & Hr & H). exists r. split; [done|].
    destruct (index r), (columns r); simplify_eq. done.
  - intros (r & Hr & Hi & Hc & <-). exists r. split; [done|]. by rewrite Hi, Hc.
Qed.

Lemma cell_values_keyed df i c :
  cell_values (keyed index columns df) i c
  = population <$> filter (fun r => index r = Some i /\ columns r = Some c) df.
Proof.
  unfold cell_values, keyed. induction df as [|r df IH]; [done|].
  rewrite filter_cons. cbn [omap list_omap].
  destruct (index r) as [i'|] eqn:Hi, (columns r) as [c'|] eqn:Hc.
  - rewrite filter_cons. simpl. case_decide as H1; case_decide as H2.
    + simpl. f_equal. exact IH.
    + destruct H2. destruct H1; split; congruence.
    + destruct H1. destruct H2; split; congruence.
    + exact IH.
  - rewrite decide_False by (intros []; done). exact IH.
  - rewrite decide_False by (intros []; done). exact IH.
  - rewrite decide_False by (intros []; done). exact IH.
Qed.

Lemma elem_of_pivot_columns df c :
  c ∈ pv_columns (pivot_table le_index le_columns index columns aggfunc df) <->
  exists r, r ∈ df /\ is_Some (index r) /\ columns r = Some c.
Proof.
  unfold pivot_table. cbn [pv_columns].
  rewrite elem_of_sort_by, elem_of_remove_dups, list_elem_of_fmap. split.
  - intros ([i c'] & -> & H). apply list_elem_of_fmap in H as ([[i' c''] v] & [= -> ->] & H).
    apply elem_of_keyed in H as (r & Hr & Hi & Hc & _). exists r. simpl. eauto.
  - intros (r & Hr & [i Hi] & Hc). exists (i, c). split; [done|].
    apply list_elem_of_fmap. exists (i, c, population r). split; [done|].
    apply elem_of_keyed. eauto.
Qed.

Lemma elem_of_pivot_index df i :
  i ∈ pv_index (pivot_table le_index le_columns index columns aggfunc df) <->
  exists r, r ∈ df /\ index r = Some i /\ is_Some (columns r).
Proof.
  unfold pv_index, pivot_table. cbn [pv_rows].
  rewrite fmap_fst_pair.
  rewrite elem_of_sort_by, elem_of_remove_dups, list_elem_of_fmap. split.
  - intros ([i' c] & -> & H). apply list_elem_of_fmap in H as ([[i'' c''] v] & [= -> ->] & H).
    apply elem_of_keyed in H as (r & Hr & Hi & Hc & _). exists r. simpl. eauto.
  - intros (r & Hr & Hi & [c Hc]). exists (i, c). split; [done|].
    apply list_elem_of_fmap. exists (i, c, population r). split; [done|].
    apply elem_of_keyed. eauto.
Qed.

Lemma pivot_cell df i cells j c :
  (i, cells) ∈ pv_rows (pivot_table le_index le_columns index columns aggfunc df) ->
  pv_columns (pivot_table le_index le_columns index columns aggfunc df) !! j = Some c ->
  cells !! j
  = Some (aggregate aggfunc
            (population <$> filter (fun r => index r = Some i /\ columns r = Some c) df)).
Proof.
  unfold pivot_table. cbn [pv_rows pv_columns]. intros Hrow Hc.
  apply list_elem_of_fmap in Hrow as (i' & [= -> ->] & _).
  rewrite list_lookup_fmap, Hc. simpl. by rewrite cell_values_keyed.
Qed.
End PivotFacts.

Lemma heatmap_index (df : PopulationTable) l :
  l ∈ pv_index (heatmap_pivot df) <->
  l <> "National" /\ exists r, r ∈ df /\ region_en r = Some l.
Proof.
  unfold heatmap_pivot, pv_index. cbn [pv_rows]. rewrite list_elem_of_fmap. split.
  - intros ([l' cells] & -> & H). apply list_elem_of_filter in H as [Hne H].
    split; [done|].
    assert (l' ∈ pv_index (pivot_table String.leb Z_leb region_en
                             (fun r => Some (year r)) aggfunc_mean df)) as Hin.
    { unfold pv_index. apply list_elem_of_fmap. by exists (l', cells). }
    apply elem_of_pivot_index in Hin as (r & Hr & Hen & _). eauto.
  - intros (Hne & r & Hr & Hen).
    assert (l ∈ pv_index (pivot_table String.leb Z_leb region_en
                            (fun r => Some (year r)) aggfunc_mean df)) as Hin.
    { apply elem_of_pivot_index. exists r. eauto. }
    unfold pv_index in Hin. apply list_elem_of_fmap in Hin as ([l' cells] & Hl & Hin).
    simpl in Hl. subst l'. exists (l, cells). split; [done|].
    apply list_elem_of_filter. done.
Qed.


(** *** The unstacked sums *)

Lemma unstacked_index {I C} (p : pivot I C Z) : pv_index (unstacked p) = pv_index p.
Proof.
  unfold pv_index, unstacked. cbn [pv_rows]. rewrite <- list_fmap_compose.
  by apply list_fmap_ext.
Qed.

Lemma elem_of_unstacked_rows {I C} (p : pivot I C Z) i cells :
  (i, cells) ∈ pv_rows (unstacked p) <->
  exists zs, (i, zs) ∈ pv_rows p /\ cells = fmap (M := option) (unstacked_value p) <$> zs.
Proof.
  unfold unstacked. cbn [pv_rows]. rewrite list_elem_of_fmap. split.
  - intros ([i' zs] & [= -> ->] & H). eauto.
  - intros (zs & H & ->). by exists (i, zs).
Qed.

Lemma unstacked_value_exact {I C} (p : pivot I C Z) z :
  Z.abs z < 2 ^ 53 -> unstacked_value p (wrap64 z) = inject_Z z.
Proof.
  intros H. rewrite wrap64_id by (unfold fits_int64; lia).
  unfold unstacked_value. case_bool_decide; [done|]. by apply f64_of_int_exact.
Qed.

Lemma nat_area_index (df : PopulationTable) y :
  y ∈ pv_index (nat_area df) <->
  exists r, r ∈ df /\ region r <> national /\ year r = y /\ is_Some (region_en r).
Proof.
  unfold nat_area. rewrite unstacked_index. unfold area_sums.
  rewrite elem_of_pivot_index. split.
  - intros (r & Hr & [= Hy] & Hen). apply list_elem_of_filter in Hr as [Hne Hr]. eauto.
  - intros (r & Hr & Hne & Hy & Hen). exists r. rewrite list_elem_of_filter, Hy. done.
Qed.

Lemma nat_area_columns (df : PopulationTable) c :
  c ∈ pv_columns (nat_area df) <->
  exists r, r ∈ df /\ region r <> national /\ region_en r = Some c.
Proof.
  unfold nat_area, unstacked, area_sums. cbn [pv_columns].
  rewrite elem_of_pivot_columns. split.
  - intros (r & Hr & _ & Hen). apply list_elem_of_filter in Hr as [Hne Hr]. eauto.
  - intros (r & Hr & Hne & Hen). exists r. rewrite list_elem_of_filter. eauto.
Qed.

Lemma pivot_row_length {I C V} `{EqDecision I, EqDecision C}
    (le_index : I -> I -> bool) (le_columns : C -> C -> bool)
    (index : PopulationRecord -> option I) (columns : PopulationRecord -> option C)
    (aggfunc : list Z -> V) df i cells :
  (i, cells) ∈ pv_rows (pivot_table le_index le_columns index columns aggfunc df) ->
  length cells = length (pv_columns (pivot_table le_index le_columns index columns aggfunc df)).
Proof.
  unfold pivot_table. cbn [pv_rows pv_columns]. intros H.
  apply list_elem_of_fmap in H as (i' & [= -> ->] & _). by rewrite length_fmap.
Qed.

Lemma nat_area_cell (df : PopulationTable) y cells j c :
  (y, cells) ∈ pv_rows (nat_area df) ->
  pv_columns (nat_area df) !! j = Some c ->
  cells !! j
  = Some (match population <$>
                filter (fun r => region r <> national /\ year r = y /\ region_en r = Some c) df
          with
          | [] => None
          | ps => Some (unstacked_value (area_sums df) (wrap64 (sum_Z ps)))
          end).
Proof.
  unfold nat_area. intros (zs & Hrow & ->)%elem_of_unstacked_rows Hc.
  unfold unstacked in Hc. cbn [pv_columns] in Hc. rewrite list_lookup_fmap.
  unfold area_sums in Hrow, Hc. rewrite (pivot_cell _ _ _ _ _ _ _ _ _ _ Hrow Hc).
  rewrite list_filter_filter.
  rewrite (list_filter_iff _ (fun r => region r <> national /\ year r = y /\ region_en r = Some c)).
  2:{ intros r. split; [intros [[[= ?] ?] ?] | intros (? & -> & ?)]; done. }
  unfold aggregate, aggfunc_sum. by destruct (population <$> _).
Qed.

(** C7: for every loaded table, the region by year matrix has no row for
    the national aggregate and the year by region matrix has no column for
    it: the region labels of both are exactly the display names of the rows
    of other regions.  The year by region matrix has a row for exactly the
    years of such rows, each row with a cell per column; a cell holds the
    sum of the populations of all the rows of that year and region, so
    duplicates are added up, and is NaN when there is no such row.  The sum
    is the machine's: exact whenever it is below 2^53 in size. *)
Theorem pivots_exclude_national read_csv str_to_num (file_obj : string) (df' : frame)
    (df : PopulationTable) :
  load_population_df read_csv str_to_num file_obj = Ok df' ->
  rows_of df' = Some df ->
  ("National" ∉ pv_index (heatmap_pivot df)) /\
  (forall l, l ∈ pv_index (heatmap_pivot df) <->
             exists r, r ∈ df /\ region r <> national /\ region_en r = Some l) /\
  ("National" ∉ pv_columns (nat_area df)) /\
  (forall c, c ∈ pv_columns (nat_area df) <->
             exists r, r ∈ df /\ region r <> national /\ region_en r = Some c) /\
  (forall y, y ∈ pv_index (nat_area df) <->
             exists r, r ∈ df /\ region r <> national /\ year r = y /\
                       is_Some (region_en r)) /\
  (forall y cells, (y, cells) ∈ pv_rows (nat_area df) ->
                   length cells = length (pv_columns (nat_area df))) /\
  (forall y cells j c,
     (y, cells) ∈ pv_rows (nat_area df) ->
     pv_columns (nat_area df) !! j = Some c ->
     cells !! j
     = Some (match population <$>
                   filter (fun r => region r <> national /\ year r = y /\ region_en r = Some c) df
             with
             | [] => None
             | ps => Some (unstacked_value (area_sums df) (wrap64 (sum_Z ps)))
             end)) /\
  (forall z, Z.abs z < 2 ^ 53 -> unstacked_value (area_sums df) (wrap64 z) = inject_Z z).
Proof.
  intros Hload Hrows. assert (Hmap := load_rows_mapped _ _ _ _ _ Hload Hrows).
  split; [|split; [|split; [|split; [|split; [|split; [|split]]]]]].
  - intros H. by apply heatmap_index in H as [? _].
  - intros l. rewrite heatmap_index. split.
    + intros (Hne & r & Hr & Hen). exists r. split; [done|]. split; [|done]. intros Hnat.
      rewrite (Hmap r Hr), Hnat, REGION_KR2EN_of_national in Hen. congruence.
    + intros (r & Hr & Hne & Hen). split; [|by eauto]. intros ->.
      rewrite (Hmap r Hr) in Hen. by apply REGION_KR2EN_national in Hen.
  - intros Hc. apply nat_area_columns in Hc as (r & Hr & Hne & Hen).
    rewrite (Hmap r Hr) in Hen. by apply REGION_KR2EN_national in Hen.
  - apply nat_area_columns.
  - apply nat_area_index.
  - intros y cells (zs & Hrow & ->)%elem_of_unstacked_rows.
    rewrite length_fmap. unfold nat_area, unstacked. cbn [pv_columns].
    by apply pivot_row_length in Hrow.
  - apply nat_area_cell.
  - apply unstacked_value_exact.
Qed.

(** The theorem of C7 on an upload with two rows for Seoul in 2020: the
    cell of 2020 and Seoul holds their sum, 30. *)
Lemma pivots_exclude_national_witness :
  load_population_df simple_read_csv number_literal duplicates_csv = Ok duplicates_loaded /\
  rows_of duplicates_loaded = Some duplicates_rows /\
  ("National" ∉ pv_index (heatmap_pivot duplicates_rows)) /\
  ("National" ∉ pv_columns (nat_area duplicates_rows)) /\
  (2020, [None; Some 30%Q]) ∈ pv_rows (nat_area duplicates_rows) /\
  pv_columns (nat_area duplicates_rows) !! 1%nat = Some "Seoul" /\
  [None; Some 30%Q] !! 1%nat
  = Some (match population <$>
                filter (fun r => region r <> national /\ year r = 2020 /\
                                 region_en r = Some "Seoul") duplicates_rows
          with
          | [] => None
          | ps => Some (unstacked_value (area_sums duplicates_rows) (wrap64 (sum_Z ps)))
          end).
Proof.
  assert (load_population_df simple_read_csv number_literal duplicates_csv
          = Ok duplicates_loaded) as H1 by (vm_compute; reflexivity).
  assert (rows_of duplicates_loaded = Some duplicates_rows) as H2 by (vm_compute; reflexivity).
  assert ((2020, [None; Some 30%Q]) ∈ pv_rows (nat_area duplicates_rows)) as H3.
  { apply (list_elem_of_lookup_2 _ 0%nat). vm_compute. reflexivity. }
  assert (pv_columns (nat_area duplicates_rows) !! 1%nat = Some "Seoul") as H4
    by (vm_compute; reflexivity).
  split; [exact H1|]. split; [exact H2|].
  destruct (pivots_exclude_national simple_read_csv number_literal duplicates_csv
              duplicates_loaded duplicates_rows H1 H2)
    as (Hh & _ & Ha & _ & _ & _ & Hcell & _).
  split; [exact Hh|]. split; [exact Ha|]. split; [exact H3|]. split; [exact H4|].
  exact (Hcell 2020 [None; Some 30%Q] 1%nat "Seoul" H3 H4).
Defined.

(** The sums of the example with duplicates, and a sum that leaves the
    range of [int64]. *)
Example nat_area_duplicates :
  nat_area duplicates_rows
  = {| pv_columns := ["Busan"; "Seoul"];
       pv_rows := [(2020, [None; Some 30%Q]); (2021, [Some 5%Q; None])] |}.
Proof. vm_compute; reflexivity. Qed.

Example nat_area_wraps :
  nat_area [mk_row seoul 2020 (2 ^ 63 - 1) 0 0; mk_row seoul 2020 1 0 0]
  = {| pv_columns := ["Seoul"]; pv_rows := [(2020, [Some (inject_Z (- 2 ^ 63))])] |}.
Proof. vm_compute; reflexivity. Qed.

Lemma string_leb_trans s1 s2 s3 :
  String.leb s1 s2 = true -> String.leb s2 s3 = true -> String.leb s1 s3 = true.
Proof.
  unfold String.leb.
  destruct (String.compare s1 s2) eqn:E12; [| |done];
    destruct (String.compare s2 s3) eqn:E23; try done; intros _ _.
  - apply String.compare_eq_iff in E12 as ->. by rewrite E23.
  - apply String.compare_eq_iff in E12 as ->. by rewrite E23.
  - apply String.compare_eq_iff in E23 as <-. by rewrite E12.
  - by rewrite (string_compare_lt_trans _ _ _ E12 E23).
Qed.

Lemma Z_leb_total a b : Z_leb a b = true \/ Z_leb b a = true.
Proof. unfold Z_leb. rewrite !bool_decide_eq_true. lia. Qed.

Lemma Z_leb_trans a b c : Z_leb a b = true -> Z_leb b c = true -> Z_leb a c = true.
Proof. unfold Z_leb. rewrite !bool_decide_eq_true. lia. Qed.

Lemma sort_by_NoDup {A} (le : A -> A -> bool) (l : list A) : NoDup l -> NoDup (sort_by le l).
Proof. intros H. by rewrite sort_by_perm. Qed.

Lemma fmap_fst_filter {A B} (P : A -> Prop)
    (Hrow : forall row : A * B, Decision (P row.1)) (Hlabel : forall a, Decision (P a))
    (l : list (A * B)) :
  (@filter _ _ _ (fun row => P row.1) Hrow l).*1 = @filter _ _ _ P Hlabel l.*1.
Proof.
  induction l as [|[a b] l IH]; [done|].
  rewrite fmap_cons, !filter_cons. cbn [fst]. unfold decide.
  destruct (Hrow (a, b)) as [H1|H1], (Hlabel a) as [H2|H2]; cbn [fst] in *; try done.
  rewrite fmap_cons. cbn [fst]. by f_equal.
Qed.

Section PivotLabels.
Context {I C V : Type} `{EqDecision I, EqDecision C}.
Variables (le_index : I -> I -> bool) (le_columns : C -> C -> bool).
Variables (index : PopulationRecord -> option I) (columns : PopulationRecord -> option C).
Variable aggfunc : list Z -> V.
Hypothesis le_index_total : forall x y, le_index x y = true \/ le_index y x = true.
Hypothesis le_index_trans :
  forall x y z, le_index x y = true -> le_index y z = true -> le_index x z = true.
Hypothesis le_columns_total : forall x y, le_columns x y = true \/ le_columns y x = true.
Hypothesis le_columns_trans :
  forall x y z, le_columns x y = true -> le_columns y z = true -> le_columns x z = true.

Lemma pivot_table_labels df :
  labels_ascending le_index
    (pv_index (pivot_table le_index le_columns index columns aggfunc df)) /\
  labels_ascending le_columns
    (pv_columns (pivot_table le_index le_columns index columns aggfunc df)).
Proof.
  unfold pv_index, pivot_table. cbn [pv_rows pv_columns]. rewrite fmap_fst_pair.
  split; split.
  - apply sort_by_NoDup, NoDup_remove_dups.
  - by apply sort_by_StronglySorted.
  - apply sort_by_NoDup, NoDup_remove_dups.
  - by apply sort_by_StronglySorted.
Qed.
End PivotLabels.

(** X14: the labels of the two pivots come out in ascending order, none of
    them twice: the display names down the heatmap and across the area
    table, the years across the heatmap and down the area table. *)
Theorem pivot_labels_ascending (df : PopulationTable) :
  labels_ascending String.leb (pv_index (heatmap_pivot df)) /\
  labels_ascending Z_leb (pv_columns (heatmap_pivot df)) /\
  labels_ascending Z_leb (pv_index (nat_area df)) /\
  labels_ascending String.leb (pv_columns (nat_area df)).
Proof.
  destruct (pivot_table_labels String.leb Z_leb region_en (fun r => Some (year r))
              aggfunc_mean string_leb_total string_leb_trans Z_leb_total Z_leb_trans df)
    as [[H1 H2] H3].
  destruct (pivot_table_labels Z_leb String.leb (fun r => Some (year r)) region_en
              aggfunc_sum Z_leb_total Z_leb_trans string_leb_total string_leb_trans
              (filter (fun r => region r <> national) df)) as [H4 H5].
  split; [|split; [exact H3|split; [|exact H5]]].
  2:{ unfold nat_area. rewrite unstacked_index. exact H4. }
  unfold heatmap_pivot, pv_index. cbn [pv_rows].
  set (p := pivot_table String.leb Z_leb region_en (fun r => Some (year r)) aggfunc_mean df)
    in *.
  assert ((filter (fun row : string * list (option Q) => row.1 <> "National") (pv_rows p)).*1
          = filter (fun l => l <> "National") (pv_index p)) as ->
    by (unfold pv_index; apply (fmap_fst_filter (fun l => l <> "National"))).
  split.
  - by apply NoDup_filter.
  - by apply StronglySorted_filter_list.
Qed.

Lemma NoDup_snd_eq {A B} (l : list (A * B)) x1 x2 y :
  NoDup l.*2 -> (x1, y) ∈ l -> (x2, y) ∈ l -> x1 = x2.
Proof.
  induction l as [|[a b] l IH]; simpl; [by intros _ ?%elem_of_nil|].
  intros [Ha Hnd]%NoDup_cons H1 H2.
  apply elem_of_cons in H1 as [[= -> ->] | H1]; apply elem_of_cons in H2 as [H2 | H2].
  - congruence.
  - destruct Ha. apply list_elem_of_fmap. by exists (x2, b).
  - injection H2 as -> ->. destruct Ha. apply list_elem_of_fmap. by exists (x1, b).
  - by apply IH.
Qed.

(** No two regions share a display name. *)
Lemma REGION_KR2EN_injective s1 s2 en :
  REGION_KR2EN !! s1 = Some en -> REGION_KR2EN !! s2 = Some en -> s1 = s2.
Proof.
  unfold REGION_KR2EN. intros H1%elem_of_list_to_map_2 H2%elem_of_list_to_map_2.
  refine (NoDup_snd_eq _ _ _ _ _ H1 H2).
  apply (bool_decide_unpack _). vm_compute. reflexivity.
Qed.

Lemma filter_iff_elem {A} (P Q : A -> Prop) `{forall x, Decision (P x), forall x, Decision (Q x)}
    (l : list A) :
  (forall x, x ∈ l -> P x <-> Q x) -> filter P l = filter Q l.
Proof.
  induction l as [|a l IH]; [done|]. intros Hl.
  rewrite !filter_cons, IH by (intros x Hx; apply Hl; by right).
  pose proof (Hl a (list_elem_of_here _ _)) as Ha.
  destruct (decide (P a)), (decide (Q a)); tauto.
Qed.

Lemma filter_nil_elem {A} (P : A -> Prop) `{forall x, Decision (P x)} (l : list A) :
  (forall x, x ∈ l -> ~ P x) -> filter P l = [].
Proof.
  intros Hl. destruct (filter P l) as [|a l'] eqn:E; [done|].
  assert (a ∈ filter P l) as Ha by (rewrite E; left).
  apply list_elem_of_filter in Ha as [HP Ha]. by destruct (Hl a Ha).
Qed.

Lemma filter_unique_key {A K} `{EqDecision K} (f : A -> K) (l : list A) r :
  NoDup (f <$> l) -> r ∈ l -> filter (fun x => f x = f r) l = [r].
Proof.
  induction l as [|a l IH]; [by intros _ ?%elem_of_nil|].
  rewrite fmap_cons. intros [Ha Hnd]%NoDup_cons Hr. rewrite filter_cons.
  destruct (decide (f a = f r)) as [E|E].
  - assert (r = a) as ->.
    { apply elem_of_cons in Hr as [Hr|Hr]; [done|]. destruct Ha. rewrite E.
      apply list_elem_of_fmap. by exists r. }
    f_equal. apply filter_nil_elem. intros x Hx E'. destruct Ha. rewrite <- E'.
    apply list_elem_of_fmap. by exists x.
  - apply IH; [done|]. apply elem_of_cons in Hr as [->|Hr]; done.
Qed.

Lemma heatmap_row (df : PopulationTable) l cells :
  (l, cells) ∈ pv_rows (heatmap_pivot df) ->
  l <> "National" /\
  (l, cells) ∈ pv_rows (pivot_table String.leb Z_leb region_en (fun r => Some (year r))
                          aggfunc_mean df).
Proof. unfold heatmap_pivot. cbn [pv_rows]. by intros H%list_elem_of_filter. Qed.

Lemma heatmap_cell (df : PopulationTable) l cells j y :
  (l, cells) ∈ pv_rows (heatmap_pivot df) ->
  pv_columns (heatmap_pivot df) !! j = Some y ->
  cells !! j
  = Some (aggregate aggfunc_mean
            (population <$> filter (fun r => region_en r = Some l /\ year r = y) df)).
Proof.
  intros [_ Hrow]%heatmap_row Hc. unfold heatmap_pivot in Hc. cbn [pv_columns] in Hc.
  rewrite (pivot_cell _ _ _ _ _ _ _ _ _ _ Hrow Hc). do 3 f_equal.
  apply list_filter_iff. intros r. split; [intros [? [= ?]]|intros [? ->]]; done.
Qed.

(** X15: the cells of the heatmap, for every loaded table.  A cell is the
    mean of the populations of all the rows of its display name and year,
    NaN when there is none; and with one row per region and year the
    population of every regional row is found in the heatmap unchanged, in
    the row of its display name and the column of its year. *)

(** *** The float mean of a group *)

Lemma kahan_from (vs : list Z) (s : Z) :
  Z.abs s + sum_Z (Z.abs <$> vs) < 2 ^ 53 ->
  fold_left kahan_step (f64_of_int <$> vs) (inject_Z s, inject_Z 0)
  = (inject_Z (s + sum_Z vs), inject_Z 0).
Proof.
  revert s. induction vs as [|v vs IH]; intros s H.
  - cbn [fmap list_fmap fold_left]. do 2 f_equal. change (sum_Z []) with 0. lia.
  - pose proof (sum_Z_abs_nonneg vs). pose proof (sum_Z_abs_bound vs).
    rewrite fmap_cons, sum_Z_cons in H. rewrite fmap_cons. cbn [fold_left].
    rewrite sum_Z_cons. unfold kahan_step at 2. cbn [fst snd].
    rewrite f64_of_int_exact by lia.
    rewrite (f64_sub_int v 0) by lia. rewrite Z.sub_0_r.
    rewrite (f64_add_int s v) by lia.
    rewrite (f64_sub_int (s + v) s) by lia.
    rewrite (f64_sub_int (s + v - s) v) by lia.
    replace (s + v - s - v) with 0 by lia.
    rewrite IH by lia. do 2 f_equal. lia.
Qed.

Lemma kahan_sum_exact (vs : list Z) :
  sum_Z (Z.abs <$> vs) < 2 ^ 53 -> kahan_sum (f64_of_int <$> vs) = inject_Z (sum_Z vs).
Proof.
  intros H. unfold kahan_sum. change (0%Q, 0%Q) with (inject_Z 0, inject_Z 0).
  rewrite kahan_from by lia. done.
Qed.

Lemma aggfunc_mean_exact (vs : list Z) :
  vs <> [] -> sum_Z (Z.abs <$> vs) < 2 ^ 53 -> Z.of_nat (length vs) < 2 ^ 53 ->
  aggfunc_mean vs = round_f64 (sum_Z vs # Pos.of_nat (length vs)).
Proof.
  intros Hne Hsum Hlen. unfold aggfunc_mean.
  rewrite kahan_sum_exact by done. rewrite f64_of_int_exact by lia.
  destruct vs as [|v vs]; [done|]. cbn [length] in *.
  replace (Z.of_nat (S (length vs))) with (Z.pos (Pos.of_nat (S (length vs)))) by lia.
  unfold f64_div. by rewrite Qdiv_inject_Z.
Qed.

Lemma aggfunc_mean_single (v : Z) : Z.abs v < 2 ^ 53 -> aggfunc_mean [v] = inject_Z v.
Proof.
  intros H. rewrite aggfunc_mean_exact; [|done| |done].
  - cbn [length fmap list_fmap]. rewrite sum_Z_cons. change (sum_Z []) with 0.
    rewrite Z.add_0_r. change (v # Pos.of_nat 1) with (inject_Z v). by apply round_f64_int.
  - rewrite fmap_cons, sum_Z_cons. change (sum_Z (Z.abs <$> [])) with 0. lia.
Qed.

(** X15: the cells of the heatmap, for every loaded table.  A cell is the
    float mean of the populations of all the rows of its display name and
    year, NaN when there is none; when the populations add up to less than
    2^53 in size it is their exact mean rounded to the nearest float; and
    with one row per region and year the population of every regional row
    below 2^53 in size is found in the heatmap unchanged, in the row of its
    display name and the column of its year. *)
Theorem heatmap_cell_spec read_csv str_to_num (file_obj : string) (df' : frame)
    (df : PopulationTable) :
  load_population_df read_csv str_to_num file_obj = Ok df' ->
  rows_of df' = Some df ->
  (forall l cells j y,
     (l, cells) ∈ pv_rows (heatmap_pivot df) ->
     pv_columns (heatmap_pivot df) !! j = Some y ->
     cells !! j
     = Some (match population <$>
                   filter (fun r => region_en r = Some l /\ year r = y) df
             with
             | [] => None
             | ps => Some (aggfunc_mean ps)
             end)) /\
  (forall ps, ps <> [] -> sum_Z (Z.abs <$> ps) < 2 ^ 53 -> Z.of_nat (length ps) < 2 ^ 53 ->
              aggfunc_mean ps = round_f64 (sum_Z ps # Pos.of_nat (length ps))) /\
  (unique_keys df ->
   forall r l, r ∈ df -> region r <> national -> region_en r = Some l ->
     Z.abs (population r) < 2 ^ 53 ->
     exists cells j,
       (l, cells) ∈ pv_rows (heatmap_pivot df) /\
       pv_columns (heatmap_pivot df) !! j = Some (year r) /\
       cells !! j = Some (Some (inject_Z (population r)))).
Proof.
  intros Hload Hrows. assert (Hmap := load_rows_mapped _ _ _ _ _ Hload Hrows).
  split; [|split].
  - intros l cells j y Hrow Hc. rewrite (heatmap_cell _ _ _ _ _ Hrow Hc). f_equal.
    unfold aggregate. by destruct (population <$> _).
  - apply aggfunc_mean_exact.
  - intros Huniq r l Hr Hne Hen Hpop.
    assert (l ∈ pv_index (heatmap_pivot df)) as Hl.
    { apply heatmap_index. split; [|by eauto]. intros ->.
      rewrite (Hmap r Hr) in Hen. by apply REGION_KR2EN_national in Hen. }
    unfold pv_index in Hl. apply list_elem_of_fmap in Hl as ([l' cells] & -> & Hrow).
    assert (year r ∈ pv_columns (heatmap_pivot df)) as Hy.
    { unfold heatmap_pivot. cbn [pv_columns]. apply elem_of_pivot_columns.
      exists r. rewrite Hen. eauto. }
    apply list_elem_of_lookup in Hy as [j Hj]. exists cells, j.
    split; [done|]. split; [done|]. cbn [fst] in *.
    rewrite (heatmap_cell _ _ _ _ _ Hrow Hj). f_equal.
    rewrite (filter_iff_elem _ (fun x => (region x, year x) = (region r, year r))).
    + rewrite (filter_unique_key (fun x => (region x, year x)) df r Huniq Hr).
      unfold aggregate. cbn [fmap list_fmap]. f_equal. by apply aggfunc_mean_single.
    + intros x Hx. split.
      * intros [Hx' ->]. f_equal. rewrite (Hmap x Hx) in Hx'. rewrite (Hmap r Hr) in Hen.
        by eapply REGION_KR2EN_injective.
      * intros [= Hg ->]. split; [|done]. by rewrite (Hmap x Hx), Hg, <- (Hmap r Hr).
Qed.

(** The theorem of X15 on the example upload: the population of Seoul is a
    cell of the heatmap. *)
Lemma heatmap_cell_spec_witness :
  load_population_df simple_read_csv number_literal example_csv = Ok example_loaded /\
  rows_of example_loaded = Some example_rows /\
  unique_keys example_rows /\
  exists cells j,
    ("Seoul", cells) ∈ pv_rows (heatmap_pivot example_rows) /\
    pv_columns (heatmap_pivot example_rows) !! j = Some 2020 /\
    cells !! j = Some (Some (inject_Z 9668465)).
Proof.
  assert (load_population_df simple_read_csv number_literal example_csv = Ok example_loaded) as H1
    by (vm_compute; reflexivity).
  assert (rows_of example_loaded = Some example_rows) as H2 by (vm_compute; reflexivity).
  assert (unique_keys example_rows) as H3.
  { apply (bool_decide_unpack _). vm_compute. reflexivity. }
  split; [exact H1|]. split; [exact H2|]. split; [exact H3|].
  apply (proj2 (proj2 (heatmap_cell_spec simple_read_csv number_literal example_csv
                         example_loaded example_rows H1 H2))
           H3 (mk_row seoul 2020 9668465 47445 (-5)) "Seoul").
  - apply (list_elem_of_lookup_2 _ 2%nat). reflexivity.
  - discriminate.
  - vm_compute. reflexivity.
  - vm_compute. reflexivity.
Defined.

(** The mean of 1, 1 and 2 is the float nearest to 4/3, and a population
    beyond 2^53 is not kept. *)
Example heatmap_mean_rounds :
  aggfunc_mean [1; 1; 2] = (6004799503160661 # 4503599627370496)%Q /\
  aggfunc_mean [2 ^ 53 + 1] = inject_Z (2 ^ 53).
Proof. split; vm_compute; reflexivity. Qed.


(** X16: a year for which the upload has national rows only.  The heatmap
    drops the national row after pivoting, so the year stays as a column
    whose cells are all NaN; the area table filters the national rows out
    before pivoting, so it has no row for that year. *)
Theorem heatmap_national_only_year read_csv str_to_num (file_obj : string) (df' : frame)
    (df : PopulationTable) (y : Z) :
  load_population_df read_csv str_to_num file_obj = Ok df' ->
  rows_of df' = Some df ->
  (exists r, r ∈ df /\ year r = y) ->
  (forall r, r ∈ df -> year r = y -> region r = national) ->
  y ∈ pv_columns (heatmap_pivot df) /\
  (forall l cells j,
     (l, cells) ∈ pv_rows (heatmap_pivot df) ->
     pv_columns (heatmap_pivot df) !! j = Some y ->
     cells !! j = Some None) /\
  (y ∉ pv_index (nat_area df)).
Proof.
  intros Hload Hrows (r0 & Hr0 & Hy0) Honly.
  assert (Hmap := load_rows_mapped _ _ _ _ _ Hload Hrows).
  split; [|split].
  - unfold heatmap_pivot. cbn [pv_columns]. apply elem_of_pivot_columns.
    exists r0. split; [done|]. split; [|by rewrite Hy0].
    rewrite (Hmap r0 Hr0), (Honly r0 Hr0 Hy0), REGION_KR2EN_of_national. eauto.
  - intros l cells j Hrow Hc. rewrite (heatmap_cell _ _ _ _ _ Hrow Hc).
    apply heatmap_row in Hrow as [Hne _].
    rewrite filter_nil_elem; [done|]. intros r Hr [Hen Hy].
    rewrite (Hmap r Hr), (Honly r Hr Hy), REGION_KR2EN_of_national in Hen. congruence.
  - intros Hin. apply nat_area_index in Hin as (r & Hr & Hne & Hy & _).
    by destruct Hne; apply Honly.
Qed.


(** The theorem of X16 on an upload whose year 2021 has a national row
    only. *)
Lemma heatmap_national_only_year_witness :
  load_population_df simple_read_csv number_literal national_only_csv
  = Ok national_only_loaded /\
  rows_of national_only_loaded = Some national_only_rows /\
  (exists r, r ∈ national_only_rows /\ year r = 2021) /\
  (forall r, r ∈ national_only_rows -> year r = 2021 -> region r = national) /\
  2021 ∈ pv_columns (heatmap_pivot national_only_rows) /\
  (2021 ∉ pv_index (nat_area national_only_rows)).
Proof.
  assert (load_population_df simple_read_csv number_literal national_only_csv
          = Ok national_only_loaded) as H1 by (vm_compute; reflexivity).
  assert (rows_of national_only_loaded = Some national_only_rows) as H2
    by (vm_compute; reflexivity).
  assert (exists r, r ∈ national_only_rows /\ year r = 2021) as H3.
  { exists (mk_row national 2021 100 5 3). split; [left|reflexivity]. }
  assert (forall r, r ∈ national_only_rows -> year r = 2021 -> region r = national) as H4.
  { apply (proj1 (Forall_forall (fun r => year r = 2021 -> region r = national) _)).
    apply (bool_decide_unpack _). vm_compute. reflexivity. }
  split; [exact H1|]. split; [exact H2|]. split; [exact H3|]. split; [exact H4|].
  destruct (heatmap_national_only_year simple_read_csv number_literal national_only_csv
              national_only_loaded national_only_rows 2021 H1 H2 H3 H4) as (Hc & _ & Hi).
  split; [exact Hc | exact Hi].
Defined.

Lemma sum_Z_fmap_add {A} (f g : A -> Z) (l : list A) :
  sum_Z ((fun a => f a + g a) <$> l) = sum_Z (f <$> l) + sum_Z (g <$> l).
Proof.
  unfold sum_Z. induction l as [|a l IH]; [done|].
  rewrite !fmap_cons. cbn [foldr]. rewrite IH. lia.
Qed.

Lemma sum_Z_fmap_zero {A} (f : A -> Z) (l : list A) :
  (forall a, a ∈ l -> f a = 0) -> sum_Z (f <$> l) = 0.
Proof.
  unfold sum_Z. induction l as [|a l IH]; [done|]. intros H.
  rewrite fmap_cons. cbn [foldr].
  rewrite IH by (intros; apply H; by right). rewrite (H a) by left. done.
Qed.

(** A value counted at one label of a duplicate-free list is counted once. *)
Lemma sum_Z_at_label {A} `{EqDecision A} (P : Prop) `{Decision P} (a0 : A) (v : Z)
    (l : list A) :
  NoDup l -> a0 ∈ l ->
  sum_Z ((fun a => if decide (P /\ a0 = a) then v else 0) <$> l)
  = if decide P then v else 0.
Proof.
  induction l as [|a l IH]; [by intros _ ?%elem_of_nil|].
  intros [Ha Hnd]%NoDup_cons Hin. rewrite fmap_cons. unfold sum_Z. cbn [foldr].
  fold (sum_Z ((fun a => if decide (P /\ a0 = a) then v else 0) <$> l)).
  destruct (decide (a0 = a)) as [->|Hne].
  - rewrite sum_Z_fmap_zero.
    + destruct (decide P), (decide (P /\ a = a)); try tauto; lia.
    + intros x Hx. destruct (decide (P /\ a = x)) as [[_ ->]|]; done.
  - apply elem_of_cons in Hin as [?|Hin]; [done|]. rewrite (IH Hnd Hin).
    destruct (decide (P /\ a0 = a)); [tauto|lia].
Qed.


Lemma sum_Z_abs_sublist (l1 l2 : list Z) :
  l1 `sublist_of` l2 -> sum_Z (Z.abs <$> l1) <= sum_Z (Z.abs <$> l2).
Proof.
  induction 1 as [|x l1 l2 _ IH|x l1 l2 _ IH]; [done| |];
    rewrite ?fmap_cons, ?sum_Z_cons; lia.
Qed.

Section PivotTotals.
Context {I C : Type} `{EqDecision I, EqDecision C}.
Variables (le_index : I -> I -> bool) (le_columns : C -> C -> bool).
Variables (index : PopulationRecord -> option I) (columns : PopulationRecord -> option C).

Lemma cell_values_cons (k : I * C * Z) ks i c :
  sum_Z (cell_values (k :: ks) i c)
  = (if decide (k.1.1 = i /\ k.1.2 = c) then k.2 else 0) + sum_Z (cell_values ks i c).
Proof.
  unfold cell_values. rewrite filter_cons.
  destruct (decide (k.1.1 = i /\ k.1.2 = c)); [done|]. by rewrite Z.add_0_l.
Qed.

Lemma cell_values_row_total (ks : list (I * C * Z)) (cols : list C) i :
  NoDup cols -> (forall k, k ∈ ks -> k.1.2 ∈ cols) ->
  sum_Z ((fun c => sum_Z (cell_values ks i c)) <$> cols)
  = sum_Z (filter (fun k => k.1.1 = i) ks).*2.
Proof.
  intros Hnd. induction ks as [|k ks IH]; intros Hin.
  - by apply sum_Z_fmap_zero.
  - rewrite (list_fmap_ext _ (fun c => (if decide (k.1.1 = i /\ k.1.2 = c) then k.2 else 0)
                                        + sum_Z (cell_values ks i c)) cols)
      by (intros; apply cell_values_cons).
    rewrite sum_Z_fmap_add, IH by (intros; apply Hin; by right).
    rewrite sum_Z_at_label by (try done; apply Hin; left).
    rewrite filter_cons. by destruct (decide (k.1.1 = i)); [|rewrite Z.add_0_l].
Qed.

Lemma keyed_row_values df i :
  (filter (fun k => k.1.1 = i) (keyed index columns df)).*2
  = population <$> filter (fun r => index r = Some i /\ is_Some (columns r)) df.
Proof.
  unfold keyed. induction df as [|r df IH]; [done|].
  rewrite filter_cons. cbn [omap list_omap].
  destruct (index r) as [i'|] eqn:Hi, (columns r) as [c'|] eqn:Hc.
  - rewrite filter_cons. cbn [fst snd].
    destruct (decide (i' = i)) as [E|Hne], (decide (Some i' = Some i /\ is_Some (Some c')))
      as [H1|H1].
    + rewrite !fmap_cons. cbn [snd]. f_equal. exact IH.
    + destruct H1. subst i'. eauto.
    + destruct H1 as [[= ?] _]. done.
    + exact IH.
  - destruct (decide (Some i' = Some i /\ is_Some (@None C))) as [[_ [? ?]]|]; [done|exact IH].
  - destruct (decide (None = Some i /\ is_Some (Some c'))) as [[? _]|]; [done|exact IH].
  - destruct (decide (None = Some i /\ is_Some (@None C))) as [[? _]|]; [done|exact IH].
Qed.

Lemma cell_values_sublist (ks : list (I * C * Z)) i c :
  cell_values ks i c `sublist_of` (filter (fun k => k.1.1 = i) ks).*2.
Proof.
  unfold cell_values. apply fmap_sublist.
  induction ks as [|k ks IH]; [done|]. rewrite !filter_cons.
  destruct (decide (k.1.1 = i /\ k.1.2 = c)) as [[Hi _]|Hn].
  - rewrite decide_True by done. by apply sublist_skip.
  - destruct (decide (k.1.1 = i)); [by apply sublist_cons | done].
Qed.

(** While the populations of a row stay below 2^53 in size, its sums are
    exact and add up to the populations of the row. *)
Lemma pivot_sum_row_total df i cells :
  sum_Z (Z.abs <$> (population <$>
                      filter (fun r => index r = Some i /\ is_Some (columns r)) df)) < 2 ^ 53 ->
  (i, cells) ∈ pv_rows (pivot_table le_index le_columns index columns aggfunc_sum df) ->
  Forall (fun z => forall v, z = Some v -> Z.abs v < 2 ^ 53) cells /\
  sum_Z (default 0 <$> cells)
  = sum_Z (population <$> filter (fun r => index r = Some i /\ is_Some (columns r)) df).
Proof.
  rewrite <- keyed_row_values.
  unfold pivot_table. cbn [pv_rows]. intros Hsum Hrow.
  apply list_elem_of_fmap in Hrow as (i' & [= -> ->] & _).
  assert (forall c, aggregate aggfunc_sum (cell_values (keyed index columns df) i' c)
                    = match cell_values (keyed index columns df) i' c with
                      | [] => None
                      | vs => Some (sum_Z vs)
                      end /\
                    Z.abs (sum_Z (cell_values (keyed index columns df) i' c)) < 2 ^ 53)
    as Hcell.
  { intros c. pose proof (sum_Z_abs_sublist _ _ (cell_values_sublist (keyed index columns df) i' c)).
    pose proof (sum_Z_abs_bound (cell_values (keyed index columns df) i' c)).
    split; [|lia]. unfold aggregate, aggfunc_sum.
    destruct (cell_values _ _ _) eqn:E; [done|]. rewrite wrap64_id; [done|].
    unfold fits_int64. lia. }
  split.
  - apply Forall_fmap, Forall_forall. intros c _ v Hv. cbn in Hv.
    destruct (Hcell c) as [Hc Hb]. rewrite Hc in Hv.
    destruct (cell_values _ _ _); [done|]. by injection Hv as <-.
  - rewrite <- list_fmap_compose.
    rewrite (list_fmap_ext _ (fun c => sum_Z (cell_values (keyed index columns df) i' c))).
    2:{ intros _ c _. unfold compose. rewrite (proj1 (Hcell c)).
        by destruct (cell_values _ _ _). }
    rewrite cell_values_row_total; [done| |].
    + apply sort_by_NoDup, NoDup_remove_dups.
    + intros [[i c] v] Hk. cbn [fst snd].
      rewrite elem_of_sort_by, elem_of_remove_dups, list_elem_of_fmap. exists (i, c).
      split; [done|]. apply list_elem_of_fmap. by exists (i, c, v).
Qed.
End PivotTotals.

Lemma unstacked_cells_exact {I C} (p : pivot I C Z) (zs : list (option Z)) :
  Forall (fun z => forall v, z = Some v -> Z.abs v < 2 ^ 53) zs ->
  fmap (M := option) (unstacked_value p) <$> zs = fmap (M := option) inject_Z <$> zs.
Proof.
  intros H. apply Forall_fmap_ext_1. eapply Forall_impl; [exact H|].
  intros [v|] Hv; [|done]. cbn. f_equal.
  unfold unstacked_value. case_bool_decide; [done|]. apply f64_of_int_exact. by apply Hv.
Qed.

(** X17: pivoting for the area table loses and repeats nothing.  A year has
    a row exactly when the table has a row of that year that is not national
    and has a display name; while the populations of those rows add up to
    less than 2^53 in size, the cells of the year's row are whole numbers,
    and the defined ones add up to the total population of those rows. *)
Theorem nat_area_row_total (df : PopulationTable) (y : Z) :
  sum_Z (Z.abs <$> (population <$>
           filter (fun r => region r <> national /\ year r = y /\ is_Some (region_en r)) df))
    < 2 ^ 53 ->
  (y ∈ pv_index (nat_area df) <->
   exists r, r ∈ df /\ region r <> national /\ year r = y /\ is_Some (region_en r)) /\
  ((exists r, r ∈ df /\ region r <> national /\ year r = y /\ is_Some (region_en r)) ->
   exists zs,
     (y, fmap (M := option) inject_Z <$> zs) ∈ pv_rows (nat_area df) /\
     sum_Z (default 0 <$> zs)
     = sum_Z (population <$>
                filter (fun r => region r <> national /\ year r = y /\ is_Some (region_en r))
                       df)) /\
  (forall cells, (y, cells) ∈ pv_rows (nat_area df) ->
     exists zs,
       cells = fmap (M := option) inject_Z <$> zs /\
       sum_Z (default 0 <$> zs)
       = sum_Z (population <$>
                  filter (fun r => region r <> national /\ year r = y /\ is_Some (region_en r))
                         df)).
Proof.
  intros Hsum.
  assert (filter (fun r => (Some (year r) = Some y) /\ is_Some (region_en r))
                 (filter (fun r => region r <> national) df)
          = filter (fun r => region r <> national /\ year r = y /\ is_Some (region_en r)) df)
    as Hf.
  { rewrite list_filter_filter. apply list_filter_iff. intros r.
    split; [intros [[[= ?] ?] ?] | intros (? & -> & ?)]; done. }
  assert (forall cells, (y, cells) ∈ pv_rows (nat_area df) ->
            exists zs,
              cells = fmap (M := option) inject_Z <$> zs /\
              sum_Z (default 0 <$> zs)
              = sum_Z (population <$>
                         filter (fun r => region r <> national /\ year r = y /\
                                          is_Some (region_en r)) df)) as Hrows.
  { intros cells (zs & Hrow & ->)%elem_of_unstacked_rows. unfold area_sums in Hrow.
    rewrite <- Hf in Hsum |- *.
    destruct (pivot_sum_row_total _ _ _ _ _ _ _ Hsum Hrow) as [Hall Htot].
    exists zs. split; [|exact Htot]. by apply unstacked_cells_exact. }
  split; [apply nat_area_index|]. split; [|exact Hrows].
  intros Hex. apply nat_area_index in Hex. unfold pv_index in Hex.
  apply list_elem_of_fmap in Hex as ([y' cells] & -> & Hrow). cbn [fst] in *.
  destruct (Hrows cells Hrow) as (zs & -> & Htot). exists zs. done.
Qed.

(** The theorem of X17 on the example: the row of 2022 holds Busan's 70 and
    Seoul's 80. *)
Lemma nat_area_row_total_witness :
  sum_Z (Z.abs <$> (population <$>
           filter (fun r => region r <> national /\ year r = 2022 /\ is_Some (region_en r))
                  example_regions)) < 2 ^ 53 /\
  (exists r, r ∈ example_regions /\ region r <> national /\ year r = 2022 /\
             is_Some (region_en r)) /\
  exists zs,
    (2022, fmap (M := option) inject_Z <$> zs) ∈ pv_rows (nat_area example_regions) /\
    sum_Z (default 0 <$> zs)
    = sum_Z (population <$>
               filter (fun r => region r <> national /\ year r = 2022 /\ is_Some (region_en r))
                      example_regions).
Proof.
  assert (sum_Z (Z.abs <$> (population <$>
            filter (fun r => region r <> national /\ year r = 2022 /\ is_Some (region_en r))
                   example_regions)) < 2 ^ 53) as H1 by (vm_compute; reflexivity).
  assert (exists r, r ∈ example_regions /\ region r <> national /\ year r = 2022 /\
                    is_Some (region_en r)) as H2.
  { exists (mk_row seoul 2022 80 0 0). split; [|split; [discriminate|split; [reflexivity|]]].
    - apply (list_elem_of_lookup_2 _ 1%nat). reflexivity.
    - vm_compute. eauto. }
  split; [exact H1|]. split; [exact H2|].
  exact (proj1 (proj2 (nat_area_row_total example_regions 2022 H1)) H2).
Defined.
